(** * torba.baseledger: a shallow embedding of the ledger engine

    The development follows [src/torba/baseledger.py]:

    - [Py]          the Python built-ins the ledger relies on ([str.split],
                    [int], [str.format] on integers, [hexlify]/[unhexlify],
                    slices), and the exception/state monad in which the
                    coroutines of the ledger are written;
    - [Registry]    the metaclass [LedgerRegistry];
    - [Merkle]      [get_root_of_merkle_tree];
    - [Base58]      a Base58 codec, to have an instance of the codec that
                    the address functions are parameterised by;
    - [Codec]       [hash160_to_address] / [address_to_hash160],
                    [public_key_to_address], [private_key_to_wif];
    - [Sync]        [get_local_history], [is_valid_transaction],
                    [update_history];
    - [Lookup]      [get_transaction];
    - [Status]      [get_local_status], [subscribe_history],
                    [process_status];
    - [HeaderSync]  [update_headers], [process_header], sequentially and
                    under the cooperative scheduler;
    - [Reservation] [get_effective_amount_estimators],
                    [get_spendable_utxos], sequentially and under the
                    cooperative scheduler;
    - [Keys]        [get_private_key_for_address];
    - [Concurrent]  concurrent calls of [update_history] and the table of
                    transaction locks.

    A coroutine decorated with [defer.inlineCallbacks] is embedded as a
    function in a state-and-exception monad: every [yield] is a bind, a raised
    exception keeps the state reached so far, and [try/finally] is a
    combinator.  Collaborators whose code is not part of the ledger module
    (network, transaction decoder, hash functions, coin selector) are section
    variables; so is the verdict of the database on each save, which may be
    an exception. *)

From Stdlib Require Import ZArith Lia List Ascii String.
From Stdlib.Strings Require Import Byte.
From stdpp Require Import base option list gmap strings.

Local Open Scope string_scope.
Local Open Scope list_scope.
Local Open Scope Z_scope.

(** Python [bytes]. *)
Abbreviation bytes := (list byte).

#[global] Instance byte_eq_decision : EqDecision byte := Byte.byte_eq_dec.

(* ===================================================================== *)
(** * Python primitives                                                    *)
(* ===================================================================== *)

Module Py.

(** The exception classes that the modelled code can raise. *)
Inductive exn : Type :=
| TypeError
| ValueError
| IndexError
| KeyError
| AssertionError
| AttributeError
| BinasciiError
| Base58Error
| NetworkError
| TransactionError
| DatabaseError
| HeaderError.

#[global] Instance exn_eq_decision : EqDecision exn.
Proof. solve_decision. Defined.

(** Result of a pure call that may raise. *)
Inductive result (A : Type) : Type :=
| Ok (a : A)
| Err (e : exn).
Arguments Ok {A} a.
Arguments Err {A} e.

Definition result_bind {A B} (r : result A) (k : A -> result B) : result B :=
  match r with
  | Ok a => k a
  | Err e => Err e
  end.

Definition result_map {A B} (f : A -> B) (r : result A) : result B :=
  result_bind r (fun a => Ok (f a)).

Definition of_option {A} (e : exn) (o : option A) : result A :=
  match o with
  | Some a => Ok a
  | None => Err e
  end.

(** ** The coroutine monad

    A run either returns, raises, or cannot go on by itself: it waits for a
    lock that another coroutine holds, or the fuel given to a [while True]
    loop is used up. *)
Inductive stuck_reason : Type :=
| WaitingForLock
| OutOfFuel.

Inductive outcome (A : Type) : Type :=
| Return (a : A)
| Raise (e : exn)
| Stuck (r : stuck_reason).
Arguments Return {A} a.
Arguments Raise {A} e.
Arguments Stuck {A} r.

Definition M (S A : Type) : Type := S -> outcome A * S.

Definition ret {S A} (a : A) : M S A := fun s => (Return a, s).

Definition raise {S A} (e : exn) : M S A := fun s => (Raise e, s).

Definition stuck {S A} (r : stuck_reason) : M S A := fun s => (Stuck r, s).

Definition bind {S A B} (m : M S A) (k : A -> M S B) : M S B :=
  fun s =>
    match m s with
    | (Return a, s') => k a s'
    | (Raise e, s') => (Raise e, s')
    | (Stuck r, s') => (Stuck r, s')
    end.

Definition get {S} : M S S := fun s => (Return s, s).

Definition gets {S A} (f : S -> A) : M S A := fun s => (Return (f s), s).

Definition modify {S} (f : S -> S) : M S unit := fun s => (Return tt, f s).

(** A pure call that may raise, made from inside a coroutine. *)
Definition lift {S A} (r : result A) : M S A :=
  match r with
  | Ok a => ret a
  | Err e => raise e
  end.

(** [try: body finally: fin].  The [finally] block runs when the body
    returns and when it raises; a run that is stuck has not left the [try]
    block.  The handler [except Exception: log.exception(...); raise] of the
    ledger re-raises the same exception and is therefore the identity. *)
Definition try_finally {S A} (body : M S A) (fin : M S unit) : M S A :=
  fun s =>
    match body s with
    | (Return a, s') =>
        match fin s' with
        | (Return _, s'') => (Return a, s'')
        | (Raise e, s'') => (Raise e, s'')
        | (Stuck r, s'') => (Stuck r, s'')
        end
    | (Raise e, s') =>
        match fin s' with
        | (Return _, s'') => (Raise e, s'')
        | (Raise e', s'') => (Raise e', s'')
        | (Stuck r, s'') => (Stuck r, s'')
        end
    | (Stuck r, s') => (Stuck r, s')
    end.

Declare Scope coroutine_scope.
Delimit Scope coroutine_scope with co.

Notation "'let*' p := m 'in' k" := (bind m (fun p => k))
  (at level 10, p pattern, m at level 100, k at level 200) : coroutine_scope.
Notation "m ;;; k" := (bind m (fun _ => k))
  (at level 100, right associativity) : coroutine_scope.

(** ** Integers and text *)

(** Truthiness of an integer: [bool(n)]. *)
Definition truthy (n : Z) : bool := negb (n =? 0).

Definition digit_char (d : Z) : ascii := ascii_of_N (Z.to_N (48 + d)).

Definition digit_value (c : ascii) : option Z :=
  let n := Z.of_N (N_of_ascii c) in
  if (48 <=? n) && (n <=? 57) then Some (n - 48) else None.

(** Digits of a non-negative integer in a base, most significant first, in
    front of [acc]; zero has no digit. *)
Fixpoint to_digits (base : Z) (fuel : nat) (v : Z) (acc : list Z) : list Z :=
  match fuel with
  | O => acc
  | S fuel' =>
      if v <=? 0 then acc else to_digits base fuel' (v / base) (v mod base :: acc)
  end.

Definition digits (base v : Z) : list Z :=
  to_digits base (S (Z.to_nat (Z.log2 v))) v [].

(** Digits in range, and no leading zero. *)
Definition canonical (base : Z) (ds : list Z) : Prop :=
  Forall (fun d => 0 <= d < base) ds /\ (forall d rest, ds = d :: rest -> d <> 0).

(** The integer that a list of digits, most significant first, denotes. *)
Definition from_digits (base : Z) (ds : list Z) : Z :=
  fold_left (fun acc d => acc * base + d) ds 0.

Fixpoint string_of_digits (ds : list Z) : string :=
  match ds with
  | [] => EmptyString
  | d :: rest => String (digit_char d) (string_of_digits rest)
  end.

(** [str(n)], also what ['{}'.format(n)] yields for an integer. *)
Definition str_of_int (n : Z) : string :=
  if n =? 0 then "0"
  else if n <? 0 then String "-" (string_of_digits (digits 10 (- n)))
  else string_of_digits (digits 10 n).

(** The white space that [int()] skips around a literal: tab, line feed,
    vertical tab, form feed, carriage return and space.  (The separators
    [\x1c] to [\x1f], which [str.strip()] removes, are not among them:
    [int('\x1c7')] raises [ValueError].) *)
Definition is_space (c : ascii) : bool :=
  let n := N_of_ascii c in
  ((9 <=? n) && (n <=? 13) || (n =? 32))%N.

Fixpoint lstrip (s : string) : string :=
  match s with
  | String c rest => if is_space c then lstrip rest else s
  | EmptyString => EmptyString
  end.

Fixpoint rstrip (s : string) : string :=
  match s with
  | String c rest =>
      match rstrip rest with
      | EmptyString => if is_space c then EmptyString else String c EmptyString
      | r => String c r
      end
  | EmptyString => EmptyString
  end.

Definition strip (s : string) : string := rstrip (lstrip s).

(** The digit part of an integer literal: decimal digits, with single
    underscores allowed between two digits. *)
Fixpoint parse_digits (acc : Z) (after_digit : bool) (s : string) : option Z :=
  match s with
  | EmptyString => if after_digit then Some acc else None
  | String c rest =>
      if Ascii.eqb c "_" then
        if after_digit then parse_digits acc false rest else None
      else
        match digit_value c with
        | Some d => parse_digits (acc * 10 + d) true rest
        | None => None
        end
  end.

(** [int(s)] on ASCII text: surrounding whitespace is dropped, then an
    optional sign, then the digits.  Anything else raises [ValueError]. *)
Definition int_of_str (s : string) : result Z :=
  of_option ValueError
    match strip s with
    | String c rest =>
        if Ascii.eqb c "-" then Z.opp <$> parse_digits 0 false rest
        else if Ascii.eqb c "+" then parse_digits 0 false rest
        else parse_digits 0 false (String c rest)
    | EmptyString => None
    end.

(** [c in s] *)
Fixpoint contains (c : ascii) (s : string) : bool :=
  match s with
  | EmptyString => false
  | String x rest => Ascii.eqb x c || contains c rest
  end.

(** [s.split(sep)] for a one-character separator. *)
Fixpoint split (sep : ascii) (s : string) : list string :=
  match s with
  | EmptyString => [EmptyString]
  | String c rest =>
      if Ascii.eqb c sep then EmptyString :: split sep rest
      else
        match split sep rest with
        | w :: ws => String c w :: ws
        | [] => [String c EmptyString]
        end
  end.

(** [l[:-1]] *)
Definition drop_last {A} (l : list A) : list A := removelast l.

(** [l[0::2]] *)
Fixpoint stride2 {A} (l : list A) : list A :=
  match l with
  | [] => []
  | x :: rest =>
      x :: match rest with
           | [] => []
           | _ :: rest' => stride2 rest'
           end
  end.

(** [l[a:b]] for [0 <= a <= b]. *)
Definition slice {A} (a b : nat) (l : list A) : list A := firstn (b - a) (skipn a l).

(** [list(map(f, l))] where [f] may raise: the first failure aborts. *)
Fixpoint map_result {A B} (f : A -> result B) (l : list A) : result (list B) :=
  match l with
  | [] => Ok []
  | x :: rest =>
      result_bind (f x) (fun y =>
      result_bind (map_result f rest) (fun ys => Ok (y :: ys)))
  end.

(** [enumerate(l, start)] and [enumerate(l)] *)
Fixpoint enumerate_from {A} (start : nat) (l : list A) : list (nat * A) :=
  match l with
  | [] => []
  | x :: rest => (start, x) :: enumerate_from (S start) rest
  end.

Definition enumerate {A} (l : list A) : list (nat * A) := enumerate_from 0 l.

(** ** binascii *)

Definition hex_char (n : N) : ascii :=
  if (n <? 10)%N then ascii_of_N (48 + n) else ascii_of_N (87 + n).

Definition hex_value (c : ascii) : option N :=
  let n := N_of_ascii c in
  if ((48 <=? n) && (n <=? 57))%N then Some (n - 48)%N
  else if ((97 <=? n) && (n <=? 102))%N then Some (n - 87)%N
  else if ((65 <=? n) && (n <=? 70))%N then Some (n - 55)%N
  else None.

Definition byte_of_N (n : N) : byte :=
  match Byte.of_N n with
  | Some b => b
  | None => x00
  end.

(** [hexlify(b)]: two lower-case hexadecimal digits per byte. *)
Fixpoint hexlify (b : bytes) : string :=
  match b with
  | [] => EmptyString
  | x :: rest =>
      let n := Byte.to_N x in
      String (hex_char (n / 16)) (String (hex_char (n mod 16)) (hexlify rest))
  end.

(** [unhexlify(s)]: raises [binascii.Error] on an odd number of digits or
    on a character that is not a hexadecimal digit. *)
Fixpoint unhexlify_opt (s : string) : option bytes :=
  match s with
  | EmptyString => Some []
  | String a (String b rest) =>
      hi ← hex_value a;
      lo ← hex_value b;
      tl ← unhexlify_opt rest;
      Some (byte_of_N (hi * 16 + lo) :: tl)
  | String _ EmptyString => None
  end.

Definition unhexlify (s : string) : result bytes :=
  of_option BinasciiError (unhexlify_opt s).

(** ** [str], [bytes] and [None]

    A value that is [None], a [str] or a [bytes] object holding ASCII text.
    In Python 3 a [bytes] object is never equal to a [str], whatever their
    characters, and [None] is equal to [None] only: [==] is equality of the
    kind and of the text. *)
Inductive text_value : Type :=
| NoneValue
| StrValue (text : string)
| BytesValue (text : string).

#[global] Instance text_value_eq_decision : EqDecision text_value.
Proof. solve_decision. Defined.

(** [s.encode()] on ASCII text. *)
Definition encode (s : string) : bytes := list_byte_of_string s.

(** ** Inversion of coroutine runs *)

Lemma bind_Return_inv {S A B} (m : M S A) (k : A -> M S B) s b s' :
  bind m k s = (Return b, s') ->
  exists a s1, m s = (Return a, s1) /\ k a s1 = (Return b, s').
Proof.
  unfold bind. destruct (m s) as [[a|e|r] s1]; try discriminate. eauto.
Qed.

Lemma try_finally_Return_inv {S A} (body : M S A) (fin : M S unit) s a s' :
  try_finally body fin s = (Return a, s') ->
  exists s1, body s = (Return a, s1) /\ fin s1 = (Return tt, s').
Proof.
  unfold try_finally. destruct (body s) as [[a1|e|r] s1]; try discriminate.
  - destruct (fin s1) as [[[]|e|r] s2] eqn:Hfin; try discriminate.
    intros [= <- <-]. eauto.
  - destruct (fin s1) as [[u|e'|r] s2]; discriminate.
Qed.

Lemma lift_Return_inv {S A} (r : result A) (s : S) a s' :
  lift r s = (Return a, s') -> r = Ok a /\ s' = s.
Proof. destruct r; simpl; unfold ret, raise; intros [= <- <-]; auto. Qed.

Lemma ret_Return_inv {S A} (x : A) (s : S) a s' :
  ret x s = (Return a, s') -> a = x /\ s' = s.
Proof. unfold ret. intros [= <- <-]. auto. Qed.

Lemma gets_Return_inv {S A} (f : S -> A) (s : S) a s' :
  gets f s = (Return a, s') -> a = f s /\ s' = s.
Proof. unfold gets. intros [= <- <-]. auto. Qed.

Lemma modify_Return_inv {S} (f : S -> S) (s : S) a s' :
  modify f s = (Return a, s') -> s' = f s.
Proof. unfold modify. intros [= <- <-]. auto. Qed.

(** Splits a hypothesis [H], that a run returned, into one fact per step. *)
Ltac run_inv H :=
  lazymatch type of H with
  | bind _ _ _ = (Return _, _) =>
      let a := fresh "a" in
      let s := fresh "s" in
      let H1 := fresh "Hstep" in
      let H2 := fresh "Hrest" in
      apply bind_Return_inv in H as (a & s & H1 & H2);
      run_inv H1; run_inv H2
  | try_finally _ _ _ = (Return _, _) =>
      let s := fresh "s" in
      let H1 := fresh "Hbody" in
      let H2 := fresh "Hfin" in
      apply try_finally_Return_inv in H as (s & H1 & H2);
      run_inv H1; run_inv H2
  | lift _ _ = (Return _, _) =>
      let H1 := fresh "Hcall" in
      apply lift_Return_inv in H as [H1 ->]
  | ret _ _ = (Return _, _) =>
      let H1 := fresh "Hret" in
      apply ret_Return_inv in H as [H1 ->]; try subst
  | gets _ _ = (Return _, _) =>
      let H1 := fresh "Hget" in
      apply gets_Return_inv in H as [H1 ->]; try subst
  | get _ = (Return _, _) =>
      let H1 := fresh "Hget" in
      apply (gets_Return_inv (fun s => s)) in H as [H1 ->]; try subst
  | modify _ _ = (Return _, _) =>
      apply modify_Return_inv in H; try subst
  | _ => idtac
  end.

(** ** Sanity checks against the interpreter *)

Example split_example : split ":" "aa:5:bb:0:" = ["aa"; "5"; "bb"; "0"; ""].
Proof. reflexivity. Qed.

Example split_empty_example : split ":" "" = [""].
Proof. reflexivity. Qed.

Example str_of_int_example :
  map str_of_int [0; 7; 10; 1234567; -1; -120] = ["0"; "7"; "10"; "1234567"; "-1"; "-120"].
Proof. vm_compute. reflexivity. Qed.

Example int_of_str_example :
  map int_of_str ["0"; " 7 "; "1_0"; "+12"; "-1"; ""; "-"; "1__0"; "_1"; "a"; "007"]
  = [Ok 0; Ok 7; Ok 10; Ok 12; Ok (-1); Err ValueError; Err ValueError;
     Err ValueError; Err ValueError; Err ValueError; Ok 7].
Proof. vm_compute. reflexivity. Qed.

Example hexlify_example : hexlify [x00; xff; x1a] = "00ff1a".
Proof. reflexivity. Qed.

Example unhexlify_example :
  unhexlify "00FF1a" = Ok [x00; xff; x1a] /\ unhexlify "0" = Err BinasciiError /\
  unhexlify "0g" = Err BinasciiError.
Proof. vm_compute. auto. Qed.

(** ** Positional notation *)

Section Digits.
Variable base : Z.
Hypothesis base_ge_2 : 2 <= base.

Lemma from_digits_snoc ds d : from_digits base (ds ++ [d]) = from_digits base ds * base + d.
Proof. unfold from_digits. rewrite fold_left_app. reflexivity. Qed.

Lemma fold_digits_lower_bound ds : forall a,
  0 <= a -> Forall (fun d => 0 <= d < base) ds ->
  a <= fold_left (fun acc d => acc * base + d) ds a.
Proof.
  induction ds as [|d ds IH]; intros a Ha Hds; simpl; [lia|].
  apply Forall_cons in Hds as [Hd Hds].
  etrans; [|apply IH; [nia | assumption]]. nia.
Qed.

Lemma from_digits_nonneg ds :
  Forall (fun d => 0 <= d < base) ds -> 0 <= from_digits base ds.
Proof. intros Hds. apply (fold_digits_lower_bound ds 0); [lia | assumption]. Qed.

Lemma from_digits_pos ds : canonical base ds -> ds <> [] -> 0 < from_digits base ds.
Proof.
  intros [Hds Hhead] Hne. destruct ds as [|d ds]; [congruence|].
  apply Forall_cons in Hds as [Hd Hds]. specialize (Hhead d ds eq_refl).
  unfold from_digits. simpl.
  pose proof (fold_digits_lower_bound ds (0 * base + d) ltac:(lia) Hds). lia.
Qed.

Lemma canonical_snoc_inv ds d :
  canonical base (ds ++ [d]) -> canonical base ds /\ 0 <= d < base.
Proof.
  intros [Hds Hhead]. apply Forall_app in Hds as [Hds Hd].
  apply Forall_cons in Hd as [Hd _]. split; [|assumption].
  split; [assumption|]. intros x rest ->. by eapply Hhead.
Qed.

Lemma to_digits_acc fuel : forall v acc,
  to_digits base fuel v acc = to_digits base fuel v [] ++ acc.
Proof.
  induction fuel as [|fuel IH]; intros v acc; simpl; [reflexivity|].
  destruct (v <=? 0); [reflexivity|].
  rewrite IH, (IH _ [_]), <- app_assoc. reflexivity.
Qed.

(** With enough fuel, [to_digits] yields the canonical digits. *)
Lemma to_digits_unique fuel : forall v ds,
  0 <= v < 2 ^ Z.of_nat fuel -> canonical base ds -> from_digits base ds = v ->
  to_digits base fuel v [] = ds.
Proof.
  induction fuel as [|fuel IH]; intros v ds Hv Hcan Hval.
  - destruct ds as [|d ds]; [reflexivity|].
    pose proof (from_digits_pos _ Hcan ltac:(congruence)). simpl in Hv. lia.
  - simpl. destruct (Z.leb_spec v 0) as [Hle | Hpos].
    + destruct ds as [|d ds]; [reflexivity|].
      pose proof (from_digits_pos _ Hcan ltac:(congruence)). lia.
    + destruct ds as [|d0 ds0] using rev_ind; [unfold from_digits in Hval; simpl in Hval; lia|].
      clear IHds0. rewrite from_digits_snoc in Hval.
      apply canonical_snoc_inv in Hcan as [Hcan Hd0].
      assert (Hdiv : v / base = from_digits base ds0)
        by (symmetry; apply (Z.div_unique _ _ _ d0); lia).
      assert (Hmod : v mod base = d0)
        by (symmetry; apply (Z.mod_unique _ _ (from_digits base ds0)); lia).
      rewrite to_digits_acc, Hmod. f_equal.
      apply IH; [|assumption|congruence].
      rewrite Nat2Z.inj_succ, Z.pow_succ_r in Hv by lia.
      split; [apply Z.div_pos; lia|].
      apply Z.div_lt_upper_bound; [lia|]. nia.
Qed.

Lemma to_digits_sound fuel : forall v,
  0 <= v < 2 ^ Z.of_nat fuel ->
  canonical base (to_digits base fuel v []) /\ from_digits base (to_digits base fuel v []) = v.
Proof.
  induction fuel as [|fuel IH]; intros v Hv.
  - simpl in *. split; [split; [constructor | congruence]|]. unfold from_digits. simpl. lia.
  - simpl. destruct (Z.leb_spec v 0) as [Hle | Hpos].
    + split; [split; [constructor | congruence]|]. unfold from_digits. simpl. lia.
    + rewrite to_digits_acc.
      rewrite Nat2Z.inj_succ, Z.pow_succ_r in Hv by lia.
      assert (Hq : 0 <= v / base < 2 ^ Z.of_nat fuel).
      { split; [apply Z.div_pos; lia|]. apply Z.div_lt_upper_bound; [lia|]. nia. }
      destruct (IH _ Hq) as [[Hds Hhead] Hval].
      pose proof (Z.mod_pos_bound v base ltac:(lia)) as Hm.
      split; [split|].
      * apply Forall_app. split; [assumption|]. by constructor.
      * intros d rest Heq.
        destruct (to_digits base fuel (v / base) []) as [|d' ds'] eqn:Hdigits.
        -- simpl in Heq. injection Heq as <- <-.
           unfold from_digits in Hval. simpl in Hval.
           intros Hzero. pose proof (Z.div_mod v base ltac:(lia)). lia.
        -- simpl in Heq. injection Heq as <- <-. by eapply Hhead.
      * rewrite from_digits_snoc, Hval. pose proof (Z.div_mod v base ltac:(lia)). lia.
Qed.

Lemma digits_fuel_enough v : 0 <= v -> 0 <= v < 2 ^ Z.of_nat (S (Z.to_nat (Z.log2 v))).
Proof.
  intros Hv. split; [assumption|].
  rewrite Nat2Z.inj_succ, Z2Nat.id by apply Z.log2_nonneg.
  destruct (Z.eq_dec v 0) as [-> | Hne]; [reflexivity|].
  apply Z.log2_spec. lia.
Qed.

Lemma digits_sound v :
  0 <= v -> canonical base (digits base v) /\ from_digits base (digits base v) = v.
Proof. intros Hv. apply to_digits_sound, digits_fuel_enough, Hv. Qed.

Lemma digits_from_digits ds : canonical base ds -> digits base (from_digits base ds) = ds.
Proof.
  intros Hcan. unfold digits.
  apply to_digits_unique; [|assumption|reflexivity].
  apply digits_fuel_enough, from_digits_nonneg, Hcan.
Qed.

End Digits.

(** ** Decimal text *)

Lemma digit_char_facts d :
  0 <= d < 10 ->
  digit_value (digit_char d) = Some d /\
  is_space (digit_char d) = false /\
  Ascii.eqb (digit_char d) "_" = false /\
  Ascii.eqb (digit_char d) "-" = false /\
  Ascii.eqb (digit_char d) "+" = false /\
  Ascii.eqb (digit_char d) ":" = false.
Proof.
  intros Hd.
  assert (Hcases : d = 0 \/ d = 1 \/ d = 2 \/ d = 3 \/ d = 4 \/ d = 5 \/ d = 6 \/
                   d = 7 \/ d = 8 \/ d = 9) by lia.
  repeat destruct Hcases as [-> | Hcases]; try subst d; vm_compute; auto 10.
Qed.

Lemma parse_digits_string_of_digits ds : forall acc after_digit,
  Forall (fun d => 0 <= d < 10) ds -> ds <> [] \/ after_digit = true ->
  parse_digits acc after_digit (string_of_digits ds)
  = Some (fold_left (fun a d => a * 10 + d) ds acc).
Proof.
  induction ds as [|d ds IH]; intros acc after_digit Hds Hne; simpl.
  - destruct Hne as [? | ->]; [congruence | reflexivity].
  - apply Forall_cons in Hds as [Hd Hds].
    destruct (digit_char_facts d Hd) as (-> & _ & -> & _).
    apply IH; auto.
Qed.

Lemma rstrip_cons c s :
  is_space c = false -> rstrip s = s -> rstrip (String c s) = String c s.
Proof. intros Hc Hs. simpl. rewrite Hs, Hc. by destruct s. Qed.

Lemma rstrip_string_of_digits ds :
  Forall (fun d => 0 <= d < 10) ds -> rstrip (string_of_digits ds) = string_of_digits ds.
Proof.
  induction 1 as [|d ds Hd _ IH]; [reflexivity|].
  apply rstrip_cons; [|exact IH]. by destruct (digit_char_facts d Hd) as (_ & -> & _).
Qed.

Lemma contains_string_of_digits ds :
  Forall (fun d => 0 <= d < 10) ds -> contains ":" (string_of_digits ds) = false.
Proof.
  induction 1 as [|d ds Hd _ IH]; [reflexivity|]. simpl.
  destruct (digit_char_facts d Hd) as (_ & _ & _ & _ & _ & ->). exact IH.
Qed.

Lemma decimal_digits n :
  0 < n ->
  Forall (fun d => 0 <= d < 10) (digits 10 n) /\ digits 10 n <> [] /\
  from_digits 10 (digits 10 n) = n.
Proof.
  intros Hn. destruct (digits_sound 10 ltac:(lia) n ltac:(lia)) as [[Hds _] Hval].
  split_and!; [done | | done].
  intros Hnil. rewrite Hnil in Hval. unfold from_digits in Hval. simpl in Hval. lia.
Qed.

(** [int(str(n)) == n] *)
Lemma int_of_str_str_of_int n : int_of_str (str_of_int n) = Ok n.
Proof.
  unfold str_of_int.
  destruct (Z.eqb_spec n 0) as [-> | Hne]; [reflexivity|].
  destruct (Z.ltb_spec n 0) as [Hneg | Hpos].
  - destruct (decimal_digits (- n) ltac:(lia)) as (Hds & Hnil & Hval).
    unfold int_of_str, strip. simpl lstrip.
    rewrite rstrip_cons by (reflexivity || by apply rstrip_string_of_digits).
    simpl. rewrite parse_digits_string_of_digits by auto.
    fold (from_digits 10 (digits 10 (- n))). rewrite Hval. simpl. f_equal. lia.
  - destruct (decimal_digits n ltac:(lia)) as (Hds & Hnil & Hval).
    destruct (digits 10 n) as [|d ds] eqn:Hdigits; [congruence|].
    pose proof Hds as Hds'. apply Forall_cons in Hds' as [Hd _].
    destruct (digit_char_facts d Hd) as (_ & Hsp & _ & Hminus & Hplus & _).
    unfold int_of_str, strip.
    assert (Hl : lstrip (string_of_digits (d :: ds)) = string_of_digits (d :: ds))
      by (simpl; by rewrite Hsp).
    rewrite Hl, rstrip_string_of_digits by done.
    change (string_of_digits (d :: ds)) with (String (digit_char d) (string_of_digits ds)).
    cbv iota. rewrite Hminus, Hplus.
    change (String (digit_char d) (string_of_digits ds)) with (string_of_digits (d :: ds)).
    rewrite parse_digits_string_of_digits by auto.
    fold (from_digits 10 (d :: ds)). by rewrite Hval.
Qed.

Lemma contains_str_of_int n : contains ":" (str_of_int n) = false.
Proof.
  unfold str_of_int.
  destruct (Z.eqb_spec n 0) as [-> | Hne]; [reflexivity|].
  destruct (Z.ltb_spec n 0) as [Hneg | Hpos].
  - destruct (decimal_digits (- n) ltac:(lia)) as (Hds & _ & _).
    simpl. by apply contains_string_of_digits.
  - destruct (decimal_digits n ltac:(lia)) as (Hds & _ & _).
    by apply contains_string_of_digits.
Qed.

(** ** Splitting *)

Lemma append_empty_r s : s +:+ "" = s.
Proof.
  induction s as [|c s IH]; [reflexivity|].
  change (String c (s +:+ "") = String c s). by rewrite IH.
Qed.

Lemma append_assoc s1 s2 s3 : (s1 +:+ s2) +:+ s3 = s1 +:+ (s2 +:+ s3).
Proof.
  induction s1 as [|c s1 IH]; [reflexivity|].
  change (String c ((s1 +:+ s2) +:+ s3) = String c (s1 +:+ (s2 +:+ s3))). by rewrite IH.
Qed.

Lemma concat_empty_cons s l : String.concat "" (s :: l) = s +:+ String.concat "" l.
Proof. destruct l; [symmetry; apply append_empty_r | reflexivity]. Qed.

Lemma drop_last_cons2 {A} (x y : A) l :
  l <> [] -> drop_last (x :: y :: l) = x :: y :: drop_last l.
Proof. intros Hl. unfold drop_last. simpl. by destruct l. Qed.


Lemma split_nonempty sep s : split sep s <> [].
Proof.
  destruct s as [|c s]; simpl; [discriminate|].
  destruct (Ascii.eqb c sep); [discriminate|]. by destruct (split sep s).
Qed.

Lemma split_app_sep sep w rest :
  contains sep w = false -> split sep (w +:+ String sep rest) = w :: split sep rest.
Proof.
  induction w as [|c w IH]; simpl.
  - intros _. by rewrite Ascii.eqb_refl.
  - intros Hc. apply orb_false_elim in Hc as [Hc Hw].
    rewrite Hc, (IH Hw). reflexivity.
Qed.


Lemma split_no_sep sep w : contains sep w = false -> split sep w = [w].
Proof.
  induction w as [|c w IH]; [reflexivity|]. simpl.
  intros H. apply orb_false_elim in H as [-> Hw]. by rewrite IH.
Qed.

(** ** Hexadecimal text *)

Lemma unhexlify_opt_hexlify_cons x rest :
  unhexlify_opt (hexlify (x :: rest)) = (tl ← unhexlify_opt (hexlify rest); Some (x :: tl)).
Proof. destruct x; reflexivity. Qed.

(** What [hexlify] writes, [unhexlify] reads back. *)
Lemma unhexlify_hexlify b : unhexlify (hexlify b) = Ok b.
Proof.
  unfold unhexlify. induction b as [|x b IH]; [reflexivity|].
  rewrite unhexlify_opt_hexlify_cons.
  destruct (unhexlify_opt (hexlify b)) as [tl|]; [|discriminate].
  simpl in *. congruence.
Qed.

End Py.

Export Py.
Local Open Scope coroutine_scope.

(* ===================================================================== *)
(** * LedgerRegistry (baseledger.py, lines 25-40)                          *)
(* ===================================================================== *)

Module Registry.

(** [str.lower()] on ASCII text. *)
Definition lower_char (c : ascii) : ascii :=
  let n := N_of_ascii c in
  if ((65 <=? n) && (n <=? 90))%N then ascii_of_N (n + 32) else c.

Fixpoint lower (s : string) : string :=
  match s with
  | EmptyString => EmptyString
  | String c rest => String (lower_char c) (lower rest)
  end.



(** What the metaclass sees of a class statement: the [name] and [bases]
    arguments of [__new__], and the values that the attribute lookups
    [cls.symbol] and [cls.network_name] find on the new class ([None] when the
    class and its bases define none: [BaseLedger] only annotates them). *)
Record LedgerClass : Type := {
  cls_name : string;
  cls_bases : list string;
  cls_symbol : option string;
  cls_network_name : option string
}.

#[global] Instance LedgerClass_eq_decision : EqDecision LedgerClass.
Proof. solve_decision. Defined.

(** [BaseLedger.get_id] (lines 95-97). *)
Definition get_id (cls : LedgerClass) : result string :=
  result_bind (of_option AttributeError (cls_symbol cls)) (fun symbol =>
  result_bind (of_option AttributeError (cls_network_name cls)) (fun network_name =>
  Ok (lower symbol +:+ "_" +:+ lower network_name))).

(** [name == 'BaseLedger' and not bases] *)
Definition is_base (cls : LedgerClass) : bool :=
  String.eqb (cls_name cls) "BaseLedger" &&
  match cls_bases cls with
  | [] => true
  | _ :: _ => false
  end.

(** [LedgerRegistry.__new__]; the state is the class attribute [ledgers]. *)
Definition new (cls : LedgerClass) : M (gmap string LedgerClass) LedgerClass :=
  (if negb (is_base cls) then
     let* ledger_id := lift (get_id cls) in
     let* ledgers := get in
     if bool_decide (ledger_id ∈ dom ledgers) then raise AssertionError
     else modify (fun ledgers => <[ledger_id := cls]> ledgers)
   else ret tt) ;;;
  ret cls.

(** [LedgerRegistry.get_ledger_class] *)
Definition get_ledger_class (ledger_id : string) : M (gmap string LedgerClass) LedgerClass :=
  let* ledgers := get in
  lift (of_option KeyError (ledgers !! ledger_id)).

(** The class statements of a program, executed in order while its modules
    are imported; the first exception aborts the import. *)
Fixpoint define_all (defs : list LedgerClass) : M (gmap string LedgerClass) unit :=
  match defs with
  | [] => ret tt
  | cls :: rest => new cls ;;; define_all rest
  end.

Lemma new_base cls ledgers :
  is_base cls = true -> new cls ledgers = (Return cls, ledgers).
Proof. intros Hb. unfold new. rewrite Hb. reflexivity. Qed.

Lemma new_collision cls ledgers ledger_id :
  is_base cls = false -> get_id cls = Ok ledger_id -> ledger_id ∈ dom ledgers ->
  new cls ledgers = (Raise AssertionError, ledgers).
Proof.
  intros Hb Hid Hin. unfold new, bind, lift, get. rewrite Hb, Hid. simpl.
  rewrite bool_decide_eq_true_2 by assumption. reflexivity.
Qed.

Lemma new_Return_inv cls ledgers c ledgers' :
  new cls ledgers = (Return c, ledgers') ->
  c = cls /\
  ((is_base cls = true /\ ledgers' = ledgers) \/
   (is_base cls = false /\
    exists ledger_id, get_id cls = Ok ledger_id /\ ledgers !! ledger_id = None /\
                      ledgers' = <[ledger_id := cls]> ledgers)).
Proof.
  unfold new, bind, lift, get, modify, ret, raise.
  destruct (is_base cls) eqn:Hb; simpl.
  - intros [= <- <-]. auto.
  - destruct (get_id cls) as [ledger_id|e] eqn:Hid; simpl; [|discriminate].
    case_bool_decide as Hin; [discriminate|].
    intros [= <- <-]. split; [reflexivity|]. right. split; [reflexivity|].
    exists ledger_id. split; [reflexivity|]. split; [|reflexivity].
    by apply not_elem_of_dom.
Qed.

Lemma define_all_cons_inv cls rest ledgers ledgers' :
  define_all (cls :: rest) ledgers = (Return tt, ledgers') ->
  exists mid, new cls ledgers = (Return cls, mid) /\ define_all rest mid = (Return tt, ledgers').
Proof.
  simpl. unfold bind at 1.
  destruct (new cls ledgers) as [[c|e|r] mid] eqn:Hnew; try discriminate.
  intros Hrest. exists mid. split; [|assumption].
  apply new_Return_inv in Hnew as Hc. destruct Hc as [-> _]. reflexivity.
Qed.

(** Invariant of a successful import, from any starting registry. *)
Lemma define_all_inv defs : forall ledgers ledgers',
  define_all defs ledgers = (Return tt, ledgers') ->
  ledgers ⊆ ledgers' /\
  (forall cls, cls ∈ defs -> is_base cls = false ->
     exists ledger_id, get_id cls = Ok ledger_id /\ ledgers' !! ledger_id = Some cls) /\
  (forall ledger_id cls, ledgers' !! ledger_id = Some cls ->
     ledgers !! ledger_id = Some cls \/
     (cls ∈ defs /\ is_base cls = false /\ get_id cls = Ok ledger_id)).
Proof.
  induction defs as [|d rest IH]; intros ledgers ledgers' Hrun.
  - simpl in Hrun. injection Hrun as <-. split; [reflexivity|].
    split; [intros cls Hin; by apply elem_of_nil in Hin | auto].
  - apply define_all_cons_inv in Hrun as (mid & Hnew & Hrest).
    apply IH in Hrest as (Hsub & Hdefs & Horigin).
    apply new_Return_inv in Hnew as [_ [[Hb ->] | (Hb & lid & Hid & Hfresh & ->)]].
    + split; [assumption|]. split.
      * intros cls Hin Hnb. apply elem_of_cons in Hin as [-> | Hin]; [congruence|].
        by apply Hdefs.
      * intros lid cls Hl. destruct (Horigin _ _ Hl) as [? | (? & ? & ?)]; [by left|].
        right. split; [by apply elem_of_cons; right|]. by split.
    + split; [|split].
      * etrans; [|exact Hsub]. by apply insert_subseteq.
      * intros cls Hin Hnb. apply elem_of_cons in Hin as [-> | Hin]; [|by apply Hdefs].
        exists lid. split; [assumption|].
        eapply lookup_weaken; [|exact Hsub]. apply lookup_insert_eq.
      * intros lid' cls Hl. destruct (Horigin _ _ Hl) as [Hmid | (? & ? & ?)].
        -- destruct (decide (lid = lid')) as [<- | Hne].
           ++ rewrite lookup_insert_eq in Hmid. injection Hmid as <-.
              right. split; [by apply elem_of_cons; left|]. by split.
           ++ rewrite lookup_insert_ne in Hmid by assumption. by left.
        -- right. split; [by apply elem_of_cons; right|]. by split.
Qed.

(** C9.  After the class statements of a program have all been executed
    (from the empty registry, without an exception): every variant other than
    the base class is retrievable by its id through [get_ledger_class]; every
    entry of the registry is such a variant, filed under its own id, so the
    base class [BaseLedger] is not in it; and defining one more variant whose
    id is already registered raises [AssertionError] and leaves the registry
    as it was, whereas defining the base class changes nothing. *)
Theorem registry_one_variant_per_id (defs : list LedgerClass) (ledgers : gmap string LedgerClass) :
  define_all defs ∅ = (Return tt, ledgers) ->
  (forall cls, cls ∈ defs -> is_base cls = false ->
     exists ledger_id, get_id cls = Ok ledger_id /\
       get_ledger_class ledger_id ledgers = (Return cls, ledgers)) /\
  (forall ledger_id cls, ledgers !! ledger_id = Some cls ->
     is_base cls = false /\ get_id cls = Ok ledger_id /\ cls ∈ defs) /\
  (forall cls ledger_id, is_base cls = false -> get_id cls = Ok ledger_id ->
     ledger_id ∈ dom ledgers -> new cls ledgers = (Raise AssertionError, ledgers)) /\
  (forall cls, is_base cls = true -> new cls ledgers = (Return cls, ledgers)).
Proof.
  intros Hrun. apply define_all_inv in Hrun as (_ & Hdefs & Horigin).
  split; [|split; [|split]].
  - intros cls Hin Hnb. destruct (Hdefs cls Hin Hnb) as (lid & Hid & Hl).
    exists lid. split; [assumption|].
    unfold get_ledger_class, bind, get. simpl. rewrite Hl. reflexivity.
  - intros lid cls Hl. destruct (Horigin _ _ Hl) as [Hempty | (? & ? & ?)]; [|auto].
    by rewrite lookup_empty in Hempty.
  - intros cls lid Hnb Hid Hin. by eapply new_collision.
  - intros cls Hb. by apply new_base.
Qed.

Lemma new_subseteq cls ledgers : ledgers ⊆ snd (new cls ledgers).
Proof.
  unfold new, bind, lift, get, modify, ret, raise.
  destruct (is_base cls); simpl; [reflexivity|].
  destruct (get_id cls) as [ledger_id|e]; simpl; [|reflexivity].
  case_bool_decide as Hin; simpl; [reflexivity|].
  by apply insert_subseteq, not_elem_of_dom.
Qed.

(** X1.  Registrations are permanent.  Whatever class statements are executed
    next, and whether they all succeed or one of them raises (a duplicate id,
    a variant without [symbol] or [network_name]), every id that was registered
    before still names the same class afterwards: [__new__] only ever adds an
    entry under an id that was free. *)
Theorem define_all_keeps_registered (defs : list LedgerClass)
    (ledgers : gmap string LedgerClass) :
  ledgers ⊆ snd (define_all defs ledgers).
Proof.
  revert ledgers. induction defs as [|cls rest IH]; intros ledgers; simpl; [reflexivity|].
  unfold bind. pose proof (new_subseteq cls ledgers) as Hnew.
  destruct (new cls ledgers) as [[c|e|r] mid]; simpl in Hnew; simpl; try exact Hnew.
  etrans; [exact Hnew | apply IH].
Qed.




Lemma lower_app s1 s2 : lower (s1 +:+ s2) = lower s1 +:+ lower s2.
Proof.
  induction s1 as [|c s1 IH]; [reflexivity|].
  change (lower (String c (s1 +:+ s2)) = String (lower_char c) (lower s1 +:+ lower s2)).
  simpl. by rewrite IH.
Qed.


Definition BaseLedger : LedgerClass :=
  {| cls_name := "BaseLedger"; cls_bases := [];
     cls_symbol := None; cls_network_name := None |}.

Definition MainNetLedger : LedgerClass :=
  {| cls_name := "MainNetLedger"; cls_bases := ["BaseLedger"];
     cls_symbol := Some "BTC"; cls_network_name := Some "mainnet" |}.

Definition RegTestLedger : LedgerClass :=
  {| cls_name := "RegTestLedger"; cls_bases := ["MainNetLedger"];
     cls_symbol := Some "BTC"; cls_network_name := Some "regtest" |}.

Definition two_variants : gmap string LedgerClass :=
  <["btc_regtest" := RegTestLedger]> (<["btc_mainnet" := MainNetLedger]> ∅).

(** C9 at three class statements: the base class, a variant and a variant
    derived from it. *)
Lemma registry_one_variant_per_id_witness :
  define_all [BaseLedger; MainNetLedger; RegTestLedger] ∅ = (Return tt, two_variants) /\
  get_ledger_class "btc_mainnet" two_variants = (Return MainNetLedger, two_variants) /\
  new MainNetLedger two_variants = (Raise AssertionError, two_variants).
Proof.
  assert (Hrun : define_all [BaseLedger; MainNetLedger; RegTestLedger] ∅
                 = (Return tt, two_variants)) by (vm_compute; reflexivity).
  split; [exact Hrun|].
  destruct (registry_one_variant_per_id _ _ Hrun) as (Hget & _ & Hdup & _).
  split.
  - destruct (Hget MainNetLedger) as (lid & Hid & Hl).
    + apply elem_of_cons; right; apply elem_of_cons; by left.
    + reflexivity.
    + vm_compute in Hid. injection Hid as <-. exact Hl.
  - apply (Hdup MainNetLedger "btc_mainnet"); [reflexivity | reflexivity |].
    apply elem_of_dom. exists MainNetLedger. reflexivity.
Defined.



End Registry.

(* ===================================================================== *)
(** * Merkle verifier (baseledger.py, lines 198-208)                       *)
(* ===================================================================== *)

Module Merkle.

Section WithHash.

(** [torba.hash.double_sha256] *)
Variable double_sha256 : bytes -> bytes.

(** The body of [for i, branch in enumerate(branches)], over the pairs that
    [enumerate] yields. *)
Fixpoint merkle_loop (items : list (nat * string)) (branch_positions : Z)
    (working_branch : bytes) : result bytes :=
  match items with
  | [] => Ok working_branch
  | (i, branch) :: rest =>
      result_bind (unhexlify branch) (fun raw =>
      let other_branch := rev raw in
      let other_branch_on_left :=
        truthy (Z.land (Z.shiftr branch_positions (Z.of_nat i)) 1) in
      let combined :=
        if other_branch_on_left then other_branch ++ working_branch
        else working_branch ++ other_branch in
      merkle_loop rest branch_positions (double_sha256 combined))
  end.

Definition get_root_of_merkle_tree (branches : list string) (branch_positions : Z)
    (working_branch : bytes) : result string :=
  result_bind (merkle_loop (enumerate branches) branch_positions working_branch)
    (fun working_branch => Ok (hexlify (rev working_branch))).

(** The fold as the specification words it: the sibling in internal byte
    order goes to the left of the working hash when bit [i] of the mask is
    set, to the right otherwise, and the pair is hashed. *)
Definition fold_step (branch_positions : Z) (i : nat) (working : bytes)
    (branch : string) : result bytes :=
  result_bind (unhexlify branch) (fun raw =>
  let sibling := rev raw in
  Ok (double_sha256 (if Z.testbit branch_positions (Z.of_nat i)
                     then sibling ++ working else working ++ sibling))).

Fixpoint fold_branches (branch_positions : Z) (i : nat) (branches : list string)
    (working : bytes) : result bytes :=
  match branches with
  | [] => Ok working
  | branch :: rest =>
      result_bind (fold_step branch_positions i working branch)
        (fold_branches branch_positions (S i) rest)
  end.

Definition merkle_root_spec (branches : list string) (branch_positions : Z)
    (working_branch : bytes) : result string :=
  result_map (fun working => hexlify (rev working))
    (fold_branches branch_positions 0 branches working_branch).

Lemma position_bit (branch_positions : Z) (i : nat) :
  truthy (Z.land (Z.shiftr branch_positions (Z.of_nat i)) 1)
  = Z.testbit branch_positions (Z.of_nat i).
Proof.
  unfold truthy.
  change 1 with (Z.ones 1). rewrite Z.land_ones by lia.
  change (2 ^ 1) with 2. rewrite <- Z.bit0_mod.
  rewrite Z.shiftr_spec by lia. rewrite Z.add_0_l.
  destruct (Z.testbit branch_positions (Z.of_nat i)); reflexivity.
Qed.

Lemma merkle_loop_fold branches : forall branch_positions start working_branch,
  merkle_loop (enumerate_from start branches) branch_positions working_branch
  = fold_branches branch_positions start branches working_branch.
Proof.
  induction branches as [|branch rest IH]; intros branch_positions start working_branch; simpl.
  - reflexivity.
  - unfold fold_step. destruct (unhexlify branch) as [raw|e]; simpl; [|reflexivity].
    rewrite position_bit. apply IH.
Qed.

(** C2.  [get_root_of_merkle_tree] is the in-order fold of the
    specification: each branch is unhexlified and byte-reversed, joined on
    the left of the working hash when bit [i] of [branch_positions] is 1 and
    on the right otherwise, the working hash becomes the double SHA-256 of the
    join, and the result is the last working hash byte-reversed and
    hex-encoded (an undecodable branch raises in both). *)
Theorem get_root_of_merkle_tree_is_fold (branches : list string) (branch_positions : Z)
    (working_branch : bytes) :
  get_root_of_merkle_tree branches branch_positions working_branch
  = merkle_root_spec branches branch_positions working_branch.
Proof.
  unfold get_root_of_merkle_tree, merkle_root_spec, result_map, enumerate.
  rewrite merkle_loop_fold. reflexivity.
Qed.

(** The fold consumes the branches in order: a tree that is one level
    higher applies one more step, at the next bit, to the root of the lower
    tree's fold. *)
Lemma fold_branches_snoc branches : forall branch_positions i branch working,
  fold_branches branch_positions i (branches ++ [branch]) working
  = result_bind (fold_branches branch_positions i branches working)
      (fun w => fold_step branch_positions (i + length branches) w branch).
Proof.
  induction branches as [|b rest IH]; intros branch_positions i branch working; simpl.
  - rewrite Nat.add_0_r. destruct (fold_step branch_positions i working branch); reflexivity.
  - destruct (fold_step branch_positions i working b) as [w|e]; simpl; [|reflexivity].
    rewrite IH. replace (S i + length rest)%nat with (i + S (length rest))%nat by lia.
    reflexivity.
Qed.

Lemma enumerate_from_index {A} (l : list A) : forall start i x,
  (i, x) ∈ enumerate_from start l -> (start <= i < start + length l)%nat.
Proof.
  induction l as [|y l IH]; intros start i x Hin; simpl in Hin.
  - by apply elem_of_nil in Hin.
  - apply elem_of_cons in Hin as [[= -> ->] | Hin]; simpl; [lia|].
    apply IH in Hin. lia.
Qed.

Lemma merkle_loop_agree items : forall p q working_branch,
  (forall i branch, (i, branch) ∈ items ->
     Z.testbit p (Z.of_nat i) = Z.testbit q (Z.of_nat i)) ->
  merkle_loop items p working_branch = merkle_loop items q working_branch.
Proof.
  induction items as [|[i branch] rest IH]; intros p q working_branch Hbits; [reflexivity|].
  simpl. destruct (unhexlify branch) as [raw|e]; simpl; [|reflexivity].
  rewrite !position_bit, (Hbits i branch) by apply list_elem_of_here.
  apply IH. intros j b Hin. apply (Hbits j b). by apply list_elem_of_further.
Qed.

(** X3.  Of [branch_positions] only the lowest [len(branches)] bits are read: two
    position masks that agree modulo [2 ** len(branches)] give the same root
    (or the same error), so the bits above the height of the tree can take
    any value without changing the outcome of a verification. *)
Theorem get_root_of_merkle_tree_low_bits (branches : list string) (p q : Z)
    (working_branch : bytes) :
  p mod 2 ^ Z.of_nat (length branches) = q mod 2 ^ Z.of_nat (length branches) ->
  get_root_of_merkle_tree branches p working_branch
  = get_root_of_merkle_tree branches q working_branch.
Proof.
  intros Hmod. unfold get_root_of_merkle_tree, enumerate.
  rewrite (merkle_loop_agree _ p q); [reflexivity|].
  intros i branch Hin. apply enumerate_from_index in Hin.
  rewrite <- (Z.mod_pow2_bits_low p (Z.of_nat (length branches))) by lia.
  rewrite <- (Z.mod_pow2_bits_low q (Z.of_nat (length branches))) by lia.
  by rewrite Hmod.
Qed.

End WithHash.

(** With no branch the root is the leaf itself, in display order; with one
    branch the mask's lowest bit picks the side. *)
Example merkle_no_branch :
  get_root_of_merkle_tree (fun b => b) [] 5 [x01; x02] = Ok "0201".
Proof. reflexivity. Qed.

Example merkle_one_branch_left_right :
  get_root_of_merkle_tree (fun b => b) ["aabb"] 1 [x01; x02] = Ok "0201aabb" /\
  get_root_of_merkle_tree (fun b => b) ["aabb"] 0 [x01; x02] = Ok "aabb0201" /\
  get_root_of_merkle_tree (fun b => b) ["aabb"; "cc"] 2 [x01] = Ok "aabb01cc" /\
  get_root_of_merkle_tree (fun b => b) ["aabb"; "c"] 2 [x01] = Err BinasciiError.
Proof. vm_compute. auto. Qed.

(** Masks 2 and 6 on a tree of height 2, negative masks included. *)
Lemma get_root_of_merkle_tree_low_bits_witness :
  get_root_of_merkle_tree (fun b => b) ["aabb"; "cc"] 2 [x01]
  = get_root_of_merkle_tree (fun b => b) ["aabb"; "cc"] 6 [x01] /\
  get_root_of_merkle_tree (fun b => b) ["aabb"; "cc"] 2 [x01]
  = get_root_of_merkle_tree (fun b => b) ["aabb"; "cc"] (-2) [x01].
Proof.
  split.
  - apply (get_root_of_merkle_tree_low_bits (fun b => b) ["aabb"; "cc"] 2 6 [x01]).
    reflexivity.
  - apply (get_root_of_merkle_tree_low_bits (fun b => b) ["aabb"; "cc"] 2 (-2) [x01]).
    reflexivity.
Defined.

End Merkle.

(* ===================================================================== *)
(** * Address codec (baseledger.py, lines 99-106)                          *)
(* ===================================================================== *)

Module Base58.

(** Modelled from the spec: the [Base58] class of [torba.hash] is not part of
    the ledger module; this is the Base58 encoding of big-endian byte strings
    that the specification names (section 4.1), with one ['1'] per leading
    zero byte. *)
Definition chars : list ascii :=
  list_ascii_of_string "123456789ABCDEFGHJKLMNPQRSTUVWXYZabcdefghijkmnopqrstuvwxyz".

Definition char_of (d : Z) : ascii := nth (Z.to_nat d) chars "1"%char.

Fixpoint index_of (c : ascii) (l : list ascii) (i : Z) : option Z :=
  match l with
  | [] => None
  | x :: rest => if Ascii.eqb x c then Some i else index_of c rest (i + 1)
  end.

Definition char_value (c : ascii) : result Z :=
  of_option Base58Error (index_of c chars 0).

Definition byte_value (x : byte) : Z := Z.of_N (Byte.to_N x).

Definition byte_of_value (d : Z) : byte := byte_of_N (Z.to_N d).

Definition bytes_to_int (b : bytes) : Z := from_digits 256 (map byte_value b).

Definition int_to_bytes (v : Z) : bytes := map byte_of_value (digits 256 v).

(** Number of leading elements that satisfy [p]. *)
Fixpoint count_leading {A} (p : A -> bool) (l : list A) : nat :=
  match l with
  | x :: rest => if p x then S (count_leading p rest) else O
  | [] => O
  end.

Definition is_zero_byte (x : byte) : bool := bool_decide (x = x00).

Definition encode (be_bytes : bytes) : string :=
  let value := bytes_to_int be_bytes in
  string_of_list_ascii
    (repeat "1"%char (count_leading is_zero_byte be_bytes) ++ map char_of (digits 58 value)).

Definition decode (txt : string) : result bytes :=
  match list_ascii_of_string txt with
  | [] => Err Base58Error
  | cs =>
      result_bind (map_result char_value cs) (fun values =>
      let value := from_digits 58 values in
      Ok (repeat x00 (count_leading (Ascii.eqb "1") cs) ++ int_to_bytes value))
  end.

Example encode_example :
  encode [x00; x00; x01; x00] = "115R" /\ decode "115R" = Ok [x00; x00; x01; x00].
Proof. vm_compute. auto. Qed.

(** Two of the usual test vectors of the encoding. *)
Example encode_test_vectors :
  encode [x48; x65; x6c; x6c; x6f; x20; x57; x6f; x72; x6c; x64; x21] = "2NEpo7TZRRrLZSi2U" /\
  encode [x00; x00; x28; x7f; xb4; xcd] = "11233QC4" /\
  decode "0" = Err Base58Error.
Proof. vm_compute. auto. Qed.

Lemma char_table d :
  0 <= d < 58 -> char_value (char_of d) = Ok d /\ (char_of d = "1"%char -> d = 0).
Proof.
  intros Hd.
  assert (Hall : forallb (fun n => let d := Z.of_nat n in
            match char_value (char_of d) with Ok d' => d' =? d | Err _ => false end &&
            (negb (Ascii.eqb (char_of d) "1") || (d =? 0))) (seq 0 58) = true)
    by (vm_compute; reflexivity).
  rewrite forallb_forall in Hall. specialize (Hall (Z.to_nat d)).
  rewrite Z2Nat.id in Hall by lia. cbv zeta in Hall.
  apply andb_prop in Hall as [H1 H2]; [|apply in_seq; lia].
  split.
  - destruct (char_value (char_of d)) as [d'|]; [|discriminate]. f_equal. lia.
  - intros Heq. rewrite Heq in H2. simpl in H2. lia.
Qed.

Lemma byte_value_range x : 0 <= byte_value x < 256.
Proof. unfold byte_value. pose proof (Byte.to_N_bounded x). lia. Qed.

Lemma byte_of_value_byte_value x : byte_of_value (byte_value x) = x.
Proof.
  unfold byte_of_value, byte_value, byte_of_N. rewrite N2Z.id, Byte.of_to_N. reflexivity.
Qed.

Lemma byte_value_zero x : byte_value x = 0 -> x = x00.
Proof.
  intros H. rewrite <- (byte_of_value_byte_value x), H. reflexivity.
Qed.

Lemma map_result_app {A B} (f : A -> result B) l1 l2 r1 r2 :
  map_result f l1 = Ok r1 -> map_result f l2 = Ok r2 ->
  map_result f (l1 ++ l2) = Ok (r1 ++ r2).
Proof.
  revert r1. induction l1 as [|x l1 IH]; intros r1; simpl.
  - intros [= <-]. auto.
  - destruct (f x) as [y|]; simpl; [|discriminate].
    destruct (map_result f l1) as [ys|]; simpl; [|discriminate].
    intros [= <-] H2. rewrite (IH ys eq_refl H2). reflexivity.
Qed.

Lemma map_result_ones k : map_result char_value (repeat "1"%char k) = Ok (repeat 0 k).
Proof. induction k as [|k IH]; simpl; [reflexivity|]. rewrite IH. reflexivity. Qed.

Lemma map_result_chars ds :
  Forall (fun d => 0 <= d < 58) ds -> map_result char_value (map char_of ds) = Ok ds.
Proof.
  induction 1 as [|d ds Hd _ IH]; simpl; [reflexivity|].
  destruct (char_table d Hd) as [-> _]. simpl. rewrite IH. reflexivity.
Qed.

Lemma from_digits_leading_zeros base k ds :
  from_digits base (repeat 0 k ++ ds) = from_digits base ds.
Proof.
  unfold from_digits. rewrite fold_left_app. f_equal.
  induction k as [|k IH]; simpl; [reflexivity|]. exact IH.
Qed.

#[local] Arguments Ascii.eqb : simpl never.

Lemma count_leading_ones k ds :
  canonical 58 ds ->
  count_leading (Ascii.eqb "1") (repeat "1"%char k ++ map char_of ds) = k.
Proof.
  intros [Hds Hhead]. induction k as [|k IH]; simpl; [|by rewrite IH].
  destruct ds as [|d ds]; simpl; [reflexivity|].
  apply Forall_cons in Hds as [Hd _].
  destruct (Ascii.eqb_spec "1" (char_of d)) as [Heq | _]; [|reflexivity].
  destruct (char_table d Hd) as [_ Hone]. specialize (Hone (eq_sym Heq)).
  by destruct (Hhead d ds eq_refl).
Qed.

Lemma byte_values_in_range b : Forall (fun d => 0 <= d < 256) (map byte_value b).
Proof.
  induction b as [|x b IH]; simpl; constructor; [apply byte_value_range | exact IH].
Qed.

(** A byte string is its leading zero bytes followed by a canonical
    base-256 numeral. *)
Lemma leading_zero_bytes b :
  b = repeat x00 (count_leading is_zero_byte b) ++ skipn (count_leading is_zero_byte b) b /\
  canonical 256 (map byte_value (skipn (count_leading is_zero_byte b) b)).
Proof.
  induction b as [|x b [IH1 IH2]]; simpl.
  - split; [reflexivity|]. split; [constructor | congruence].
  - destruct (is_zero_byte x) eqn:Hx; simpl.
    + apply bool_decide_eq_true in Hx. subst x. split; [by f_equal | assumption].
    + apply bool_decide_eq_false in Hx.
      split; [reflexivity|]. split.
      * apply (byte_values_in_range (x :: b)).
      * intros d rest [= <- _] Hzero. by apply Hx, byte_value_zero.
Qed.

Lemma bytes_to_int_nonneg b : 0 <= bytes_to_int b.
Proof. apply (from_digits_nonneg 256); [lia | apply byte_values_in_range]. Qed.

(** Decoding undoes encoding on every non-empty byte string. *)
Lemma decode_encode b : b <> [] -> decode (encode b) = Ok b.
Proof.
  intros Hne. unfold decode, encode.
  rewrite list_ascii_of_string_of_list_ascii.
  set (k := count_leading is_zero_byte b).
  destruct (leading_zero_bytes b) as [Hsplit Hcan]. fold k in Hsplit, Hcan.
  set (tail := skipn k b) in *.
  assert (Hval : bytes_to_int b = from_digits 256 (map byte_value tail)).
  { unfold bytes_to_int. rewrite Hsplit at 1. rewrite map_app, map_repeat.
    change (byte_value x00) with 0. apply from_digits_leading_zeros. }
  destruct (digits_sound 58 ltac:(lia) (bytes_to_int b) (bytes_to_int_nonneg b))
    as [Hcan58 Hval58].
  set (ds := digits 58 (bytes_to_int b)) in *.
  assert (Hparse : map_result char_value (repeat "1"%char k ++ map char_of ds)
                   = Ok (repeat 0 k ++ ds)).
  { apply map_result_app; [apply map_result_ones | apply map_result_chars, Hcan58]. }
  destruct (repeat "1"%char k ++ map char_of ds) as [|c cs] eqn:Htxt.
  - apply app_eq_nil in Htxt as [Hk Hds].
    destruct k; [|discriminate]. apply map_eq_nil in Hds.
    rewrite Hds in Hval58. unfold from_digits in Hval58. simpl in Hval58.
    rewrite Hval in Hval58.
    destruct tail as [|x tail']; [simpl in Hsplit; congruence|].
    pose proof (from_digits_pos 256 ltac:(lia) _ Hcan ltac:(discriminate)). lia.
  - rewrite Hparse. cbn [result_bind]. rewrite <- Htxt.
    rewrite count_leading_ones by assumption.
    rewrite from_digits_leading_zeros, Hval58, Hval.
    unfold int_to_bytes. rewrite (digits_from_digits 256) by (lia || assumption).
    rewrite map_map, (map_ext _ id), map_id by apply byte_of_value_byte_value.
    by rewrite <- Hsplit.
Qed.

End Base58.

Module Codec.

Section WithLedger.

(** [torba.hash.double_sha256], [torba.hash.Base58], and the class
    attribute [pubkey_address_prefix] of the ledger variant. *)
Variable double_sha256 : bytes -> bytes.
Variable Base58_encode : bytes -> string.
Variable Base58_decode : string -> result bytes.
Variable pubkey_address_prefix : bytes.

(** [torba.hash.hash160] *)
Variable hash160 : bytes -> bytes.

(** [BaseLedger.hash160_to_address] *)
Definition hash160_to_address (h160 : bytes) : string :=
  let raw_address := pubkey_address_prefix ++ h160 in
  Base58_encode (raw_address ++ slice 0 4 (double_sha256 raw_address)).

(** [BaseLedger.address_to_hash160] *)
Definition address_to_hash160 (address : string) : result bytes :=
  result_map (slice 1 21) (Base58_decode address).

(** [BaseLedger.public_key_to_address] (lines 108-110) *)
Definition public_key_to_address (public_key : bytes) : string :=
  hash160_to_address (hash160 public_key).

(** [BaseLedger.private_key_to_wif] (lines 112-114) *)
Definition private_key_to_wif (private_key : bytes) : bytes :=
  [x1c] ++ private_key ++ [x01].

(** A well-formed address of the ledger: the Base58 encoding of the prefix,
    a 20-byte hash and the first four bytes of the double SHA-256 of both. *)
Definition well_formed (address : string) : Prop :=
  exists h160 : bytes,
    length h160 = 20%nat /\
    address = Base58_encode ((pubkey_address_prefix ++ h160)
                ++ slice 0 4 (double_sha256 (pubkey_address_prefix ++ h160))).

(** X4.  The private key is read back from its WIF bytes by dropping the first
    and the last byte ([wif[1:-1]]), so [private_key_to_wif] is one-to-one; the
    WIF is two bytes longer than the key. *)
Theorem private_key_to_wif_round_trip (private_key : bytes) :
  drop_last (tl (private_key_to_wif private_key)) = private_key /\
  length (private_key_to_wif private_key) = (length private_key + 2)%nat /\
  (forall other, private_key_to_wif other = private_key_to_wif private_key ->
     other = private_key).
Proof.
  assert (Hback : forall k, drop_last (tl (private_key_to_wif k)) = k).
  { intros k. unfold private_key_to_wif, drop_last. simpl.
    rewrite removelast_app by discriminate. simpl. apply app_nil_r. }
  split_and!.
  - apply Hback.
  - unfold private_key_to_wif. simpl. rewrite length_app. simpl. lia.
  - intros other Heq. rewrite <- (Hback other), Heq. apply Hback.
Qed.

Hypothesis decode_encode : forall b, b <> [] -> Base58_decode (Base58_encode b) = Ok b.
Hypothesis one_byte_prefix : length pubkey_address_prefix = 1%nat.

Lemma address_to_hash160_of_hash160 (h160 : bytes) :
  length h160 = 20%nat -> address_to_hash160 (hash160_to_address h160) = Ok h160.
Proof.
  intros Hlen. unfold address_to_hash160, hash160_to_address, result_map.
  rewrite decode_encode.
  - simpl. f_equal. unfold slice.
    destruct pubkey_address_prefix as [|p [|? ?]]; try discriminate.
    simpl. rewrite drop_0. apply take_app_length'. by rewrite Hlen.
  - destruct pubkey_address_prefix; discriminate.
Qed.

(** C8.  For a ledger with a one-byte [pubkey_address_prefix], every
    well-formed address of that prefix is recovered from its hash160:
    [hash160_to_address(address_to_hash160(a)) = a]. *)
Theorem address_round_trip (a : string) :
  well_formed a -> result_map hash160_to_address (address_to_hash160 a) = Ok a.
Proof.
  intros (h160 & Hlen & ->).
  change (Base58_encode _) with (hash160_to_address h160).
  rewrite address_to_hash160_of_hash160 by assumption. reflexivity.
Qed.

(** X5.  [address_to_hash160] validates nothing.  Whatever the version byte in
    front of a 20-byte hash and whatever follows it (a right checksum, a wrong
    one, none at all), the Base58 text of these bytes is accepted and the hash
    is returned: neither the prefix of the ledger nor the checksum is
    compared. *)
Theorem address_to_hash160_unchecked (version h160 trailer : bytes) :
  length version = 1%nat -> length h160 = 20%nat ->
  address_to_hash160 (Base58_encode (version ++ h160 ++ trailer)) = Ok h160.
Proof.
  intros Hversion Hlen. unfold address_to_hash160, result_map.
  rewrite decode_encode by (destruct version; discriminate).
  simpl. f_equal. unfold slice.
  destruct version as [|v [|? ?]]; try discriminate.
  simpl. rewrite drop_0. apply take_app_length'. by rewrite Hlen.
Qed.

(** X6.  The address of a public key carries the key's hash160 and nothing else
    of the key: it decodes to that hash, and two public keys have the same
    address exactly when their hash160 is the same. *)
Theorem public_key_to_address_hash160 (public_key1 public_key2 : bytes) :
  length (hash160 public_key1) = 20%nat -> length (hash160 public_key2) = 20%nat ->
  address_to_hash160 (public_key_to_address public_key1) = Ok (hash160 public_key1) /\
  (public_key_to_address public_key1 = public_key_to_address public_key2
   <-> hash160 public_key1 = hash160 public_key2).
Proof.
  intros Hlen1 Hlen2. unfold public_key_to_address.
  split; [by apply address_to_hash160_of_hash160|]. split.
  - intros Heq.
    pose proof (address_to_hash160_of_hash160 _ Hlen1) as H1.
    pose proof (address_to_hash160_of_hash160 _ Hlen2) as H2.
    rewrite Heq in H1. congruence.
  - by intros ->.
Qed.

End WithLedger.

(** The all-zero hash under prefix [0x00], with a stand-in for the hash
    function that repeats the first byte of its input. *)
Definition sample_hash (b : bytes) : bytes := repeat (hd x00 b) 32.

Definition sample_address : string :=
  hash160_to_address sample_hash Base58.encode [x00] (repeat x07 20).

(** C8 at [sample_address], with the Base58 codec of [Base58]. *)
Lemma address_round_trip_witness :
  well_formed sample_hash Base58.encode [x00] sample_address /\
  result_map (hash160_to_address sample_hash Base58.encode [x00])
    (address_to_hash160 Base58.decode sample_address) = Ok sample_address.
Proof.
  assert (Hwf : well_formed sample_hash Base58.encode [x00] sample_address)
    by (exists (repeat x07 20); split; reflexivity).
  split; [exact Hwf|].
  exact (address_round_trip sample_hash Base58.encode Base58.decode [x00]
           Base58.decode_encode eq_refl sample_address Hwf).
Defined.

(** A script-style version byte and two bytes that are no checksum. *)
Lemma address_to_hash160_unchecked_witness :
  address_to_hash160 Base58.decode (Base58.encode ([x05] ++ repeat x07 20 ++ [xde; xad]))
  = Ok (repeat x07 20).
Proof.
  apply (address_to_hash160_unchecked Base58.encode Base58.decode Base58.decode_encode
           [x05] (repeat x07 20) [xde; xad]); reflexivity.
Defined.

(** A stand-in for [hash160] that looks at the first byte of the key only:
    two keys with the same first byte share their address. *)
Definition sample_hash160 (public_key : bytes) : bytes := repeat (hd x00 public_key) 20.

Lemma public_key_to_address_hash160_witness :
  address_to_hash160 Base58.decode
    (public_key_to_address sample_hash Base58.encode [x00] sample_hash160 [x02; x11])
  = Ok (repeat x02 20) /\
  public_key_to_address sample_hash Base58.encode [x00] sample_hash160 [x02; x11]
  = public_key_to_address sample_hash Base58.encode [x00] sample_hash160 [x02; x22].
Proof.
  destruct (public_key_to_address_hash160 sample_hash Base58.encode Base58.decode [x00]
              sample_hash160 Base58.decode_encode eq_refl [x02; x11] [x02; x22]
              eq_refl eq_refl) as [Hback Hsame].
  split; [exact Hback | by apply Hsame].
Defined.

End Codec.

(* ===================================================================== *)
(** * History synchronizer (baseledger.py, lines 191-216 and 287-341)      *)
(* ===================================================================== *)

Module Sync.

(** What the ledger uses of a decoded transaction: [tx.id] (hex, display
    order), [tx.hash] (bytes, internal order) and [tx.raw]. *)
Record Transaction : Type := {
  tx_id : string;
  tx_hash : bytes;
  tx_raw : bytes
}.

(** A header as the ledger reads it: [header['merkle_root']]. *)
Record Header : Type := { merkle_root : string }.

(** A row of the [tx] table. *)
Record TransactionRecord : Type := {
  rec_raw : bytes;
  rec_height : Z;
  rec_is_verified : Z
}.

Inductive save_mode : Type := Insert | Update.

(** The [TransactionEvent] named tuple (line 43). *)
Record TransactionEvent : Type := {
  ev_address : string;
  ev_tx : Transaction;
  ev_height : Z;
  ev_is_verified : Z
}.

(** The calls a run makes to its collaborators, in order: requests to the
    network, writes to the database, publications on [on_transaction]. *)
Inductive call : Type :=
| GetHistory (address : string)
| GetTransaction (txid : string)
| GetMerkle (txid : string) (height : Z)
| SaveTransactionIO (save_tx : option save_mode) (tx : Transaction) (height : Z)
    (is_verified : Z) (address : string) (hash160 : bytes) (history : string)
| OnTransaction (e : TransactionEvent).

(** The state of the ledger object and of its database and header store.
    [db_history] is the [history] column by address ([None]: SQL NULL);
    [transaction_processing_locks] holds the txids whose lock is taken. *)
Record Ledger : Type := {
  db_tx : gmap string TransactionRecord;
  db_history : gmap string (option string);
  headers : list Header;
  transaction_processing_locks : gset string;
  calls : list call
}.

Definition set_db (txs : gmap string TransactionRecord)
    (hist : gmap string (option string)) (l : Ledger) : Ledger :=
  {| db_tx := txs; db_history := hist; headers := headers l;
     transaction_processing_locks := transaction_processing_locks l;
     calls := calls l |}.

Definition set_locks (locks : gset string) (l : Ledger) : Ledger :=
  {| db_tx := db_tx l; db_history := db_history l; headers := headers l;
     transaction_processing_locks := locks; calls := calls l |}.

Definition add_call (c : call) (l : Ledger) : Ledger :=
  {| db_tx := db_tx l; db_history := db_history l; headers := headers l;
     transaction_processing_locks := transaction_processing_locks l;
     calls := calls l ++ [c] |}.

Section WithCollaborators.

(** The network adapter's answers, the transaction decoder
    ([transaction_class(raw)]), and the hash and Base58 functions of
    [torba.hash]. *)
Variable get_history : string -> result (list (string * Z)).
Variable get_transaction : string -> result string.
Variable get_merkle : string -> Z -> result (list string * Z).
Variable transaction_class : bytes -> result Transaction.
Variable double_sha256 : bytes -> bytes.
Variable Base58_decode : string -> result bytes.

(** The database adapter may refuse a save.  [save_failure cs] is the
    exception, if any, that [db.save_transaction_io] raises when it is the
    last of the calls [cs] made so far: the verdict may depend on the call
    and on everything that happened before it. *)
Variable save_failure : list call -> option exn.

Definition network_get_history (address : string) : M Ledger (list (string * Z)) :=
  modify (add_call (GetHistory address)) ;;; lift (get_history address).

Definition network_get_transaction (txid : string) : M Ledger string :=
  modify (add_call (GetTransaction txid)) ;;; lift (get_transaction txid).

Definition network_get_merkle (txid : string) (height : Z) : M Ledger (list string * Z) :=
  modify (add_call (GetMerkle txid height)) ;;; lift (get_merkle txid height).

(** Modelled from the spec: [db.get_transaction(txid)] of the database
    adapter (not under src/) returns the row's raw bytes and [is_verified], or
    [None] and a false [is_verified] when there is no row. *)
Definition db_get_transaction (txid : string) : M Ledger (option bytes * Z) :=
  gets (fun l =>
    match db_tx l !! txid with
    | Some r => (Some (rec_raw r), rec_is_verified r)
    | None => (None, 0)
    end).

(** Modelled from the spec: [db.get_address(address)] returns the address
    row, or [None] for an unknown address. *)
Definition db_get_address (address : string) : M Ledger (option (option string)) :=
  gets (fun l => db_history l !! address).

(** Modelled from the spec: what a save that goes through writes.  The
    transaction row is inserted or updated as [save_tx] says (left alone for
    [None]) and the address's history column is rewritten. *)
Definition write_transaction_io (save_tx : option save_mode) (tx : Transaction)
    (height is_verified : Z) (address : string) (history : string) (l : Ledger) : Ledger :=
  let row := {| rec_raw := tx_raw tx; rec_height := height;
                rec_is_verified := is_verified |} in
  let txs :=
    match save_tx with
    | Some Insert => <[tx_id tx := row]> (db_tx l)
    | Some Update =>
        alter (fun r => {| rec_raw := rec_raw r; rec_height := height;
                           rec_is_verified := is_verified |}) (tx_id tx) (db_tx l)
    | None => db_tx l
    end in
  set_db txs (<[address := Some history]> (db_history l)) l.

(** Modelled from the spec: [db.save_transaction_io] either goes through,
    or raises (the spec's database failure) and has then written nothing. *)
Definition db_save_transaction_io (save_tx : option save_mode) (tx : Transaction)
    (height is_verified : Z) (address : string) (hash160 : bytes) (history : string)
    : M Ledger unit :=
  modify (add_call (SaveTransactionIO save_tx tx height is_verified address hash160 history)) ;;;
  let* cs := gets calls in
  match save_failure cs with
  | Some x => raise x
  | None => modify (write_transaction_io save_tx tx height is_verified address history)
  end.

(** Modelled from the spec: [self.headers[height]] of the header store;
    heights are the dense range from 0 to [len(headers) - 1]. *)
Definition headers_getitem (height : Z) : M Ledger Header :=
  let* hs := gets headers in
  if (0 <=? height) && (height <? Z.of_nat (length hs)) then
    lift (of_option IndexError (hs !! Z.to_nat height))
  else raise IndexError.

(** [self._on_transaction_controller.add(event)] *)
Definition on_transaction_add (e : TransactionEvent) : M Ledger unit :=
  modify (add_call (OnTransaction e)).

(** [lock = locks.setdefault(hex_id, DeferredLock()); yield lock.acquire()].
    A lock that another coroutine holds suspends the caller. *)
Definition lock_acquire (hex_id : string) : M Ledger unit :=
  let* l := get in
  if bool_decide (hex_id ∈ transaction_processing_locks l) then stuck WaitingForLock
  else modify (set_locks ({[hex_id]} ∪ transaction_processing_locks l)).

(** [lock.release()] and the removal of the unlocked lock from the table
    (lines 339-341). *)
Definition lock_release (hex_id : string) : M Ledger unit :=
  modify (fun l => set_locks (transaction_processing_locks l ∖ {[hex_id]}) l).

(** [BaseLedger.get_local_history] *)
Definition get_local_history (address : string) : M Ledger (list (string * Z)) :=
  let* address_details := db_get_address address in
  match address_details with
  | None => raise TypeError
  | Some column =>
      let history := default "" column in
      let parts := drop_last (split ":" history) in
      let* heights := lift (map_result int_of_str (stride2 (tl parts))) in
      ret (zip (stride2 parts) heights)
  end.

(** [BaseLedger.is_valid_transaction] *)
Definition is_valid_transaction (tx : Transaction) (height : Z) : M Ledger bool :=
  let* hs := gets headers in
  if height <=? Z.of_nat (length hs) then
    let* merkle := network_get_merkle (tx_id tx) height in
    let* root := lift (Merkle.get_root_of_merkle_tree double_sha256
                         (fst merkle) (snd merkle) (tx_hash tx)) in
    let* header := headers_getitem height in
    ret (String.eqb root (merkle_root header))
  else ret false.

(** ['{}:{}:'.format(tx_id, tx_height)] and the [''.join] over
    [synced_history] (line 324). *)
Definition history_item (e : string * Z) : string :=
  fst e +:+ ":" +:+ str_of_int (snd e) +:+ ":".

Definition history_string (synced_history : list (string * Z)) : string :=
  String.concat "" (map history_item synced_history).

(** [i < len(local_history) and local_history[i] == (hex_id, remote_height)] *)
Definition already_synced (local_history : list (string * Z)) (i : nat)
    (entry : string * Z) : bool :=
  bool_decide (local_history !! i = Some entry).

(** The body of the loop of [update_history] for an entry that is not
    skipped (lines 300-341). *)
Definition update_history_entry (address hex_id : string) (remote_height : Z)
    (synced_history : list (string * Z)) : M Ledger unit :=
  lock_acquire hex_id ;;;
  try_finally
    (let* (raw, is_verified) := db_get_transaction hex_id in
     let* (tx, save_tx) :=
       match raw with
       | None =>
           let* _raw := network_get_transaction hex_id in
           let* decoded := lift (unhexlify _raw) in
           let* tx := lift (transaction_class decoded) in
           ret (tx, Some Insert)
       | Some raw =>
           let* tx := lift (transaction_class raw) in
           ret (tx, None)
       end in
     let* (is_verified, save_tx) :=
       if (0 <? remote_height) && negb (truthy is_verified) then
         let* valid := is_valid_transaction tx remote_height in
         ret (if valid then 1 else 0,
              match save_tx with
              | None => Some Update
              | Some mode => Some mode
              end)
       else ret (is_verified, save_tx) in
     let* hash160 := lift (Codec.address_to_hash160 Base58_decode address) in
     db_save_transaction_io save_tx tx remote_height is_verified address hash160
       (history_string synced_history) ;;;
     on_transaction_add {| ev_address := address; ev_tx := tx;
                           ev_height := remote_height; ev_is_verified := is_verified |})
    (lock_release hex_id).

(** The [for] loop of [update_history], from index [i] on. *)
Fixpoint update_history_loop (address : string) (local_history : list (string * Z))
    (i : nat) (synced_history : list (string * Z)) (remote : list (string * Z))
    : M Ledger unit :=
  match remote with
  | [] => ret tt
  | (hex_id, remote_height) :: rest =>
      let synced_history := synced_history ++ [(hex_id, remote_height)] in
      if already_synced local_history i (hex_id, remote_height) then
        update_history_loop address local_history (S i) synced_history rest
      else
        update_history_entry address hex_id remote_height synced_history ;;;
        update_history_loop address local_history (S i) synced_history rest
  end.

(** [BaseLedger.update_history] *)
Definition update_history (address : string) : M Ledger unit :=
  let* remote_history := network_get_history address in
  let* local_history := get_local_history address in
  update_history_loop address local_history 0 [] remote_history.

(** ** What a run is observed by *)

(** The [is_verified] flag that [db.get_transaction] reports for a txid. *)
Definition stored_is_verified (l : Ledger) (txid : string) : Z :=
  match db_tx l !! txid with
  | Some r => rec_is_verified r
  | None => 0
  end.

(** Requests to the network, as opposed to writes and publications. *)
Definition is_request (c : call) : bool :=
  match c with
  | GetHistory _ | GetTransaction _ | GetMerkle _ _ => true
  | SaveTransactionIO _ _ _ _ _ _ _ | OnTransaction _ => false
  end.

Definition is_merkle_request (c : call) : bool :=
  match c with
  | GetMerkle _ _ => true
  | _ => false
  end.

(** The history strings written by the saves among [cs], in order. *)
Definition saved_histories (cs : list call) : list string :=
  omap (fun c => match c with
                 | SaveTransactionIO _ _ _ _ _ _ history => Some history
                 | _ => None
                 end) cs.

(** The events published among [cs], in order. *)
Definition published (cs : list call) : list TransactionEvent :=
  omap (fun c => match c with
                 | OnTransaction e => Some e
                 | _ => None
                 end) cs.

(** The events that the saves among [cs] stand for, in order: for each save
    its address, transaction, height and verification flag. *)
Definition saved_events (cs : list call) : list TransactionEvent :=
  omap (fun c => match c with
                 | SaveTransactionIO _ tx height is_verified address _ _ =>
                     Some {| ev_address := address; ev_tx := tx;
                             ev_height := height; ev_is_verified := is_verified |}
                 | _ => None
                 end) cs.

(** [l] with the calls [cs] made since. *)
Definition add_calls (cs : list call) (l : Ledger) : Ledger :=
  {| db_tx := db_tx l; db_history := db_history l; headers := headers l;
     transaction_processing_locks := transaction_processing_locks l;
     calls := calls l ++ cs |}.

(** A step that only asks: it may make requests, it changes nothing else,
    and it does not wait. *)
Definition quiet {A} (m : M Ledger A) : Prop :=
  forall l, exists fetched,
    snd (m l) = add_calls fetched l /\ forallb is_request fetched = true /\
    forall r, fst (m l) <> Stuck r.

(** A call to [db.save_transaction_io]. *)
Definition is_save (c : call) : bool :=
  match c with
  | SaveTransactionIO _ _ _ _ _ _ _ => true
  | _ => false
  end.

(** The saves among the calls [cs] that the database accepted, [before]
    being the calls made before [cs]. *)
Fixpoint accepted (before cs : list call) : list call :=
  match cs with
  | [] => []
  | c :: rest =>
      (if is_save c && bool_decide (save_failure (before ++ [c]) = None) then [c] else [])
      ++ accepted (before ++ [c]) rest
  end.

(** How the loop body can end when started in [l]: after some requests,
    with one accepted save and one publication; or by an exception, which is
    raised either before any save was attempted or by the save itself. *)
Definition entry_outcome (address : string) (remote_height : Z)
    (synced_history : list (string * Z)) (l : Ledger) (run : outcome unit * Ledger) : Prop :=
  match fst run with
  | Return _ =>
      exists fetched save_tx tx is_verified hash160,
        forallb is_request fetched = true /\
        save_failure
          (calls l ++ fetched ++
           [SaveTransactionIO save_tx tx remote_height is_verified address hash160
              (history_string synced_history)]) = None /\
        snd run =
          add_calls [OnTransaction {| ev_address := address; ev_tx := tx;
                                      ev_height := remote_height;
                                      ev_is_verified := is_verified |}]
            (write_transaction_io save_tx tx remote_height is_verified address
               (history_string synced_history)
               (add_calls
                  (fetched ++
                   [SaveTransactionIO save_tx tx remote_height is_verified address hash160
                      (history_string synced_history)]) l))
  | Raise x =>
      exists fetched,
        forallb is_request fetched = true /\
        (snd run = add_calls fetched l \/
         exists save_tx tx is_verified hash160,
           save_failure
             (calls l ++ fetched ++
              [SaveTransactionIO save_tx tx remote_height is_verified address hash160
                 (history_string synced_history)]) = Some x /\
           snd run =
             add_calls
               (fetched ++
                [SaveTransactionIO save_tx tx remote_height is_verified address hash160
                   (history_string synced_history)]) l)
  | Stuck _ => False
  end.

(** What [update_history] on [address] may do to the ledger, however it
    ends: the lock table and the headers are as before, the history of every
    other address is as before, and among the calls made the publications
    stand for the saves that the database accepted. *)
Definition synced_from (address : string) (l l' : Ledger) : Prop :=
  transaction_processing_locks l' = transaction_processing_locks l /\
  headers l' = headers l /\
  (forall a, a <> address -> db_history l' !! a = db_history l !! a) /\
  exists new, calls l' = calls l ++ new /\
              published new = saved_events (accepted (calls l) new).

(** Index [i] of the remote history is not skipped. *)
Definition to_process (local_history remote : list (string * Z)) (i : nat) : bool :=
  match remote !! i with
  | Some entry => negb (already_synced local_history i entry)
  | None => false
  end.

Definition processed (local_history remote : list (string * Z)) (from count : nat) : list nat :=
  List.filter (to_process local_history remote) (seq from count).

(** No [':'] in a transaction id (ids are hexadecimal). *)
Definition colon_free (entry : string * Z) : Prop := contains ":" (fst entry) = false.

(** ** Effects of the steps *)

Lemma is_valid_transaction_effect tx height l out l' :
  is_valid_transaction tx height l = (out, l') ->
  (Z.of_nat (length (headers l)) < height /\ out = Return false /\ l' = l) \/
  (height <= Z.of_nat (length (headers l)) /\
   l' = add_call (GetMerkle (tx_id tx) height) l).
Proof.
  unfold is_valid_transaction, bind, gets.
  destruct (Z.leb_spec height (Z.of_nat (length (headers l)))) as [Hle | Hgt].
  - intros H. right. split; [assumption|].
    unfold network_get_merkle, bind, modify, lift in H.
    destruct (get_merkle (tx_id tx) height) as [merkle|e]; simpl in H;
      [|by injection H as <- <-].
    destruct (Merkle.get_root_of_merkle_tree _ _ _ _) as [root|e]; simpl in H;
      [|by injection H as <- <-].
    unfold headers_getitem, bind, gets, lift in H. simpl in H.
    destruct (_ && _); [|by injection H as <- <-].
    destruct (headers l !! Z.to_nat height); simpl in H; by injection H as <- <-.
  - intros [= <- <-]. left. auto.
Qed.

(** The two ways in which a save ends. *)
Lemma db_save_transaction_io_run save_tx tx height is_verified address hash160 history l :
  db_save_transaction_io save_tx tx height is_verified address hash160 history l
  = let l1 := add_call (SaveTransactionIO save_tx tx height is_verified address hash160
                          history) l in
    match save_failure (calls l1) with
    | Some x => (Raise x, l1)
    | None => (Return tt, write_transaction_io save_tx tx height is_verified address history l1)
    end.
Proof.
  unfold db_save_transaction_io, bind, modify, gets. cbv zeta.
  by destruct (save_failure _).
Qed.

Lemma db_save_transaction_io_Return_inv save_tx tx height is_verified address hash160
    history l l' :
  db_save_transaction_io save_tx tx height is_verified address hash160 history l
    = (Return tt, l') ->
  save_failure (calls l ++ [SaveTransactionIO save_tx tx height is_verified address hash160
                              history]) = None /\
  l' = write_transaction_io save_tx tx height is_verified address history
         (add_call (SaveTransactionIO save_tx tx height is_verified address hash160 history) l).
Proof.
  rewrite db_save_transaction_io_run. cbv zeta. simpl calls.
  destruct (save_failure _); [discriminate|]. intros [= <-]. auto.
Qed.

Lemma lock_acquire_Return_inv hex_id l l' :
  lock_acquire hex_id l = (Return tt, l') ->
  (hex_id ∉ transaction_processing_locks l) /\
  l' = set_locks ({[hex_id]} ∪ transaction_processing_locks l) l.
Proof.
  unfold lock_acquire, bind, get, stuck, modify.
  case_bool_decide; [discriminate|]. intros [= <-]. auto.
Qed.

(** What a returning run of the loop body has done: after at most two
    requests it has saved once, with the cumulative history string, and
    published once, and the per-txid lock is free again. *)
Lemma update_history_entry_Return address hex_id remote_height synced_history l l' :
  update_history_entry address hex_id remote_height synced_history l = (Return tt, l') ->
  exists tx save_tx is_verified hash160 fetched,
    calls l' = calls l ++ fetched ++
      [SaveTransactionIO save_tx tx remote_height is_verified address hash160
         (history_string synced_history);
       OnTransaction {| ev_address := address; ev_tx := tx;
                        ev_height := remote_height; ev_is_verified := is_verified |}] /\
    forallb is_request fetched = true /\
    db_history l' = <[address := Some (history_string synced_history)]> (db_history l) /\
    headers l' = headers l /\
    transaction_processing_locks l' = transaction_processing_locks l /\
    (remote_height <= 0 ->
       is_verified = stored_is_verified l hex_id /\
       existsb is_merkle_request fetched = false /\
       save_tx <> Some Update).
Proof.
  intros H. unfold update_history_entry in H.
  apply bind_Return_inv in H as ([] & l1 & Hacq & H).
  apply lock_acquire_Return_inv in Hacq as [Hfree ->].
  apply try_finally_Return_inv in H as (l2 & Hbody & Hfin).
  apply modify_Return_inv in Hfin. subst l'.
  apply bind_Return_inv in Hbody as ([raw v0] & l3 & Hdb & Hbody).
  apply gets_Return_inv in Hdb as [Hdb ->].
  apply bind_Return_inv in Hbody as ([tx save0] & l4 & Htx & Hbody).
  apply bind_Return_inv in Hbody as ([v save1] & l5 & Hverify & Hbody).
  apply bind_Return_inv in Hbody as (hash160 & l6 & Hh160 & Hbody).
  apply lift_Return_inv in Hh160 as [Hh160 ->].
  apply bind_Return_inv in Hbody as ([] & l7 & Hsave & Hpub).
  apply modify_Return_inv in Hpub. subst l2.
  apply db_save_transaction_io_Return_inv in Hsave as [_ ->].
  exists tx, save1, v, hash160.
  set (l1 := set_locks ({[hex_id]} ∪ transaction_processing_locks l) l) in *.
  assert (Hv0 : v0 = stored_is_verified l hex_id).
  { unfold stored_is_verified. change (db_tx l1) with (db_tx l) in Hdb.
    destruct (db_tx l !! hex_id); by injection Hdb as _ ->. }
  assert (Hl4 : (l4 = l1 \/ l4 = add_call (GetTransaction hex_id) l1) /\
                save0 <> Some Update).
  { destruct raw as [raw|].
    - run_inv Htx. simplify_eq. split; [by left | discriminate].
    - unfold network_get_transaction in Htx. run_inv Htx.
      simplify_eq. split; [by right | discriminate]. }
  destruct Hl4 as [Hl4 Hsave0].
  assert (Hl5 : (l5 = l4 /\ (remote_height <= 0 -> v = v0 /\ save1 = save0)) \/
                (0 < remote_height /\
                 l5 = add_call (GetMerkle (tx_id tx) remote_height) l4)).
  { destruct (Z.ltb_spec 0 remote_height) as [Hpos | Hnonpos]; simpl in Hverify.
    - destruct (negb (truthy v0)).
      + apply bind_Return_inv in Hverify as (valid & l5' & Hvalid & Hverify).
        run_inv Hverify.
        apply is_valid_transaction_effect in Hvalid as [(_ & _ & ->) | [_ ->]].
        * left. split; [reflexivity | lia].
        * by right.
      + run_inv Hverify. left. split; [reflexivity | lia].
    - run_inv Hverify. simplify_eq. by left. }
  assert (Hlocks : ({[hex_id]} ∪ transaction_processing_locks l) ∖ {[hex_id]}
                   = transaction_processing_locks l).
  { apply set_eq. intros x. rewrite elem_of_difference, elem_of_union, !elem_of_singleton.
    split; [intros [[?|?] ?]; done | intros ?; split; [by right | by intros ->]]. }
  destruct Hl4 as [-> | ->], Hl5 as [[-> Hsame] | [Hpos ->]].
  - exists []. simpl. rewrite <- app_assoc. split_and!; try done.
    intros Hh. destruct (Hsame Hh) as [-> ->]. by subst.
  - exists [GetMerkle (tx_id tx) remote_height]. simpl.
    rewrite <- !app_assoc. split_and!; try done. lia.
  - exists [GetTransaction hex_id]. simpl.
    rewrite <- !app_assoc. split_and!; try done.
    intros Hh. destruct (Hsame Hh) as [-> ->]. by subst.
  - exists [GetTransaction hex_id; GetMerkle (tx_id tx) remote_height]. simpl.
    rewrite <- !app_assoc. split_and!; try done. lia.
Qed.

(** ** The loop *)

Lemma saved_histories_requests cs :
  forallb is_request cs = true -> saved_histories cs = [] /\ published cs = [].
Proof.
  induction cs as [|c cs IH]; simpl; [auto|].
  intros H. apply andb_prop in H as [Hc Hcs]. destruct (IH Hcs) as [IH1 IH2].
  unfold saved_histories, published in *. simpl. rewrite IH1, IH2.
  by destruct c.
Qed.

Lemma processed_cons local_history remote from count :
  processed local_history remote from (S count)
  = (if to_process local_history remote from then [from] else [])
    ++ processed local_history remote (S from) count.
Proof.
  unfold processed. simpl. by destruct (to_process local_history remote from).
Qed.

Lemma update_history_loop_Return address local_history rest :
  forall synced_history l l',
  update_history_loop address local_history (length synced_history) synced_history rest l
    = (Return tt, l') ->
  let remote := synced_history ++ rest in
  let todo := processed local_history remote (length synced_history) (length rest) in
  saved_histories (calls l') =
    saved_histories (calls l) ++ map (fun i => history_string (take (S i) remote)) todo /\
  length (published (calls l')) = (length (published (calls l)) + length todo)%nat /\
  db_history l' =
    match last todo with
    | Some i => <[address := Some (history_string (take (S i) remote))]> (db_history l)
    | None => db_history l
    end /\
  headers l' = headers l /\
  transaction_processing_locks l' = transaction_processing_locks l.
Proof.
  induction rest as [|[hex_id remote_height] rest IH]; intros synced_history l l' H; simpl in H.
  - run_inv H. simpl. rewrite app_nil_r. auto.
  - cbv zeta.
    assert (Hremote : (synced_history ++ [(hex_id, remote_height)]) ++ rest
                      = synced_history ++ (hex_id, remote_height) :: rest)
      by (by rewrite <- app_assoc).
    assert (Hlen : length (synced_history ++ [(hex_id, remote_height)])
                   = S (length synced_history))
      by (rewrite length_app; simpl; lia).
    assert (Hhere : to_process local_history
                      (synced_history ++ (hex_id, remote_height) :: rest)
                      (length synced_history)
                    = negb (already_synced local_history (length synced_history)
                              (hex_id, remote_height))).
    { unfold to_process. by rewrite list_lookup_middle. }
    simpl length. rewrite processed_cons, Hhere.
    destruct (already_synced local_history (length synced_history) (hex_id, remote_height)).
    + rewrite <- Hlen in H. apply IH in H. cbv zeta in H.
      rewrite Hremote, Hlen in H. exact H.
    + apply bind_Return_inv in H as ([] & l1 & Hentry & H).
      apply update_history_entry_Return in Hentry
        as (tx & save_tx & v & h160 & fetched & Hcalls & Hreq & Hdb & Hhdr & Hlck & _).
      rewrite <- Hlen in H. apply IH in H. cbv zeta in H.
      rewrite Hremote, Hlen in H.
      destruct H as (Hsaved & Hpub & Hdb' & Hhdr' & Hlck').
      destruct (saved_histories_requests _ Hreq) as [Hs0 Hp0].
      assert (Htake : take (S (length synced_history))
                        (synced_history ++ (hex_id, remote_height) :: rest)
                      = synced_history ++ [(hex_id, remote_height)]).
      { rewrite <- Hremote, <- Hlen. apply take_app_length. }
      simpl negb. cbv iota. simpl app. split_and!.
      * rewrite Hsaved, Hcalls. unfold saved_histories at 1.
        rewrite !omap_app. fold (saved_histories (calls l)) (saved_histories fetched).
        rewrite Hs0. simpl. rewrite Htake, <- app_assoc. reflexivity.
      * rewrite Hpub, Hcalls. unfold published at 1.
        rewrite !omap_app. fold (published (calls l)) (published fetched).
        rewrite Hp0. simpl. rewrite !length_app. simpl. lia.
      * rewrite Hdb', Hdb, last_cons.
        destruct (last (processed _ _ _ _)) as [k|].
        -- apply insert_insert_eq.
        -- by rewrite Htake.
      * congruence.
      * congruence.
Qed.

(** [get_local_history] reads the history column and nothing else. *)
Lemma get_local_history_frame address l c :
  get_local_history address (add_call c l)
  = (fst (get_local_history address l), add_call c l) /\
  snd (get_local_history address l) = l.
Proof.
  unfold get_local_history, bind, db_get_address, gets. simpl.
  destruct (db_history l !! address) as [column|]; [|by unfold raise].
  destruct (map_result int_of_str _) as [heights|e]; by simpl.
Qed.

Lemma last_processed local_history remote from count :
  to_process local_history remote (from + count) = true ->
  last (processed local_history remote from (S count)) = Some (from + count)%nat.
Proof.
  intros Hlast. unfold processed. rewrite seq_S, List.filter_app. simpl.
  rewrite Hlast. apply last_snoc.
Qed.

(** A returning run of [update_history], in terms of the entries that are
    not skipped. *)
Lemma update_history_Return address remote local_history l l' :
  get_history address = Ok remote ->
  get_local_history address l = (Return local_history, l) ->
  update_history address l = (Return tt, l') ->
  saved_histories (calls l') =
    saved_histories (calls l)
    ++ map (fun i => history_string (take (S i) remote))
         (processed local_history remote 0 (length remote)) /\
  length (published (calls l')) =
    (length (published (calls l))
     + length (processed local_history remote 0 (length remote)))%nat /\
  db_history l' =
    match last (processed local_history remote 0 (length remote)) with
    | Some i => <[address := Some (history_string (take (S i) remote))]> (db_history l)
    | None => db_history l
    end.
Proof.
  intros Hremote Hlocal H. unfold update_history in H.
  apply bind_Return_inv in H as (remote' & l1 & Hnet & H).
  unfold network_get_history in Hnet. run_inv Hnet.
  rewrite Hremote in Hcall. injection Hcall as <-.
  apply bind_Return_inv in H as (local' & l2 & Hlocal' & H).
  destruct (get_local_history_frame address l (GetHistory address)) as [Hframe _].
  rewrite Hframe, Hlocal in Hlocal'. simpl in Hlocal'. injection Hlocal' as <- <-.
  apply (update_history_loop_Return address local_history remote []) in H.
  cbv zeta in H. simpl in H. destruct H as (Hsaved & Hpub & Hdb & _ & _).
  assert (Hs : saved_histories (calls l ++ [GetHistory address]) = saved_histories (calls l))
    by (unfold saved_histories; rewrite omap_app; apply app_nil_r).
  assert (Hp : published (calls l ++ [GetHistory address]) = published (calls l))
    by (unfold published; rewrite omap_app; apply app_nil_r).
  rewrite Hs in Hsaved. rewrite Hp in Hpub. by split_and!.
Qed.

(** C1 (amended).  In a run of [update_history] that returns, the saves
    are made for the entries that are not skipped, in order, and the save for
    entry [i] writes the concatenation of the first [i + 1] remote entries;
    when the last remote entry is not skipped, the stored history of the
    address ends up as the concatenation of the whole remote list; an empty
    remote history makes no save and leaves the stored history as it was. *)
Theorem update_history_writes_prefixes (address : string)
    (remote local_history : list (string * Z)) (l l' : Ledger) :
  get_history address = Ok remote ->
  get_local_history address l = (Return local_history, l) ->
  update_history address l = (Return tt, l') ->
  saved_histories (calls l') =
    saved_histories (calls l)
    ++ map (fun i => history_string (take (S i) remote))
         (processed local_history remote 0 (length remote)) /\
  (forall entry, last remote = Some entry ->
     already_synced local_history (length remote - 1) entry = false ->
     db_history l' !! address = Some (Some (history_string remote))) /\
  (remote = [] ->
     saved_histories (calls l') = saved_histories (calls l) /\
     db_history l' = db_history l).
Proof.
  intros Hremote Hlocal H.
  destruct (update_history_Return _ _ _ _ _ Hremote Hlocal H) as (Hsaved & _ & Hdb).
  split_and!.
  - exact Hsaved.
  - intros entry Hlast Hnew.
    destruct remote as [|e0 remote0] using rev_ind; [discriminate|]. clear IHremote0.
    rewrite last_snoc in Hlast. injection Hlast as ->.
    rewrite length_app in Hdb, Hnew. simpl in Hdb, Hnew.
    replace (length remote0 + 1 - 1)%nat with (length remote0) in Hnew by lia.
    replace (length remote0 + 1)%nat with (S (length remote0)) in Hdb by lia.
    rewrite (last_processed local_history _ 0 (length remote0)) in Hdb.
    + rewrite Hdb. simpl. rewrite lookup_insert_eq. do 3 f_equal.
      apply take_ge. rewrite length_app. simpl. lia.
    + unfold to_process. simpl. rewrite list_lookup_middle by reflexivity.
      by rewrite Hnew.
  - intros ->. simpl in *. rewrite app_nil_r in Hsaved. auto.
Qed.


(** ** Reading back a history that was written in full *)

Lemma history_string_cons entry rest :
  history_string (entry :: rest)
  = fst entry +:+ String ":" (str_of_int (snd entry) +:+ String ":" (history_string rest)).
Proof.
  unfold history_string. simpl map. rewrite concat_empty_cons. unfold history_item.
  rewrite !append_assoc. reflexivity.
Qed.

Lemma split_history_string remote :
  Forall colon_free remote ->
  drop_last (split ":" (history_string remote))
  = flat_map (fun entry => [fst entry; str_of_int (snd entry)]) remote.
Proof.
  induction 1 as [|entry rest Hentry _ IH]; [reflexivity|].
  rewrite history_string_cons.
  rewrite split_app_sep by exact Hentry.
  rewrite split_app_sep by apply contains_str_of_int.
  rewrite drop_last_cons2 by apply split_nonempty.
  simpl. by rewrite IH.
Qed.

Lemma stride2_flat_map remote :
  stride2 (flat_map (fun entry : string * Z => [fst entry; str_of_int (snd entry)]) remote)
    = map fst remote /\
  stride2 (tl (flat_map (fun entry : string * Z => [fst entry; str_of_int (snd entry)]) remote))
    = map (fun entry => str_of_int (snd entry)) remote.
Proof.
  induction remote as [|entry rest [IH1 IH2]]; [done|]. simpl. split; [by rewrite IH1|].
  f_equal. destruct rest as [|entry' rest']; [done|]. exact IH2.
Qed.

Lemma map_result_int_of_str (remote : list (string * Z)) :
  map_result int_of_str (map (fun entry => str_of_int (snd entry)) remote)
  = Ok (map snd remote).
Proof.
  induction remote as [|entry rest IH]; [reflexivity|]. simpl.
  by rewrite int_of_str_str_of_int, IH.
Qed.

(** The history column written from [remote] parses back to [remote]. *)
Lemma get_local_history_of_history_string address remote l :
  Forall colon_free remote ->
  db_history l !! address = Some (Some (history_string remote)) ->
  get_local_history address l = (Return remote, l).
Proof.
  intros Hids Hcolumn.
  unfold get_local_history, bind, db_get_address, gets. rewrite Hcolumn. simpl.
  rewrite split_history_string by assumption.
  destruct (stride2_flat_map remote) as [-> ->].
  rewrite map_result_int_of_str. simpl. unfold ret. do 2 f_equal. apply zip_fst_snd.
Qed.

(** With the local history equal to the remote one, every entry is skipped. *)
Lemma update_history_loop_all_synced address rest : forall synced_history l,
  update_history_loop address (synced_history ++ rest) (length synced_history)
    synced_history rest l = (Return tt, l).
Proof.
  induction rest as [|[hex_id remote_height] rest IH]; intros synced_history l; [reflexivity|].
  simpl. unfold already_synced.
  rewrite bool_decide_eq_true_2 by (by apply list_lookup_middle).
  replace (synced_history ++ (hex_id, remote_height) :: rest)
    with ((synced_history ++ [(hex_id, remote_height)]) ++ rest) by (by rewrite <- app_assoc).
  replace (S (length synced_history))
    with (length (synced_history ++ [(hex_id, remote_height)]))
    by (rewrite length_app; simpl; lia).
  apply IH.
Qed.

(** Once the stored history is the concatenation of the whole remote list,
    a run of [update_history] asks for the remote history and does nothing
    else: no save, no publication. *)
Lemma update_history_of_stored_history address remote l :
  Forall colon_free remote ->
  get_history address = Ok remote ->
  db_history l !! address = Some (Some (history_string remote)) ->
  update_history address l = (Return tt, add_call (GetHistory address) l).
Proof.
  intros Hids Hremote Hcolumn.
  unfold update_history, bind at 1, network_get_history, bind, modify, lift.
  rewrite Hremote. simpl. unfold bind.
  rewrite (get_local_history_of_history_string address remote) by done.
  apply (update_history_loop_all_synced address remote []).
Qed.

(** Where idempotence does hold: if the first run has processed the last
    remote entry (or the remote history is empty), a second run with the same
    remote history saves nothing and publishes nothing. *)
Lemma update_history_second_run_silent address remote local_history l l1 :
  Forall colon_free remote ->
  get_history address = Ok remote ->
  get_local_history address l = (Return local_history, l) ->
  update_history address l = (Return tt, l1) ->
  (forall entry, last remote = Some entry ->
     already_synced local_history (length remote - 1) entry = false) ->
  update_history address l1 = (Return tt, add_call (GetHistory address) l1).
Proof.
  intros Hids Hremote Hlocal Hrun Hlast.
  destruct (update_history_Return _ _ _ _ _ Hremote Hlocal Hrun) as (_ & _ & Hdb).
  destruct remote as [|e0 remote0] using rev_ind.
  - simpl in Hdb.
    unfold update_history, bind at 1, network_get_history, bind, modify, lift.
    rewrite Hremote. simpl. unfold bind.
    destruct (get_local_history_frame address l1 (GetHistory address)) as [-> _].
    destruct (get_local_history_frame address l (GetHistory address)) as [_ Hsame].
    unfold get_local_history, bind, db_get_address, gets in Hlocal |- *.
    rewrite Hdb. simpl.
    destruct (db_history l !! address) as [column|]; [|discriminate].
    destruct (map_result int_of_str _); [reflexivity | discriminate].
  - clear IHremote0. apply (update_history_of_stored_history address (remote0 ++ [e0])); try done.
    specialize (Hlast e0 (last_snoc _ _)).
    rewrite length_app in Hdb, Hlast. simpl in Hdb, Hlast.
    replace (length remote0 + 1 - 1)%nat with (length remote0) in Hlast by lia.
    replace (length remote0 + 1)%nat with (S (length remote0)) in Hdb by lia.
    rewrite (last_processed local_history _ 0 (length remote0)) in Hdb.
    + rewrite Hdb. simpl. rewrite lookup_insert_eq. do 3 f_equal.
      apply take_ge. rewrite length_app. simpl. lia.
    + unfold to_process. simpl. rewrite list_lookup_middle by reflexivity.
      by rewrite Hlast.
Qed.

(** A call of [is_valid_transaction] at height 0 passes the guard, whatever
    the headers are, and so always makes a Merkle request. *)
Lemma is_valid_transaction_at_zero tx l :
  calls (snd (is_valid_transaction tx 0 l)) = calls l ++ [GetMerkle (tx_id tx) 0].
Proof.
  destruct (is_valid_transaction tx 0 l) as [out l'] eqn:Hrun.
  apply is_valid_transaction_effect in Hrun as [(Hlen & _) | (_ & ->)]; [lia | reflexivity].
Qed.

(** C6 (amended).  When the loop body of [update_history] runs for an entry
    of height 0 and returns, it has made no Merkle request (so
    [is_valid_transaction], which at height 0 would make one, was not called),
    it has called [save_transaction_io] once and published one event, both with
    the [is_verified] value read from the database at the start (0 when the
    transaction had no row or an unverified one), and the save mode is not
    an update. *)
Theorem unconfirmed_entry_keeps_stored_flag (address hex_id : string)
    (synced_history : list (string * Z)) (l l' : Ledger) :
  update_history_entry address hex_id 0 synced_history l = (Return tt, l') ->
  (exists tx save_tx hash160 fetched,
     calls l' = calls l ++ fetched ++
       [SaveTransactionIO save_tx tx 0 (stored_is_verified l hex_id) address hash160
          (history_string synced_history);
        OnTransaction {| ev_address := address; ev_tx := tx; ev_height := 0;
                         ev_is_verified := stored_is_verified l hex_id |}] /\
     forallb is_request fetched = true /\
     existsb is_merkle_request fetched = false /\
     save_tx <> Some Update) /\
  ((forall r, db_tx l !! hex_id = Some r -> rec_is_verified r = 0) ->
   stored_is_verified l hex_id = 0) /\
  (forall tx l0,
     calls (snd (is_valid_transaction tx 0 l0)) = calls l0 ++ [GetMerkle (tx_id tx) 0]).
Proof.
  intros H. apply update_history_entry_Return in H
    as (tx & save_tx & v & h160 & fetched & Hcalls & Hreq & _ & _ & _ & Hzero).
  destruct (Hzero ltac:(lia)) as (-> & Hmerkle & Hmode).
  split_and!.
  - exists tx, save_tx, h160, fetched. by split_and!.
  - unfold stored_is_verified. intros Hrow.
    destruct (db_tx l !! hex_id) as [r|]; [by apply Hrow | reflexivity].
  - apply is_valid_transaction_at_zero.
Qed.


(** After a returning run that has processed the last entry of a non-empty
    remote history, the history column is the text of the whole list. *)
Lemma update_history_stores_remote address remote local_history l l' :
  get_history address = Ok remote ->
  get_local_history address l = (Return local_history, l) ->
  update_history address l = (Return tt, l') ->
  (forall entry, last remote = Some entry ->
     already_synced local_history (length remote - 1) entry = false) ->
  remote <> [] ->
  db_history l' !! address = Some (Some (history_string remote)).
Proof.
  intros Hremote Hlocal Hrun Hlast Hne.
  destruct (update_history_Return _ _ _ _ _ Hremote Hlocal Hrun) as (_ & _ & Hdb).
  destruct remote as [|e0 remote0] using rev_ind; [done|]. clear IHremote0.
  specialize (Hlast e0 (last_snoc _ _)).
  rewrite length_app in Hdb, Hlast. simpl in Hdb, Hlast.
  replace (length remote0 + 1 - 1)%nat with (length remote0) in Hlast by lia.
  replace (length remote0 + 1)%nat with (S (length remote0)) in Hdb by lia.
  rewrite (last_processed local_history _ 0 (length remote0)) in Hdb.
  - rewrite Hdb. simpl. rewrite lookup_insert_eq. do 3 f_equal.
    apply take_ge. rewrite length_app. simpl. lia.
  - unfold to_process. simpl. rewrite list_lookup_middle by reflexivity.
    by rewrite Hlast.
Qed.

(** ** Every way a run can end *)

Lemma locks_restored (hex_id : string) (locks : gset string) :
  hex_id ∉ locks -> ({[hex_id]} ∪ locks) ∖ {[hex_id]} = locks.
Proof.
  intros Hfree. apply set_eq. intros x.
  rewrite elem_of_difference, elem_of_union, !elem_of_singleton.
  split; [intros [[?|?] ?]; done | intros ?; split; [by right | by intros ->]].
Qed.

Lemma add_calls_nil l : add_calls [] l = l.
Proof. destruct l. unfold add_calls. simpl. by rewrite app_nil_r. Qed.

Lemma add_calls_app cs1 cs2 l : add_calls cs2 (add_calls cs1 l) = add_calls (cs1 ++ cs2) l.
Proof. unfold add_calls. simpl. by rewrite app_assoc. Qed.

Lemma add_call_add_calls c l : add_call c l = add_calls [c] l.
Proof. reflexivity. Qed.

Lemma quiet_ret {A} (a : A) : quiet (ret a).
Proof. intros l. exists []. by rewrite add_calls_nil. Qed.

Lemma quiet_raise {A} e : quiet (@raise Ledger A e).
Proof. intros l. exists []. by rewrite add_calls_nil. Qed.

Lemma quiet_lift {A} (r : result A) : quiet (lift r).
Proof. destruct r; [apply quiet_ret | apply quiet_raise]. Qed.

Lemma quiet_gets {A} (f : Ledger -> A) : quiet (gets f).
Proof. intros l. exists []. by rewrite add_calls_nil. Qed.

Lemma quiet_bind {A B} (m : M Ledger A) (k : A -> M Ledger B) :
  quiet m -> (forall a, quiet (k a)) -> quiet (bind m k).
Proof.
  intros Hm Hk l. unfold bind. destruct (Hm l) as (f1 & Hl1 & Hf1 & Hs1).
  destruct (m l) as [[a|e|r] l1]; simpl in *; subst l1.
  - destruct (Hk a (add_calls f1 l)) as (f2 & Hl2 & Hf2 & Hs2).
    exists (f1 ++ f2). rewrite Hl2, add_calls_app, forallb_app, Hf1, Hf2. by split_and!.
  - exists f1. by split_and!.
  - by destruct (Hs1 r).
Qed.

Lemma quiet_request {A} (c : call) (r : result A) :
  is_request c = true -> quiet (modify (add_call c) ;;; lift r).
Proof.
  intros Hc l. exists [c]. unfold bind, modify, lift. simpl.
  destruct r; simpl; rewrite Hc; by split_and!.
Qed.

Lemma quiet_headers_getitem height : quiet (headers_getitem height).
Proof.
  unfold headers_getitem. apply quiet_bind; [apply quiet_gets|].
  intros hs. destruct (_ && _); [apply quiet_lift | apply quiet_raise].
Qed.

Lemma quiet_is_valid_transaction tx height : quiet (is_valid_transaction tx height).
Proof.
  unfold is_valid_transaction. apply quiet_bind; [apply quiet_gets|].
  intros hs. destruct (height <=? _); [|apply quiet_ret].
  apply quiet_bind; [by apply quiet_request|]. intros merkle.
  apply quiet_bind; [apply quiet_lift|]. intros root.
  apply quiet_bind; [apply quiet_headers_getitem|]. intros header. apply quiet_ret.
Qed.

Lemma entry_outcome_bind {A} address remote_height synced_history
    (m : M Ledger A) (k : A -> M Ledger unit) :
  quiet m ->
  (forall a l, entry_outcome address remote_height synced_history l (k a l)) ->
  forall l, entry_outcome address remote_height synced_history l (bind m k l).
Proof.
  intros Hm Hk l. unfold bind. destruct (Hm l) as (f1 & Hl1 & Hf1 & Hs1).
  destruct (m l) as [[a|e|r] l1]; simpl in *; subst l1.
  - specialize (Hk a (add_calls f1 l)). unfold entry_outcome in *.
    destruct (k a (add_calls f1 l)) as [[[]|e|r] l2]; simpl in *.
    + destruct Hk as (f2 & save_tx & tx & v & h160 & Hf2 & Hok & ->).
      exists (f1 ++ f2), save_tx, tx, v, h160.
      rewrite add_calls_app, forallb_app, Hf1, Hf2, <- !app_assoc.
      rewrite <- !app_assoc in Hok. by split_and!.
    + destruct Hk as (f2 & Hf2 & Hend). exists (f1 ++ f2).
      rewrite forallb_app, Hf1, Hf2. split; [done|].
      destruct Hend as [-> | (save_tx & tx & v & h160 & Hno & ->)].
      * left. by rewrite add_calls_app.
      * right. exists save_tx, tx, v, h160.
        rewrite add_calls_app, <- !app_assoc. rewrite <- !app_assoc in Hno. by split.
    + done.
  - exists f1. split; [done | by left].
  - by destruct (Hs1 r).
Qed.

(** The loop body (lines 300-341), however it ends. *)
Lemma update_history_entry_try address hex_id remote_height synced_history l :
  match update_history_entry address hex_id remote_height synced_history l with
  | (Stuck r, l') =>
      r = WaitingForLock /\ hex_id ∈ transaction_processing_locks l /\ l' = l
  | run =>
      (hex_id ∉ transaction_processing_locks l) /\
      entry_outcome address remote_height synced_history l run
  end.
Proof.
  unfold update_history_entry, bind at 1, lock_acquire, bind at 1, get, stuck, modify.
  case_bool_decide as Hheld; [done|].
  set (l1 := set_locks ({[hex_id]} ∪ transaction_processing_locks l) l).
  match goal with
  | |- context [try_finally ?body _ _] =>
      assert (Hbody : entry_outcome address remote_height synced_history l1 (body l1))
  end.
  { apply entry_outcome_bind; [apply quiet_gets|]. intros [raw v0] l2.
    apply entry_outcome_bind.
    { destruct raw as [raw|].
      - apply quiet_bind; [apply quiet_lift | intros tx; apply quiet_ret].
      - apply quiet_bind; [by apply quiet_request|]. intros _raw.
        apply quiet_bind; [apply quiet_lift|]. intros decoded.
        apply quiet_bind; [apply quiet_lift | intros tx; apply quiet_ret]. }
    intros [tx save0] l3. apply entry_outcome_bind.
    { destruct (_ && _); [|apply quiet_ret].
      apply quiet_bind; [apply quiet_is_valid_transaction | intros valid; apply quiet_ret]. }
    intros [v save1] l4. apply entry_outcome_bind; [apply quiet_lift|].
    intros h160 l5. unfold entry_outcome, bind.
    rewrite db_save_transaction_io_run. cbv zeta. simpl calls.
    destruct (save_failure _) as [x|] eqn:Hverdict; simpl.
    - exists []. split; [done|]. right. by exists save1, tx, v, h160.
    - by exists [], save1, tx, v, h160. }
  unfold try_finally, lock_release, modify, entry_outcome in *.
  match type of Hbody with
  | context [fst (?body l1)] => destruct (body l1) as [[[]|e|r] l2]
  end; simpl in *.
  - destruct Hbody as (fetched & save_tx & tx & v & h160 & Hreq & Hok & ->).
    split; [done|]. exists fetched, save_tx, tx, v, h160. split_and!; try done.
    unfold write_transaction_io, add_calls, set_db, set_locks.
    simpl. rewrite (locks_restored hex_id) by done. reflexivity.
  - destruct Hbody as (fetched & Hreq & Hend). split; [done|]. exists fetched. split; [done|].
    destruct Hend as [-> | (save_tx & tx & v & h160 & Hno & ->)].
    + left. unfold add_calls, set_locks. simpl.
      rewrite (locks_restored hex_id) by done. reflexivity.
    + right. exists save_tx, tx, v, h160. split; [done|].
      unfold add_calls, set_locks. simpl.
      rewrite (locks_restored hex_id) by done. reflexivity.
  - done.
Qed.

Lemma requests_no_events cs :
  forallb is_request cs = true -> published cs = [] /\ saved_events cs = [].
Proof.
  induction cs as [|c cs IH]; simpl; [auto|].
  intros H. apply andb_prop in H as [Hc Hcs]. destruct (IH Hcs) as [IH1 IH2].
  unfold saved_events, published in *. simpl. rewrite IH1, IH2.
  by destruct c.
Qed.

Lemma accepted_app cs1 : forall before cs2,
  accepted before (cs1 ++ cs2) = accepted before cs1 ++ accepted (before ++ cs1) cs2.
Proof.
  induction cs1 as [|c cs1 IH]; intros before cs2; simpl.
  - by rewrite app_nil_r.
  - by rewrite IH, <- !app_assoc.
Qed.

Lemma accepted_requests cs : forall before,
  forallb is_request cs = true -> accepted before cs = [].
Proof.
  induction cs as [|c cs IH]; intros before; simpl; [done|].
  intros H. apply andb_prop in H as [Hc Hcs]. rewrite (IH _ Hcs).
  by destruct c.
Qed.

Lemma synced_from_refl address l : synced_from address l l.
Proof. split_and!; try done. exists []. by rewrite app_nil_r. Qed.

Lemma synced_from_trans address l1 l2 l3 :
  synced_from address l1 l2 -> synced_from address l2 l3 -> synced_from address l1 l3.
Proof.
  intros (Hk1 & Hh1 & Hd1 & new1 & Hc1 & Hp1) (Hk2 & Hh2 & Hd2 & new2 & Hc2 & Hp2).
  split_and!; try congruence.
  - intros a Ha. by rewrite Hd2, Hd1.
  - exists (new1 ++ new2). split; [by rewrite Hc2, Hc1, app_assoc|].
    rewrite accepted_app, <- Hc1.
    unfold published, saved_events in *. by rewrite !omap_app, Hp1, Hp2.
Qed.

Lemma synced_from_requests address fetched l :
  forallb is_request fetched = true -> synced_from address l (add_calls fetched l).
Proof.
  intros Hreq. split_and!; try done. exists fetched. split; [done|].
  rewrite accepted_requests by done.
  by destruct (requests_no_events _ Hreq) as [-> _].
Qed.

Lemma update_history_entry_synced_from address hex_id remote_height synced_history l :
  synced_from address l
    (snd (update_history_entry address hex_id remote_height synced_history l)).
Proof.
  pose proof (update_history_entry_try address hex_id remote_height synced_history l) as H.
  destruct (update_history_entry address hex_id remote_height synced_history l)
    as [[[]|e|r] l']; simpl.
  - destruct H as [_ (fetched & save_tx & tx & v & h160 & Hreq & Hok & Hl')].
    simpl in Hl'. subst l'. destruct (requests_no_events _ Hreq) as [Hp Hs].
    split_and!; try done.
    + intros a Ha. simpl. by rewrite lookup_insert_ne.
    + eexists. simpl. split; [rewrite <- !app_assoc; reflexivity|].
      rewrite !accepted_app, (accepted_requests fetched) by done. simpl.
      rewrite <- (app_assoc (calls l) fetched), Hok. simpl.
      unfold published, saved_events in *. by rewrite !omap_app, Hp.
  - destruct H as [_ (fetched & Hreq & Hend)]. simpl in Hend.
    destruct Hend as [-> | (save_tx & tx & v & h160 & Hno & ->)];
      [by apply synced_from_requests|].
    destruct (requests_no_events _ Hreq) as [Hp Hs].
    split_and!; try done. eexists. split; [reflexivity|].
    rewrite accepted_app, (accepted_requests fetched) by done. simpl.
    rewrite <- (app_assoc (calls l) fetched), Hno. simpl.
    unfold published in *. by rewrite !omap_app, Hp.
  - destruct H as (_ & _ & ->). apply synced_from_refl.
Qed.

Lemma update_history_loop_synced_from address local_history remote :
  forall i synced_history l,
  synced_from address l
    (snd (update_history_loop address local_history i synced_history remote l)) /\
  forall r, fst (update_history_loop address local_history i synced_history remote l) = Stuck r ->
    r = WaitingForLock /\ exists entry, entry ∈ remote /\
      fst entry ∈ transaction_processing_locks l.
Proof.
  induction remote as [|[hex_id remote_height] rest IH]; intros i synced_history l; simpl.
  - split; [apply synced_from_refl | discriminate].
  - destruct (already_synced local_history i (hex_id, remote_height)).
    + destruct (IH (S i) (synced_history ++ [(hex_id, remote_height)]) l) as [Hs Hstuck].
      split; [exact Hs|]. intros r Hr. destruct (Hstuck r Hr) as (-> & entry & Hin & Hheld).
      split; [done|]. exists entry. split; [by apply list_elem_of_further | done].
    + unfold bind.
      pose proof (update_history_entry_synced_from address hex_id remote_height
                    (synced_history ++ [(hex_id, remote_height)]) l) as Hentry.
      pose proof (update_history_entry_try address hex_id remote_height
                    (synced_history ++ [(hex_id, remote_height)]) l) as Htry.
      destruct (update_history_entry address hex_id remote_height
                  (synced_history ++ [(hex_id, remote_height)]) l) as [[[]|e|r] l1];
        simpl in Hentry.
      * destruct (IH (S i) (synced_history ++ [(hex_id, remote_height)]) l1) as [Hs Hstuck].
        split; [by eapply synced_from_trans|].
        intros r Hr. destruct (Hstuck r Hr) as (-> & entry & Hin & Hheld).
        split; [done|]. exists entry. split; [by apply list_elem_of_further|].
        destruct Hentry as (Hlocks & _). by rewrite <- Hlocks.
      * split; [exact Hentry | discriminate].
      * split; [exact Hentry|]. simpl. intros r' [= <-].
        destruct Htry as (-> & Hheld & _). split; [done|].
        exists (hex_id, remote_height). split; [apply list_elem_of_here | done].
Qed.

Lemma update_history_synced_from address l :
  synced_from address l (snd (update_history address l)) /\
  forall r, fst (update_history address l) = Stuck r ->
    r = WaitingForLock /\ exists hex_id, hex_id ∈ transaction_processing_locks l.
Proof.
  assert (Hreq : synced_from address l (add_call (GetHistory address) l))
    by (by apply (synced_from_requests address [GetHistory address])).
  unfold update_history, bind at 1, network_get_history, bind at 1, modify, lift.
  destruct (get_history address) as [remote|e]; unfold ret, raise; cbv beta iota;
    [|split; [exact Hreq | discriminate]].
  unfold bind.
  destruct (get_local_history_frame address l (GetHistory address)) as [Hframe _].
  destruct (get_local_history address (add_call (GetHistory address) l)) as [out l1].
  injection Hframe as Hlocal ->. symmetry in Hlocal.
  destruct out as [local_history|e|r]; simpl.
  - destruct (update_history_loop_synced_from address local_history remote 0%nat []
                (add_call (GetHistory address) l)) as [Hs Hstuck].
    split; [by eapply synced_from_trans|].
    intros r Hr. destruct (Hstuck r Hr) as (-> & entry & _ & Hheld). eauto.
  - split; [exact Hreq | discriminate].
  - exfalso. revert Hlocal. unfold get_local_history, bind, db_get_address, gets. simpl.
    destruct (db_history l !! address) as [column|]; [|discriminate].
    by destruct (map_result int_of_str _).
Qed.

(** X7.  The transaction locks never outlive a run.  However [update_history]
    ends (it returns, it raises, or it cannot go on), the lock table is what it
    was when the run started: every lock taken for an entry has been released
    and removed again.  A run can only come to a halt waiting for a transaction
    lock that was already taken when it started; with an empty lock table it
    always returns or raises. *)
Theorem update_history_restores_locks (address : string) (l : Ledger) :
  transaction_processing_locks (snd (update_history address l))
  = transaction_processing_locks l /\
  (forall r, fst (update_history address l) = Stuck r ->
     r = WaitingForLock /\ exists hex_id, hex_id ∈ transaction_processing_locks l) /\
  (transaction_processing_locks l = ∅ -> forall r, fst (update_history address l) <> Stuck r).
Proof.
  destruct (update_history_synced_from address l) as [(Hlocks & _) Hstuck].
  split_and!; [exact Hlocks | exact Hstuck |].
  intros Hempty r Hr. destruct (Hstuck r Hr) as (_ & hex_id & Hheld).
  rewrite Hempty in Hheld. by apply not_elem_of_empty in Hheld.
Qed.

(** X8.  A run of [update_history] for one address never alters what is stored
    for another: however the run ends, the history column of every other
    address is as it was, and so are the local headers. *)
Theorem update_history_touches_one_address (address : string) (l : Ledger) :
  headers (snd (update_history address l)) = headers l /\
  (forall a, a <> address ->
     db_history (snd (update_history address l)) !! a = db_history l !! a).
Proof.
  destruct (update_history_synced_from address l) as [(_ & Hheaders & Hother & _) _].
  by split.
Qed.

(** X9.  Listeners of [on_transaction] hear of exactly what the database
    took.  However the run ends, the events it has published are, in the same
    order, the saves that the database accepted, each with the address,
    transaction, height and verification flag of its save: no event without
    an accepted save, no accepted save without its event, and no event for a
    save that the database refused. *)
Theorem update_history_publishes_what_it_saves (address : string) (l : Ledger) :
  exists new,
    calls (snd (update_history address l)) = calls l ++ new /\
    published new = saved_events (accepted (calls l) new).
Proof.
  destruct (update_history_synced_from address l) as [(_ & _ & _ & Hnew) _]. exact Hnew.
Qed.

(** X10.  An entry whose processing fails is not written and not published.
    When the loop body for an entry raises, the lock taken for the entry is
    released, and the calls made are requests to the network followed by at
    most one save: either no save was attempted (the transaction could not be
    fetched or decoded, the Merkle request or the header lookup failed, the
    address did not decode), or the save itself raised, as the last call, and
    the exception is the one the database raised.  No event is published, and
    the transaction table and the history column are as before. *)
Theorem failed_entry_writes_nothing (address hex_id : string) (remote_height : Z)
    (synced_history : list (string * Z)) (l l' : Ledger) (x : exn) :
  update_history_entry address hex_id remote_height synced_history l = (Raise x, l') ->
  db_tx l' = db_tx l /\ db_history l' = db_history l /\
  transaction_processing_locks l' = transaction_processing_locks l /\
  exists fetched,
    forallb is_request fetched = true /\
    (calls l' = calls l ++ fetched \/
     exists save_tx tx is_verified hash160,
       calls l' = calls l ++ fetched ++
         [SaveTransactionIO save_tx tx remote_height is_verified address hash160
            (history_string synced_history)] /\
       save_failure (calls l') = Some x).
Proof.
  intros Hrun.
  pose proof (update_history_entry_try address hex_id remote_height synced_history l) as H.
  rewrite Hrun in H. destruct H as [_ (fetched & Hreq & Hend)]. simpl in Hend.
  destruct Hend as [-> | (save_tx & tx & v & h160 & Hno & ->)].
  - split_and!; try done. exists fetched. split; [done | by left].
  - split_and!; try done. exists fetched. split; [done|]. right.
    exists save_tx, tx, v, h160. by split.
Qed.

(** ** A returning loop body, step by step *)

Lemma is_valid_transaction_Return tx height l valid l' :
  is_valid_transaction tx height l = (Return valid, l') ->
  (Z.of_nat (length (headers l)) < height /\ valid = false /\ l' = l) \/
  (exists merkle root header,
     get_merkle (tx_id tx) height = Ok merkle /\
     Merkle.get_root_of_merkle_tree double_sha256 (fst merkle) (snd merkle) (tx_hash tx)
       = Ok root /\
     headers l !! Z.to_nat height = Some header /\
     0 <= height < Z.of_nat (length (headers l)) /\
     valid = String.eqb root (merkle_root header) /\
     l' = add_call (GetMerkle (tx_id tx) height) l).
Proof.
  unfold is_valid_transaction. intros H.
  apply bind_Return_inv in H as (hs & l1 & Hhs & H). run_inv Hhs.
  destruct (Z.leb_spec height (Z.of_nat (length (headers l)))) as [Hle | Hgt].
  - right. apply bind_Return_inv in H as (merkle & l2 & Hm & H).
    unfold network_get_merkle in Hm. run_inv Hm.
    apply bind_Return_inv in H as (root & l3 & Hroot & H). run_inv Hroot.
    apply bind_Return_inv in H as (header & l4 & Hheader & H). run_inv H.
    unfold headers_getitem in Hheader.
    apply bind_Return_inv in Hheader as (hs' & l5 & Hhs' & Hheader). run_inv Hhs'.
    change (headers (add_call (GetMerkle (tx_id tx) height) l)) with (headers l) in Hheader.
    destruct ((0 <=? height) && (height <? Z.of_nat (length (headers l)))) eqn:Hrange;
      [|discriminate].
    run_inv Hheader. apply andb_prop in Hrange as [Hlo Hhi].
    apply Z.leb_le in Hlo. apply Z.ltb_lt in Hhi.
    destruct (headers l !! Z.to_nat height) as [header'|] eqn:Hh; [|discriminate].
    injection Hcall1 as ->.
    exists merkle, root, header. by split_and!.
  - left. run_inv H. by split_and!.
Qed.

(** A returning run of the loop body: where the transaction came from, how
    its verification flag and its save mode were arrived at, and the state
    that the run leaves. *)
Lemma update_history_entry_steps address hex_id remote_height synced_history l l' :
  update_history_entry address hex_id remote_height synced_history l = (Return tt, l') ->
  exists tx save0 v save1 hash160 fetched1 fetched2,
    match db_tx l !! hex_id with
    | Some r => transaction_class (rec_raw r) = Ok tx /\ save0 = None /\ fetched1 = []
    | None =>
        (exists _raw decoded,
           get_transaction hex_id = Ok _raw /\ unhexlify _raw = Ok decoded /\
           transaction_class decoded = Ok tx) /\
        save0 = Some Insert /\ fetched1 = [GetTransaction hex_id]
    end /\
    (if (0 <? remote_height) && negb (truthy (stored_is_verified l hex_id)) then
       save1 = Some (default Update save0) /\
       ((Z.of_nat (length (headers l)) < remote_height /\ v = 0 /\ fetched2 = []) \/
        (exists merkle root header,
           get_merkle (tx_id tx) remote_height = Ok merkle /\
           Merkle.get_root_of_merkle_tree double_sha256 (fst merkle) (snd merkle) (tx_hash tx)
             = Ok root /\
           headers l !! Z.to_nat remote_height = Some header /\
           remote_height < Z.of_nat (length (headers l)) /\
           v = (if String.eqb root (merkle_root header) then 1 else 0) /\
           fetched2 = [GetMerkle (tx_id tx) remote_height]))
     else v = stored_is_verified l hex_id /\ save1 = save0 /\ fetched2 = []) /\
    Codec.address_to_hash160 Base58_decode address = Ok hash160 /\
    l' = add_calls [OnTransaction {| ev_address := address; ev_tx := tx;
                                     ev_height := remote_height; ev_is_verified := v |}]
           (write_transaction_io save1 tx remote_height v address
              (history_string synced_history)
              (add_calls
                 (fetched1 ++ fetched2 ++
                  [SaveTransactionIO save1 tx remote_height v address hash160
                     (history_string synced_history)]) l)).
Proof.
  intros H. unfold update_history_entry in H.
  apply bind_Return_inv in H as ([] & l1 & Hacq & H).
  apply lock_acquire_Return_inv in Hacq as [Hfree ->].
  apply try_finally_Return_inv in H as (l2 & Hbody & Hfin).
  apply modify_Return_inv in Hfin. subst l'.
  apply bind_Return_inv in Hbody as ([raw v0] & l3 & Hdb & Hbody).
  apply gets_Return_inv in Hdb as [Hdb ->].
  apply bind_Return_inv in Hbody as ([tx save0] & l4 & Htx & Hbody).
  apply bind_Return_inv in Hbody as ([v save1] & l5 & Hverify & Hbody).
  apply bind_Return_inv in Hbody as (hash160 & l6 & Hh160 & Hbody).
  apply lift_Return_inv in Hh160 as [Hh160 ->].
  apply bind_Return_inv in Hbody as ([] & l7 & Hsave & Hpub).
  apply modify_Return_inv in Hpub. subst l2.
  apply db_save_transaction_io_Return_inv in Hsave as [_ ->].
  set (l1 := set_locks ({[hex_id]} ∪ transaction_processing_locks l) l) in *.
  change (db_tx l1) with (db_tx l) in Hdb.
  assert (Hv0 : v0 = stored_is_verified l hex_id).
  { unfold stored_is_verified. destruct (db_tx l !! hex_id); by injection Hdb as _ ->. }
  subst v0.
  assert (Hfetch : exists fetched1, l4 = add_calls fetched1 l1 /\
            match db_tx l !! hex_id with
            | Some r => transaction_class (rec_raw r) = Ok tx /\ save0 = None /\ fetched1 = []
            | None =>
                (exists _raw decoded,
                   get_transaction hex_id = Ok _raw /\ unhexlify _raw = Ok decoded /\
                   transaction_class decoded = Ok tx) /\
                save0 = Some Insert /\ fetched1 = [GetTransaction hex_id]
            end).
  { destruct (db_tx l !! hex_id) as [r|]; injection Hdb as -> _.
    - run_inv Htx. simplify_eq. exists []. by rewrite add_calls_nil.
    - unfold network_get_transaction in Htx. run_inv Htx. simplify_eq.
      exists [GetTransaction hex_id]. split; [done|]. split; [|done]. eauto. }
  destruct Hfetch as (fetched1 & -> & Hfetch).
  assert (Hcheck : exists fetched2, l5 = add_calls fetched2 (add_calls fetched1 l1) /\
            if (0 <? remote_height) && negb (truthy (stored_is_verified l hex_id)) then
              save1 = Some (default Update save0) /\
              ((Z.of_nat (length (headers l)) < remote_height /\ v = 0 /\ fetched2 = []) \/
               (exists merkle root header,
                  get_merkle (tx_id tx) remote_height = Ok merkle /\
                  Merkle.get_root_of_merkle_tree double_sha256 (fst merkle) (snd merkle)
                    (tx_hash tx) = Ok root /\
                  headers l !! Z.to_nat remote_height = Some header /\
                  remote_height < Z.of_nat (length (headers l)) /\
                  v = (if String.eqb root (merkle_root header) then 1 else 0) /\
                  fetched2 = [GetMerkle (tx_id tx) remote_height]))
            else v = stored_is_verified l hex_id /\ save1 = save0 /\ fetched2 = []).
  { destruct ((0 <? remote_height) && negb (truthy (stored_is_verified l hex_id))).
    - apply bind_Return_inv in Hverify as (valid & l5' & Hvalid & Hverify).
      run_inv Hverify. injection Hret as -> ->.
      apply is_valid_transaction_Return in Hvalid
        as [(Hgt & -> & ->) | (merkle & root & header & Hm & Hr & Hh & Hrange & -> & ->)].
      + exists []. rewrite add_calls_nil. split; [done|]. split; [by destruct save0|].
        left. by split_and!.
      + exists [GetMerkle (tx_id tx) remote_height]. split; [done|].
        split; [by destruct save0|]. right. exists merkle, root, header.
        simpl in Hh, Hrange. split_and!; try done. lia.
    - run_inv Hverify. injection Hret as -> ->. exists []. by rewrite add_calls_nil. }
  destruct Hcheck as (fetched2 & -> & Hcheck).
  exists tx, save0, v, save1, hash160, fetched1, fetched2.
  split_and!; try done.
  unfold write_transaction_io, add_calls, add_call, set_locks, set_db. simpl.
  rewrite (locks_restored hex_id) by done. by rewrite <- !app_assoc.
Qed.

(** X11.  A transaction stored as verified is processed offline.  When the
    database already holds the transaction with a true [is_verified], the
    loop body makes no request at all (no download, no Merkle proof, whatever
    the height the server reports): it saves with mode [None] and the stored
    flag, publishes the event, and leaves the transaction table as it was. *)
Theorem verified_transaction_processed_offline (address hex_id : string)
    (remote_height : Z) (synced_history : list (string * Z)) (l l' : Ledger) :
  truthy (stored_is_verified l hex_id) = true ->
  update_history_entry address hex_id remote_height synced_history l = (Return tt, l') ->
  db_tx l' = db_tx l /\
  exists tx hash160,
    calls l' = calls l ++
      [SaveTransactionIO None tx remote_height (stored_is_verified l hex_id) address hash160
         (history_string synced_history);
       OnTransaction {| ev_address := address; ev_tx := tx; ev_height := remote_height;
                        ev_is_verified := stored_is_verified l hex_id |}].
Proof.
  intros Hverified Hrun.
  apply update_history_entry_steps in Hrun
    as (tx & save0 & v & save1 & h160 & fetched1 & fetched2 & Hfetch & Hcheck & _ & ->).
  rewrite Hverified, andb_false_r in Hcheck. destruct Hcheck as (-> & -> & ->).
  unfold stored_is_verified in Hverified, Hfetch.
  destruct (db_tx l !! hex_id) as [r|]; [|discriminate].
  destruct Hfetch as (_ & -> & ->). simpl. split; [done|].
  exists tx, h160. by rewrite <- app_assoc.
Qed.

(** X12.  A transaction above the local headers is stored unverified.  When the
    server reports a height beyond [len(headers)] for a transaction that is
    not yet verified, no Merkle proof is asked for: the transaction is saved
    and published with [is_verified = 0], inserted if it was unknown and
    updated otherwise. *)
Theorem transaction_above_headers_saved_unverified (address hex_id : string)
    (remote_height : Z) (synced_history : list (string * Z)) (l l' : Ledger) :
  Z.of_nat (length (headers l)) < remote_height ->
  truthy (stored_is_verified l hex_id) = false ->
  update_history_entry address hex_id remote_height synced_history l = (Return tt, l') ->
  exists tx hash160 fetched,
    calls l' = calls l ++ fetched ++
      [SaveTransactionIO
         (Some match db_tx l !! hex_id with Some _ => Update | None => Insert end)
         tx remote_height 0 address hash160 (history_string synced_history);
       OnTransaction {| ev_address := address; ev_tx := tx; ev_height := remote_height;
                        ev_is_verified := 0 |}] /\
    existsb is_merkle_request fetched = false.
Proof.
  intros Habove Hunverified Hrun.
  apply update_history_entry_steps in Hrun
    as (tx & save0 & v & save1 & h160 & fetched1 & fetched2 & Hfetch & Hcheck & _ & ->).
  rewrite Hunverified in Hcheck.
  replace (0 <? remote_height) with true in Hcheck by (symmetry; apply Z.ltb_lt; lia).
  simpl in Hcheck.
  destruct Hcheck as (-> & [(_ & -> & ->) | (? & ? & ? & _ & _ & _ & Hbelow & _)]); [|lia].
  exists tx, h160, fetched1. simpl. rewrite <- !app_assoc.
  destruct (db_tx l !! hex_id) as [r|].
  - destruct Hfetch as (_ & -> & ->). by split.
  - destruct Hfetch as (_ & -> & ->). by split.
Qed.

(** X13.  The verification flag is sound.  For a transaction that is not stored
    as verified, the loop body saves and publishes [is_verified = 1] only when
    it has asked the server for the Merkle branch at the reported height and
    the root recomputed from that branch and the transaction's hash is the
    [merkle_root] of the local header at that height; in every other returning
    run the flag saved and published is 0. *)
Theorem verified_flag_needs_checked_proof (address hex_id : string)
    (remote_height : Z) (synced_history : list (string * Z)) (l l' : Ledger) :
  truthy (stored_is_verified l hex_id) = false ->
  update_history_entry address hex_id remote_height synced_history l = (Return tt, l') ->
  exists save_tx tx v hash160 fetched,
    calls l' = calls l ++ fetched ++
      [SaveTransactionIO save_tx tx remote_height v address hash160
         (history_string synced_history);
       OnTransaction {| ev_address := address; ev_tx := tx; ev_height := remote_height;
                        ev_is_verified := v |}] /\
    (v = 0 \/
     (v = 1 /\ GetMerkle (tx_id tx) remote_height ∈ fetched /\
      exists merkle header,
        get_merkle (tx_id tx) remote_height = Ok merkle /\
        Merkle.get_root_of_merkle_tree double_sha256 (fst merkle) (snd merkle) (tx_hash tx)
          = Ok (merkle_root header) /\
        headers l !! Z.to_nat remote_height = Some header /\
        0 < remote_height < Z.of_nat (length (headers l)))).
Proof.
  intros Hunverified Hrun.
  apply update_history_entry_steps in Hrun
    as (tx & save0 & v & save1 & h160 & fetched1 & fetched2 & Hfetch & Hcheck & _ & ->).
  exists save1, tx, v, h160, (fetched1 ++ fetched2).
  split; [simpl; by rewrite <- !app_assoc|].
  rewrite Hunverified in Hcheck. simpl in Hcheck. rewrite andb_true_r in Hcheck.
  destruct (Z.ltb_spec 0 remote_height) as [Hpos | Hnonpos].
  - destruct Hcheck
      as (_ & [(_ & -> & _) | (merkle & root & header & Hm & Hr & Hh & Hlt & -> & ->)]);
      [by left|].
    destruct (String.eqb_spec root (merkle_root header)) as [-> | _]; [|by left].
    right. split; [done|]. split.
    + apply elem_of_app. right. apply list_elem_of_here.
    + exists merkle, header. by split_and!.
  - destruct Hcheck as (-> & _). left.
    unfold truthy in Hunverified. apply negb_false_iff, Z.eqb_eq in Hunverified. done.
Qed.

Lemma split_history_string_trailing remote trailing :
  Forall colon_free remote -> contains ":" trailing = false ->
  drop_last (split ":" (history_string remote +:+ trailing))
  = flat_map (fun entry => [fst entry; str_of_int (snd entry)]) remote.
Proof.
  intros Hids Htrailing. induction Hids as [|entry rest Hentry _ IH].
  - change (history_string [] +:+ trailing) with trailing.
    by rewrite split_no_sep.
  - replace (history_string (entry :: rest) +:+ trailing)
      with (fst entry +:+ String ":" (str_of_int (snd entry)
              +:+ String ":" (history_string rest +:+ trailing))).
    2: { rewrite history_string_cons, append_assoc. f_equal.
         change (String ":" ?x +:+ ?y) with (String ":" (x +:+ y)). f_equal.
         by rewrite append_assoc. }
    rewrite split_app_sep by exact Hentry.
    rewrite split_app_sep by apply contains_str_of_int.
    rewrite drop_last_cons2 by apply split_nonempty.
    simpl. by rewrite IH.
Qed.

(** X14.  The history column round trip.  The text that [update_history] stores
    for a list of (txid, height) pairs (line 324) is read back by
    [get_local_history] as that list, heights of any sign included, provided
    no txid contains [':']; text that follows the last [':'] of the column is
    ignored.  The read changes nothing. *)
Theorem get_local_history_reads_back (address : string) (remote : list (string * Z))
    (trailing : string) (l : Ledger) :
  Forall colon_free remote -> contains ":" trailing = false ->
  db_history l !! address = Some (Some (history_string remote +:+ trailing)) ->
  get_local_history address l = (Return remote, l).
Proof.
  intros Hids Htrailing Hcolumn.
  unfold get_local_history, bind, db_get_address, gets. rewrite Hcolumn. simpl.
  rewrite split_history_string_trailing by assumption.
  destruct (stride2_flat_map remote) as [-> ->].
  rewrite map_result_int_of_str. simpl. unfold ret. do 2 f_equal. apply zip_fst_snd.
Qed.

End WithCollaborators.

(** ** Concrete ledgers *)

(** A decoder that takes the id and the hash of a transaction from its raw
    bytes, a server with a fixed history whose transactions are their own
    ids, and the identity as hash function. *)
Definition sample_transaction_class (raw : bytes) : result Transaction :=
  Ok {| tx_id := hexlify raw; tx_hash := rev raw; tx_raw := raw |}.

Definition sample_get_transaction (txid : string) : result string := Ok txid.

Definition sample_get_merkle (txid : string) (height : Z) : result (list string * Z) :=
  Ok ([], 0).

(** A database that accepts every save. *)
Definition no_failure (cs : list call) : option exn := None.

Definition sample_row (raw : bytes) (is_verified : Z) : TransactionRecord :=
  {| rec_raw := raw; rec_height := 0; rec_is_verified := is_verified |}.

Definition sample_ledger (rows : gmap string TransactionRecord) (history : string) : Ledger :=
  {| db_tx := rows;
     db_history := {["115R" := Some history]};
     headers := [];
     transaction_processing_locks := ∅;
     calls := [] |}.

Definition sample_update_history (remote : list (string * Z)) : M Ledger unit :=
  update_history (fun _ => Ok remote) sample_get_transaction sample_get_merkle
    sample_transaction_class (fun b => b) Base58.decode no_failure "115R".

(** Two unconfirmed transactions are known locally; the server now reports
    the first one confirmed at height 5. *)
Definition confirmed_remote : list (string * Z) := [("aa", 5); ("bb", 0)].

Definition before_confirmation : Ledger :=
  sample_ledger (<["aa" := sample_row [xaa] 0]> {["bb" := sample_row [xbb] 0]}) "aa:0:bb:0:".

Definition after_first_run : Ledger :=
  snd (sample_update_history confirmed_remote before_confirmation).

Definition after_second_run : Ledger :=
  snd (sample_update_history confirmed_remote after_first_run).

Definition sample_tx (raw : bytes) : Transaction :=
  {| tx_id := hexlify raw; tx_hash := rev raw; tx_raw := raw |}.

(** C7.  The first run saves the first entry only (the second one matches
    the local history and is skipped), so it leaves the history column at
    ["aa:5:"]; the second run, with the remote history unchanged, then finds no
    local entry at index 1, saves and publishes. *)
Theorem update_history_second_run_not_silent :
  sample_update_history confirmed_remote before_confirmation = (Return tt, after_first_run) /\
  db_history after_first_run !! "115R" = Some (Some "aa:5:") /\
  history_string confirmed_remote = "aa:5:bb:0:" /\
  sample_update_history confirmed_remote after_first_run = (Return tt, after_second_run) /\
  calls after_second_run =
    calls after_first_run ++
    [GetHistory "115R";
     SaveTransactionIO None (sample_tx [xbb]) 0 0 "115R" [x00; x01; x00] "aa:5:bb:0:";
     OnTransaction {| ev_address := "115R"; ev_tx := sample_tx [xbb];
                      ev_height := 0; ev_is_verified := 0 |}].
Proof. vm_compute. auto. Qed.

(** C1 (amended) at the second run: its only save writes both entries, and
    its last entry is processed, so the stored history is the whole remote
    list. *)
Lemma update_history_writes_prefixes_witness :
  saved_histories (calls after_second_run) =
    saved_histories (calls after_first_run) ++ ["aa:5:bb:0:"] /\
  db_history after_second_run !! "115R" = Some (Some (history_string confirmed_remote)).
Proof.
  destruct (update_history_writes_prefixes
              (fun _ => Ok confirmed_remote) sample_get_transaction sample_get_merkle
              sample_transaction_class (fun b => b) Base58.decode no_failure
              "115R" confirmed_remote [("aa", 5)] after_first_run after_second_run)
    as (Hsaved & Hstored & _).
  - reflexivity.
  - vm_compute. reflexivity.
  - vm_compute. reflexivity.
  - split.
    + exact Hsaved.
    + apply (Hstored ("bb", 0)); reflexivity.
Defined.

(** The server reports an empty history for an address whose stored history
    has one entry: nothing is written.  And in the run on
    [before_confirmation] the only save is the one for entry 0, so the stored
    history ends one entry short of the remote list. *)
Definition with_one_entry : Ledger := sample_ledger {["aa" := sample_row [xaa] 1]} "aa:5:".

(** C1 as stated fails at both inputs: the run returns and the stored
    history is not the concatenation over the remote list; with the empty
    remote list no string at all is written. *)
Lemma update_history_stored_history_not_remote :
  (fst (sample_update_history [] with_one_entry) = Return tt /\
   saved_histories (calls (snd (sample_update_history [] with_one_entry))) = [] /\
   db_history (snd (sample_update_history [] with_one_entry)) !! "115R" = Some (Some "aa:5:") /\
   db_history (snd (sample_update_history [] with_one_entry)) !! "115R"
     <> Some (Some (history_string []))) /\
  (fst (sample_update_history confirmed_remote before_confirmation) = Return tt /\
   saved_histories (calls after_first_run) = ["aa:5:"] /\
   db_history after_first_run !! "115R" = Some (Some "aa:5:") /\
   db_history after_first_run !! "115R" <> Some (Some (history_string confirmed_remote))).
Proof. vm_compute. split_and!; try reflexivity; discriminate. Qed.

(** A transaction stored as verified comes back from the server at
    height 0. *)
Definition verified_locally : Ledger := sample_ledger {["aa" := sample_row [xaa] 1]} "".

(** C6 as stated fails here: the entry of height 0 is saved and published
    with [is_verified = 1]. *)
Lemma unconfirmed_entry_published_as_verified :
  sample_update_history [("aa", 0)] verified_locally
  = (Return tt,
     {| db_tx := {["aa" := sample_row [xaa] 1]};
        db_history := {["115R" := Some "aa:0:"]};
        headers := [];
        transaction_processing_locks := ∅;
        calls := [GetHistory "115R";
                  SaveTransactionIO None (sample_tx [xaa]) 0 1 "115R" [x00; x01; x00] "aa:0:";
                  OnTransaction {| ev_address := "115R"; ev_tx := sample_tx [xaa];
                                   ev_height := 0; ev_is_verified := 1 |}] |}).
Proof. vm_compute. reflexivity. Qed.

(** C6 (amended) at the entry of height 0 that the second run processes. *)
Lemma unconfirmed_entry_keeps_stored_flag_witness :
  exists tx save_tx hash160 fetched,
    calls after_second_run = calls (add_call (GetHistory "115R") after_first_run) ++ fetched ++
      [SaveTransactionIO save_tx tx 0 0 "115R" hash160 "aa:5:bb:0:";
       OnTransaction {| ev_address := "115R"; ev_tx := tx; ev_height := 0;
                        ev_is_verified := 0 |}] /\
    existsb is_merkle_request fetched = false.
Proof.
  destruct (unconfirmed_entry_keeps_stored_flag
              sample_get_transaction sample_get_merkle sample_transaction_class
              (fun b => b) Base58.decode no_failure "115R" "bb" confirmed_remote
              (add_call (GetHistory "115R") after_first_run) after_second_run)
    as ((tx & save_tx & hash160 & fetched & Hcalls & _ & Hmerkle & _) & _ & _).
  - vm_compute. reflexivity.
  - exists tx, save_tx, hash160, fetched. split; [exact Hcalls | exact Hmerkle].
Defined.

(** ** The loop body at single entries *)

Definition sample_update_history_entry (hex_id : string) (remote_height : Z)
    (synced_history : list (string * Z)) : M Ledger unit :=
  update_history_entry sample_get_transaction sample_get_merkle sample_transaction_class
    (fun b => b) Base58.decode no_failure "115R" hex_id remote_height synced_history.

(** The server now reports height 5 for the transaction that
    [verified_locally] holds as verified. *)
Lemma verified_transaction_processed_offline_witness :
  db_tx (snd (sample_update_history_entry "aa" 5 [("aa", 5)] verified_locally))
  = db_tx verified_locally /\
  exists tx hash160,
    calls (snd (sample_update_history_entry "aa" 5 [("aa", 5)] verified_locally))
    = [SaveTransactionIO None tx 5 1 "115R" hash160 "aa:5:";
       OnTransaction {| ev_address := "115R"; ev_tx := tx; ev_height := 5;
                        ev_is_verified := 1 |}].
Proof.
  apply (verified_transaction_processed_offline
           sample_get_transaction sample_get_merkle sample_transaction_class
           (fun b => b) Base58.decode no_failure "115R" "aa" 5 [("aa", 5)] verified_locally).
  - reflexivity.
  - vm_compute. reflexivity.
Defined.

(** [before_confirmation] has no header, and the server reports height 5
    for its unverified transaction: the row is updated, with flag 0. *)
Lemma transaction_above_headers_saved_unverified_witness :
  exists tx hash160 fetched,
    calls (snd (sample_update_history_entry "aa" 5 [("aa", 5)] before_confirmation))
    = [] ++ fetched ++
      [SaveTransactionIO (Some Update) tx 5 0 "115R" hash160 "aa:5:";
       OnTransaction {| ev_address := "115R"; ev_tx := tx; ev_height := 5;
                        ev_is_verified := 0 |}] /\
    existsb is_merkle_request fetched = false.
Proof.
  apply (transaction_above_headers_saved_unverified
           sample_get_transaction sample_get_merkle sample_transaction_class
           (fun b => b) Base58.decode no_failure "115R" "aa" 5 [("aa", 5)] before_confirmation).
  - reflexivity.
  - reflexivity.
  - vm_compute. reflexivity.
Defined.

(** Two local headers; the second one has the Merkle root of a block whose
    only transaction is [aa], which the ledger holds unverified. *)
Definition with_headers : Ledger :=
  {| db_tx := {["aa" := sample_row [xaa] 0]};
     db_history := {["115R" := Some "aa:0:"]};
     headers := [{| merkle_root := "00" |}; {| merkle_root := "aa" |}];
     transaction_processing_locks := ∅;
     calls := [] |}.

(** At height 1 the run saves flag 1, so the proof has been asked for and
    its root is the [merkle_root] of the header at height 1. *)
Lemma verified_flag_needs_checked_proof_witness :
  calls (snd (sample_update_history_entry "aa" 1 [("aa", 1)] with_headers))
  = [GetMerkle "aa" 1;
     SaveTransactionIO (Some Update) (sample_tx [xaa]) 1 1 "115R" [x00; x01; x00] "aa:1:";
     OnTransaction {| ev_address := "115R"; ev_tx := sample_tx [xaa]; ev_height := 1;
                      ev_is_verified := 1 |}] /\
  exists tx merkle header,
    sample_get_merkle (tx_id tx) 1 = Ok merkle /\
    Merkle.get_root_of_merkle_tree (fun b => b) (fst merkle) (snd merkle) (tx_hash tx)
      = Ok (merkle_root header) /\
    headers with_headers !! Z.to_nat 1 = Some header.
Proof.
  assert (Hrun : calls (snd (sample_update_history_entry "aa" 1 [("aa", 1)] with_headers))
            = [GetMerkle "aa" 1;
               SaveTransactionIO (Some Update) (sample_tx [xaa]) 1 1 "115R" [x00; x01; x00]
                 "aa:1:";
               OnTransaction {| ev_address := "115R"; ev_tx := sample_tx [xaa];
                                ev_height := 1; ev_is_verified := 1 |}])
    by (vm_compute; reflexivity).
  split; [exact Hrun|].
  destruct (verified_flag_needs_checked_proof
              sample_get_transaction sample_get_merkle sample_transaction_class
              (fun b => b) Base58.decode no_failure "115R" "aa" 1 [("aa", 1)] with_headers
              (snd (sample_update_history_entry "aa" 1 [("aa", 1)] with_headers)))
    as (save_tx & tx & v & hash160 & fetched & Hcalls & Hflag).
  - reflexivity.
  - vm_compute. reflexivity.
  - rewrite Hrun in Hcalls. apply (f_equal last) in Hcalls.
    change (calls with_headers ++ ?x) with x in Hcalls.
    rewrite last_app_cons in Hcalls. injection Hcalls as _ Hv.
    destruct Hflag as [-> | (_ & _ & merkle & header & Hm & Hr & Hh & _)]; [discriminate|].
    by exists tx, merkle, header.
Defined.

(** A database that refuses every save. *)
Definition refuse_all (cs : list call) : option exn := Some DatabaseError.

(** The transaction [cc] is fetched and decoded, and the database refuses
    to save it: the save is the last call, nothing is published, and the
    table and the history column are as they were. *)
Lemma failed_entry_writes_nothing_witness :
  update_history_entry sample_get_transaction sample_get_merkle sample_transaction_class
    (fun b => b) Base58.decode refuse_all "115R" "cc" 0 [("cc", 0)] (sample_ledger ∅ "")
  = (Raise DatabaseError,
     add_calls [GetTransaction "cc";
                SaveTransactionIO (Some Insert) (sample_tx [xcc]) 0 0 "115R" [x00; x01; x00]
                  "cc:0:"]
       (sample_ledger ∅ "")) /\
  exists fetched,
    forallb is_request fetched = true /\
    exists save_tx tx is_verified hash160,
      [GetTransaction "cc";
       SaveTransactionIO (Some Insert) (sample_tx [xcc]) 0 0 "115R" [x00; x01; x00] "cc:0:"]
      = fetched ++ [SaveTransactionIO save_tx tx 0 is_verified "115R" hash160 "cc:0:"].
Proof.
  assert (Hrun : update_history_entry sample_get_transaction sample_get_merkle
                   sample_transaction_class (fun b => b) Base58.decode refuse_all
                   "115R" "cc" 0 [("cc", 0)] (sample_ledger ∅ "")
                 = (Raise DatabaseError,
                    add_calls [GetTransaction "cc";
                               SaveTransactionIO (Some Insert) (sample_tx [xcc]) 0 0 "115R"
                                 [x00; x01; x00] "cc:0:"]
                      (sample_ledger ∅ "")))
    by (vm_compute; reflexivity).
  split; [exact Hrun|].
  destruct (failed_entry_writes_nothing
              sample_get_transaction sample_get_merkle sample_transaction_class
              (fun b => b) Base58.decode refuse_all "115R" "cc" 0 [("cc", 0)]
              (sample_ledger ∅ "") _ _ Hrun) as (_ & _ & _ & fetched & Hreq & Hcalls).
  exists fetched. split; [exact Hreq|].
  destruct Hcalls as [Hcalls | (save_tx & tx & v & h160 & Hcalls & _)].
  - exfalso. simpl in Hcalls. rewrite <- Hcalls in Hreq. discriminate.
  - exists save_tx, tx, v, h160. exact Hcalls.
Defined.

(** A column with a negative height and with text after its last colon. *)
Definition with_trailing_text : Ledger := sample_ledger ∅ "aa:5:bb:-1:cc".

Lemma get_local_history_reads_back_witness :
  get_local_history "115R" with_trailing_text
  = (Return [("aa", 5); ("bb", -1)], with_trailing_text).
Proof.
  apply (get_local_history_reads_back "115R" [("aa", 5); ("bb", -1)] "cc").
  - by repeat constructor.
  - reflexivity.
  - reflexivity.
Defined.

End Sync.

(* ===================================================================== *)
(** * Stored transactions (baseledger.py, lines 134-138)                   *)
(* ===================================================================== *)

Module Lookup.

Import Sync.

Section WithDecoder.

(** The transaction decoder, and for the loop body of [update_history] the
    answers of the network, the functions of [torba.hash] and the database's
    verdict on a save. *)
Variable transaction_class : bytes -> result Transaction.
Variable network_transaction : string -> result string.
Variable network_merkle : string -> Z -> result (list string * Z).
Variable double_sha256 : bytes -> bytes.
Variable Base58_decode : string -> result bytes.
Variable save_failure : list call -> option exn.

(** [BaseLedger.get_transaction]: the decoded transaction when the database
    has its raw bytes, [None] otherwise. *)
Definition get_transaction (txhash : string) : M Ledger (option Transaction) :=
  let* (raw, _) := db_get_transaction txhash in
  match raw with
  | Some raw =>
      let* tx := lift (transaction_class raw) in
      ret (Some tx)
  | None => ret None
  end.

(** What is expected of the decoder and of the server for [hex_id]: a
    decoded transaction keeps the bytes it was decoded from, and the
    transaction that the server sends for [hex_id] has that id. *)
Definition keeps_raw : Prop :=
  forall raw tx, transaction_class raw = Ok tx -> tx_raw tx = raw.

Definition serves (hex_id : string) : Prop :=
  forall _raw decoded tx,
    network_transaction hex_id = Ok _raw -> unhexlify _raw = Ok decoded ->
    transaction_class decoded = Ok tx -> tx_id tx = hex_id.

(** X15.  What [update_history] has processed, [get_transaction] returns.  After
    the loop body has returned for [hex_id], whether the transaction was
    fetched from the server or was already stored, [get_transaction(hex_id)]
    finds it in the database and returns the very transaction that the run
    has published, without contacting the network. *)
Theorem processed_transaction_is_read_back (address hex_id : string) (remote_height : Z)
    (synced_history : list (string * Z)) (l l' : Ledger) :
  keeps_raw -> serves hex_id ->
  update_history_entry network_transaction network_merkle transaction_class double_sha256
    Base58_decode save_failure address hex_id remote_height synced_history l
    = (Return tt, l') ->
  exists tx is_verified,
    get_transaction hex_id l' = (Return (Some tx), l') /\
    last (published (calls l')) =
      Some {| ev_address := address; ev_tx := tx; ev_height := remote_height;
              ev_is_verified := is_verified |}.
Proof.
  intros Hraw Hserves Hrun.
  apply update_history_entry_steps in Hrun
    as (tx & save0 & v & save1 & h160 & fetched1 & fetched2 & Hfetch & Hcheck & _ & ->).
  exists tx, v.
  assert (Hrow : exists r,
            db_tx (write_transaction_io save1 tx remote_height v address
                     (history_string synced_history)
                     (add_calls
                        (fetched1 ++ fetched2 ++
                         [SaveTransactionIO save1 tx remote_height v address h160
                            (history_string synced_history)]) l))
              !! hex_id = Some r /\
            transaction_class (rec_raw r) = Ok tx).
  { unfold write_transaction_io. simpl.
    destruct (db_tx l !! hex_id) as [r|] eqn:Hdb.
    - destruct Hfetch as (Htx & -> & _).
      destruct ((0 <? remote_height) && negb (truthy (stored_is_verified l hex_id))) eqn:Hcond.
      + destruct Hcheck as [-> _]. simpl.
        destruct (decide (tx_id tx = hex_id)) as [Heq | Hne].
        * rewrite Heq, lookup_alter_eq, Hdb. simpl. eauto.
        * rewrite lookup_alter_ne, Hdb by done. eauto.
      + destruct Hcheck as (-> & -> & _). simpl. rewrite Hdb. eauto.
    - destruct Hfetch as ((_raw & decoded & Hnet & Hhex & Htx) & -> & _).
      pose proof (Hserves _ _ _ Hnet Hhex Htx) as Hid.
      pose proof (Hraw _ _ Htx) as Hkept.
      assert (save1 = Some Insert) as ->.
      { destruct (_ && _); [by destruct Hcheck as [-> _] | by destruct Hcheck as (_ & -> & _)]. }
      simpl. rewrite Hid, lookup_insert_eq. eexists. split; [done|]. simpl.
      by rewrite Hkept. }
  destruct Hrow as (r & Hlookup & Htx).
  split.
  - unfold get_transaction, bind, db_get_transaction, gets, lift. simpl in *.
    rewrite Hlookup. simpl. rewrite Htx. reflexivity.
  - simpl. unfold published. rewrite !omap_app. simpl. by rewrite last_snoc.
Qed.

End WithDecoder.

(** A transaction that the ledger does not hold is fetched, stored and read
    back. *)
Lemma sample_keeps_raw : keeps_raw sample_transaction_class.
Proof. intros raw tx [= <-]. reflexivity. Qed.

Lemma sample_serves : serves sample_transaction_class sample_get_transaction "cc".
Proof.
  intros _raw decoded tx [= <-] Hhex Htx. vm_compute in Hhex. injection Hhex as <-.
  injection Htx as <-. reflexivity.
Qed.

Lemma processed_transaction_is_read_back_witness :
  exists tx is_verified,
    get_transaction sample_transaction_class "cc"
      (snd (sample_update_history_entry "cc" 0 [("cc", 0)] (sample_ledger ∅ "")))
    = (Return (Some tx),
       snd (sample_update_history_entry "cc" 0 [("cc", 0)] (sample_ledger ∅ ""))) /\
    last (published
            (calls (snd (sample_update_history_entry "cc" 0 [("cc", 0)] (sample_ledger ∅ "")))))
    = Some {| ev_address := "115R"; ev_tx := tx; ev_height := 0;
              ev_is_verified := is_verified |}.
Proof.
  apply (processed_transaction_is_read_back sample_transaction_class sample_get_transaction
           sample_get_merkle (fun b => b) Base58.decode no_failure "115R" "cc" 0 [("cc", 0)]
           (sample_ledger ∅ "") _ sample_keeps_raw sample_serves).
  vm_compute. reflexivity.
Defined.

End Lookup.

(* ===================================================================== *)
(** * Address status (baseledger.py, lines 184-189 and 343-355)            *)
(* ===================================================================== *)

Module Status.

Import Sync.

Section WithNetwork.

(** The collaborators of [update_history], [torba.hash.sha256], and the
    status that the server answers to [network.subscribe_address(address)].
    The subscription itself is kept by the network object; it is not part of
    the ledger's state. *)
Variable get_history : string -> result (list (string * Z)).
Variable get_transaction : string -> result string.
Variable get_merkle : string -> Z -> result (list string * Z).
Variable transaction_class : bytes -> result Transaction.
Variable double_sha256 : bytes -> bytes.
Variable Base58_decode : string -> result bytes.
Variable save_failure : list call -> option exn.
Variable sha256 : bytes -> bytes.
Variable subscribe_address : string -> result text_value.

(** [BaseLedger.get_local_status]: [hexlify] returns a [bytes] object. *)
Definition get_local_status (address : string) : M Ledger text_value :=
  let* address_details := db_get_address address in
  match address_details with
  | None => raise TypeError
  | Some column =>
      let history := default "" column in
      let h := sha256 (encode history) in
      ret (BytesValue (hexlify h))
  end.

(** The tail that [subscribe_history] and [process_status] share
    (lines 346-348 and 353-355). *)
Definition update_if_changed (address : string) (remote_status : text_value)
    : M Ledger unit :=
  let* local_status := get_local_status address in
  if negb (bool_decide (local_status = remote_status)) then
    update_history get_history get_transaction get_merkle transaction_class double_sha256
      Base58_decode save_failure address
  else ret tt.

(** [BaseLedger.subscribe_history] *)
Definition subscribe_history (address : string) : M Ledger unit :=
  let* remote_status := lift (subscribe_address address) in
  update_if_changed address remote_status.

(** [BaseLedger.process_status] *)
Definition process_status (response : string * text_value) : M Ledger unit :=
  let (address, remote_status) := response in
  update_if_changed address remote_status.

(** The status of a stored history column. *)
Definition status_of (history : string) : text_value :=
  BytesValue (hexlify (sha256 (encode history))).

Lemma get_local_status_column address column l :
  db_history l !! address = Some column ->
  get_local_status address l = (Return (status_of (default "" column)), l).
Proof.
  intros Hcolumn. unfold get_local_status, bind, db_get_address, gets. by rewrite Hcolumn.
Qed.

(** X16.  A complete sync settles the status.  After a returning run of
    [update_history] that has processed the last entry of a non-empty remote
    history, the local status is the hexadecimal SHA-256 digest, as [bytes],
    of the server's history written as [txid:height:] for each entry; a status
    notification or a subscription answer that carries this value triggers no
    further sync and leaves the ledger as it is. *)
Theorem status_after_complete_sync (address : string)
    (remote local_history : list (string * Z)) (l l1 : Ledger) :
  get_history address = Ok remote ->
  get_local_history address l = (Return local_history, l) ->
  update_history get_history get_transaction get_merkle transaction_class double_sha256
    Base58_decode save_failure address l = (Return tt, l1) ->
  (forall entry, last remote = Some entry ->
     already_synced local_history (length remote - 1) entry = false) ->
  remote <> [] ->
  get_local_status address l1 = (Return (status_of (history_string remote)), l1) /\
  process_status (address, status_of (history_string remote)) l1 = (Return tt, l1) /\
  (subscribe_address address = Ok (status_of (history_string remote)) ->
   subscribe_history address l1 = (Return tt, l1)).
Proof.
  intros Hremote Hlocal Hrun Hlast Hne.
  pose proof (update_history_stores_remote _ _ _ _ _ _ _ _ _ _ _ _
                Hremote Hlocal Hrun Hlast Hne) as Hcolumn.
  pose proof (get_local_status_column _ _ _ Hcolumn) as Hstatus. simpl in Hstatus.
  assert (Hsame : update_if_changed address (status_of (history_string remote)) l1
                  = (Return tt, l1)).
  { unfold update_if_changed, bind. rewrite Hstatus.
    by rewrite bool_decide_eq_true_2. }
  split_and!; [exact Hstatus | exact Hsame |].
  intros Hanswer. unfold subscribe_history, bind, lift. rewrite Hanswer. exact Hsame.
Qed.

(** X17.  Only an equal [bytes] status suppresses a sync.  For an address with a
    row, [process_status] does nothing when the pushed status is the [bytes]
    object equal to the local digest; for every other pushed value it runs
    [update_history]: in particular for the same digest text as a [str], and
    for [None].  For an address without a row it raises [TypeError] and makes
    no request. *)
Theorem process_status_compares_bytes (address : string) (l : Ledger) :
  (forall column, db_history l !! address = Some column ->
     process_status (address, status_of (default "" column)) l = (Return tt, l) /\
     (forall remote_status, remote_status <> status_of (default "" column) ->
        process_status (address, remote_status) l
        = update_history get_history get_transaction get_merkle transaction_class
            double_sha256 Base58_decode save_failure address l) /\
     (forall text,
        process_status (address, StrValue text) l
        = update_history get_history get_transaction get_merkle transaction_class
            double_sha256 Base58_decode save_failure address l) /\
     process_status (address, NoneValue) l
     = update_history get_history get_transaction get_merkle transaction_class
         double_sha256 Base58_decode save_failure address l) /\
  (db_history l !! address = None ->
   forall remote_status, process_status (address, remote_status) l = (Raise TypeError, l)).
Proof.
  split.
  - intros column Hcolumn.
    pose proof (get_local_status_column _ _ _ Hcolumn) as Hstatus.
    assert (Hother : forall remote_status, remote_status <> status_of (default "" column) ->
              process_status (address, remote_status) l
              = update_history get_history get_transaction get_merkle transaction_class
                  double_sha256 Base58_decode save_failure address l).
    { intros remote_status Hne. unfold process_status, update_if_changed, bind.
      rewrite Hstatus. rewrite bool_decide_eq_false_2 by congruence. reflexivity. }
    split_and!.
    + unfold process_status, update_if_changed, bind. rewrite Hstatus.
      by rewrite bool_decide_eq_true_2.
    + exact Hother.
    + intros text. by apply Hother.
    + by apply Hother.
  - intros Hnone remote_status.
    unfold process_status, update_if_changed, bind, get_local_status, bind,
      db_get_address, gets.
    by rewrite Hnone.
Qed.

End WithNetwork.

(** The second run on [before_confirmation] has processed the last entry of
    the server's history; a stand-in for SHA-256 that reverses its input. *)
Definition sample_sha256 (b : bytes) : bytes := rev b.

Lemma status_after_complete_sync_witness :
  get_local_status sample_sha256 "115R" after_second_run
  = (Return (status_of sample_sha256 "aa:5:bb:0:"), after_second_run) /\
  process_status (fun _ => Ok confirmed_remote) sample_get_transaction sample_get_merkle
    sample_transaction_class (fun b => b) Base58.decode no_failure sample_sha256
    ("115R", status_of sample_sha256 "aa:5:bb:0:") after_second_run
  = (Return tt, after_second_run).
Proof.
  destruct (status_after_complete_sync
              (fun _ => Ok confirmed_remote) sample_get_transaction sample_get_merkle
              sample_transaction_class (fun b => b) Base58.decode no_failure sample_sha256
              (fun _ => Ok NoneValue)
              "115R" confirmed_remote [("aa", 5)] after_first_run after_second_run)
    as (Hstatus & Hpush & _).
  - reflexivity.
  - vm_compute. reflexivity.
  - vm_compute. reflexivity.
  - intros entry [= <-]. reflexivity.
  - discriminate.
  - split; [exact Hstatus | exact Hpush].
Defined.

End Status.

(* ===================================================================== *)
(** * Header sync (baseledger.py, lines 236-259)                           *)
(* ===================================================================== *)

Module HeaderSync.

(** The calls of a run that matter here: requests for headers, appends to
    the header store (with the state of [_header_processing_lock] at that
    moment) and publications on [on_header]. *)
Inductive header_call : Type :=
| GetHeaders (start count : Z)
| Connect (start : Z) (raw : bytes) (lock_held : bool)
| OnHeader (height : Z).

Record HeaderLedger (Headers : Type) : Type := {
  headers : Headers;
  header_processing_lock : bool;
  header_calls : list header_call
}.
Arguments headers {Headers} _.
Arguments header_processing_lock {Headers} _.
Arguments header_calls {Headers} _.

Section WithHeaders.

(** The header store ([len(headers)], [headers.height],
    [headers.connect(start, raw)]) and the network's answer to
    [get_headers(start, count)], as the pair of its ['count'] and ['hex']. *)
Variable Headers : Type.
Variable len : Headers -> Z.
Variable height : Headers -> Z.
Variable connect : Headers -> Z -> bytes -> result Headers.
Variable get_headers : Z -> Z -> result (Z * string).

Definition add_header_call (c : header_call) (l : HeaderLedger Headers) : HeaderLedger Headers :=
  {| headers := headers l; header_processing_lock := header_processing_lock l;
     header_calls := header_calls l ++ [c] |}.

Definition set_lock (locked : bool) (l : HeaderLedger Headers) : HeaderLedger Headers :=
  {| headers := headers l; header_processing_lock := locked;
     header_calls := header_calls l |}.

Definition set_headers (hs : Headers) (l : HeaderLedger Headers) : HeaderLedger Headers :=
  {| headers := hs; header_processing_lock := header_processing_lock l;
     header_calls := header_calls l |}.

Definition network_get_headers (start count : Z) : M (HeaderLedger Headers) (Z * string) :=
  modify (add_header_call (GetHeaders start count)) ;;; lift (get_headers start count).

(** [yield self.headers.connect(start, raw)] *)
Definition headers_connect (start : Z) (raw : bytes) : M (HeaderLedger Headers) unit :=
  let* l := get in
  modify (add_header_call (Connect start raw (header_processing_lock l))) ;;;
  let* hs := lift (connect (headers l) start raw) in
  modify (set_headers hs).

(** [self._on_header_controller.add(self.headers.height)] *)
Definition on_header_add : M (HeaderLedger Headers) unit :=
  let* l := get in
  modify (add_header_call (OnHeader (height (headers l)))).

(** [yield self._header_processing_lock.acquire()] *)
Definition lock_acquire : M (HeaderLedger Headers) unit :=
  let* l := get in
  if header_processing_lock l then stuck WaitingForLock else modify (set_lock true).

(** [self._header_processing_lock.release()] *)
Definition lock_release : M (HeaderLedger Headers) unit := modify (set_lock false).

(** [BaseLedger.update_headers]; [fuel] bounds the rounds of [while True]. *)
Fixpoint update_headers (fuel : nat) : M (HeaderLedger Headers) unit :=
  match fuel with
  | O => stuck OutOfFuel
  | S fuel' =>
      let* height_sought := gets (fun l => len (headers l)) in
      let* (count, hex) := network_get_headers height_sought 2000 in
      if count <=? 0 then ret tt
      else
        let* raw := lift (unhexlify hex) in
        headers_connect height_sought raw ;;;
        on_header_add ;;;
        update_headers fuel'
  end.

(** The [try] block of [process_header] (lines 250-257); [response[0]] is
    the pair of the pushed header's ['height'] and ['hex']. *)
Definition process_header_body (response : list (Z * string)) (fuel : nat)
    : M (HeaderLedger Headers) unit :=
  let* (header_height, header_hex) := lift (of_option IndexError (response !! 0%nat)) in
  let* n := gets (fun l => len (headers l)) in
  if header_height =? n then
    let* n' := gets (fun l => len (headers l)) in
    let* raw := lift (unhexlify header_hex) in
    headers_connect n' raw ;;;
    on_header_add
  else if header_height >? n then
    update_headers fuel
  else ret tt.

(** [BaseLedger.process_header] *)
Definition process_header (response : list (Z * string)) (fuel : nat)
    : M (HeaderLedger Headers) unit :=
  lock_acquire ;;;
  try_finally (process_header_body response fuel) lock_release.

(** ** Calls that overlap

    [process_header] listens to the network's [on_header] stream (line 73),
    and [update_headers] is also called directly, by [start] (line 227).
    Several such calls run as coroutines on one thread; a call gives up
    control only at a [yield]. *)

(** How a coroutine came in: by a direct call of [update_headers], or by
    [process_header]. *)
Inductive entry_point : Type := BulkEntry | PushEntry.

(** Where a header is appended: at the tip, by [process_header] itself
    (lines 253-254), or in the loop of [update_headers] (lines 243-244),
    entered through [via]. *)
Inductive site : Type := Tip | Loop (via : entry_point).

Definition entry (s : site) : entry_point :=
  match s with
  | Tip => PushEntry
  | Loop via => via
  end.

(** A call stopped at one of its yields. *)
Inductive coroutine : Type :=
| Arrived (response : list (Z * string))
    (* [process_header(response)]: about to
       [yield self._header_processing_lock.acquire()] (line 248) *)
| Queued (response : list (Z * string))
    (* queued on the lock *)
| Entered (response : list (Z * string))
    (* holds the lock, at line 250 *)
| Seeking (via : entry_point)
    (* [update_headers] at line 239: about to [yield get_headers(...)] *)
| Connecting (s : site) (start : Z) (raw : bytes)
    (* about to [yield self.headers.connect(start, raw)] (line 243 or 253) *)
| Publishing (s : site)
    (* connected: about to add the height to [on_header] (line 244 or 254) *)
| Returned (via : entry_point)
| Raised (via : entry_point) (x : exn).

Definition entry_of (c : coroutine) : entry_point :=
  match c with
  | Arrived _ | Queued _ | Entered _ => PushEntry
  | Seeking via | Returned via | Raised via _ => via
  | Connecting s _ _ | Publishing s => entry s
  end.

(** A call of [process_header] between its [acquire] and its [release]. *)
Definition holds (c : coroutine) : bool :=
  match c with
  | Entered _ | Seeking PushEntry => true
  | Connecting s _ _ | Publishing s =>
      match entry s with
      | PushEntry => true
      | BulkEntry => false
      end
  | _ => false
  end.

Definition queued (c : coroutine) : bool :=
  match c with
  | Queued _ => true
  | _ => false
  end.

Definition finished (c : coroutine) : bool :=
  match c with
  | Returned _ | Raised _ _ => true
  | _ => false
  end.

(** The header store, the [DeferredLock] (its flag and its queue of waiting
    coroutines), the calls made so far, each with the number of the coroutine
    that made it, and the coroutines by number. *)
Record World : Type := {
  store : Headers;
  lock_taken : bool;
  lock_queue : list nat;
  trace : list (nat * header_call);
  coroutines : gmap nat coroutine
}.

Definition set_coroutine (k : nat) (c : coroutine) (w : World) : World :=
  {| store := store w; lock_taken := lock_taken w; lock_queue := lock_queue w;
     trace := trace w; coroutines := <[k := c]> (coroutines w) |}.

Definition set_store (hs : Headers) (w : World) : World :=
  {| store := hs; lock_taken := lock_taken w; lock_queue := lock_queue w;
     trace := trace w; coroutines := coroutines w |}.

Definition log_call (k : nat) (c : header_call) (w : World) : World :=
  {| store := store w; lock_taken := lock_taken w; lock_queue := lock_queue w;
     trace := trace w ++ [(k, c)]; coroutines := coroutines w |}.

(** [DeferredLock.release]: the first waiting coroutine, if any, gets the lock
    and goes on; otherwise the lock becomes free. *)
Definition release (w : World) : World :=
  match lock_queue w with
  | [] =>
      {| store := store w; lock_taken := false; lock_queue := [];
         trace := trace w; coroutines := coroutines w |}
  | j :: rest =>
      {| store := store w; lock_taken := lock_taken w; lock_queue := rest;
         trace := trace w;
         coroutines := alter (fun c => match c with
                                       | Queued response => Entered response
                                       | _ => c
                                       end) j (coroutines w) |}
  end.

(** The call of coroutine [k] ends in [c]; a call of [process_header] leaves
    through its [finally] block (line 259), [update_headers] has none. *)
Definition leave (k : nat) (via : entry_point) (c : coroutine) (w : World) : World :=
  match via with
  | PushEntry => release (set_coroutine k c w)
  | BulkEntry => set_coroutine k c w
  end.

(** Coroutine [k] runs up to its next yield.  Taking a free lock and the
    return to the head of the loop get steps of their own although the code
    runs on, and a coroutine that is handed the lock runs when it is scheduled
    next: every run of the code is then a run of this scheduler. *)
Definition step (k : nat) (w : World) : World :=
  match coroutines w !! k with
  | Some (Arrived response) =>
      if lock_taken w then
        {| store := store w; lock_taken := true; lock_queue := lock_queue w ++ [k];
           trace := trace w; coroutines := <[k := Queued response]> (coroutines w) |}
      else
        {| store := store w; lock_taken := true; lock_queue := lock_queue w;
           trace := trace w; coroutines := <[k := Entered response]> (coroutines w) |}
  | Some (Entered response) =>
      match response !! 0%nat with
      | None => leave k PushEntry (Raised PushEntry IndexError) w
      | Some (header_height, header_hex) =>
          if header_height =? len (store w) then
            match unhexlify header_hex with
            | Ok raw => set_coroutine k (Connecting Tip (len (store w)) raw) w
            | Err x => leave k PushEntry (Raised PushEntry x) w
            end
          else if header_height >? len (store w) then
            set_coroutine k (Seeking PushEntry) w
          else leave k PushEntry (Returned PushEntry) w
      end
  | Some (Seeking via) =>
      let height_sought := len (store w) in
      let w1 := log_call k (GetHeaders height_sought 2000) w in
      match get_headers height_sought 2000 with
      | Ok (count, hex) =>
          if count <=? 0 then leave k via (Returned via) w1
          else
            match unhexlify hex with
            | Ok raw => set_coroutine k (Connecting (Loop via) height_sought raw) w1
            | Err x => leave k via (Raised via x) w1
            end
      | Err x => leave k via (Raised via x) w1
      end
  | Some (Connecting s start raw) =>
      let w1 := log_call k (Connect start raw (lock_taken w)) w in
      match connect (store w) start raw with
      | Ok hs => set_coroutine k (Publishing s) (set_store hs w1)
      | Err x => leave k (entry s) (Raised (entry s) x) w1
      end
  | Some (Publishing s) =>
      let w1 := log_call k (OnHeader (height (store w))) w in
      match s with
      | Tip => leave k PushEntry (Returned PushEntry) w1
      | Loop via => set_coroutine k (Seeking via) w1
      end
  | Some (Queued _) | Some (Returned _) | Some (Raised _ _) | None => w
  end.

(** A schedule names the coroutine that runs next, step after step. *)
Definition run_schedule (schedule : list nat) (w : World) : World :=
  fold_left (fun w k => step k w) schedule w.

(** Before any call has run: the lock is free, and every coroutine is a
    call of [process_header] or of [update_headers] that has not started. *)
Definition initial (w : World) : Prop :=
  lock_taken w = false /\ lock_queue w = [] /\ trace w = [] /\
  forall k c, coroutines w !! k = Some c ->
    (exists response, c = Arrived response) \/ c = Seeking BulkEntry.

(** Coroutine [k] of [w] is a call of [process_header]. *)
Definition pushed (w : World) (k : nat) : bool :=
  match coroutines w !! k with
  | Some c =>
      match entry_of c with
      | PushEntry => true
      | BulkEntry => false
      end
  | None => false
  end.

(** The coroutines that made the appends among [calls], in the order of
    the appends, restricted to the coroutines that [select] picks. *)
Definition appenders (select : nat -> bool) (calls : list (nat * header_call)) : list nat :=
  omap (fun e => match snd e with
                 | Connect _ _ _ => if select (fst e) then Some (fst e) else None
                 | _ => None
                 end) calls.

(** The coroutines of [ids] come in turns: once another one has come after
    it, a coroutine does not come again. *)
Definition in_turns (ids : list nat) : Prop :=
  forall before i between j after,
    ids = before ++ i :: between ++ j :: after -> i <> j -> i ∉ after.

(** Every append that a coroutine picked by [select] made among [calls] was
    made with the lock taken. *)
Definition appended_under_lock (select : nat -> bool)
    (calls : list (nat * header_call)) : Prop :=
  Forall (fun e => select (fst e) = true ->
                   match snd e with
                   | Connect _ _ lock_held => lock_held = true
                   | _ => True
                   end) calls.

(** What [w0], the world before any call has run, and a world [w] reached
    from it have to do with each other: one holder at most; the lock is taken
    exactly when some coroutine holds it; the queue lists, once each, the
    coroutines that wait, and nobody waits for a free lock; a coroutine stays
    the call it was; a push handler that has appended holds the lock or has
    ended; the appends of the holder are the last ones of the push handlers,
    which have appended in turns and with the lock taken. *)
Record inv (w0 w : World) : Prop := {
  i_excl : forall i j ci cj,
    coroutines w !! i = Some ci -> coroutines w !! j = Some cj ->
    holds ci = true -> holds cj = true -> i = j;
  i_lock : forall i ci, coroutines w !! i = Some ci -> holds ci = true -> lock_taken w = true;
  i_held : lock_taken w = true ->
    exists i ci, coroutines w !! i = Some ci /\ holds ci = true;
  i_queue : forall j,
    j ∈ lock_queue w <-> exists cj, coroutines w !! j = Some cj /\ queued cj = true;
  i_nodup : NoDup (lock_queue w);
  i_free : lock_taken w = false -> lock_queue w = [];
  i_entry : forall k c,
    coroutines w !! k = Some c ->
    pushed w0 k = match entry_of c with PushEntry => true | BulkEntry => false end;
  i_appended : forall k,
    k ∈ appenders (pushed w0) (trace w) ->
    exists c, coroutines w !! k = Some c /\ (holds c = true \/ finished c = true);
  i_last : forall k c,
    coroutines w !! k = Some c -> holds c = true ->
    exists pre n, appenders (pushed w0) (trace w) = pre ++ replicate n k /\ k ∉ pre;
  i_turns : in_turns (appenders (pushed w0) (trace w));
  i_flag : appended_under_lock (pushed w0) (trace w)
}.

(** ** Appends and the lock *)

(** Every append among [cs] was made with the lock in state [held]. *)
Definition appends_with_lock (held : bool) (cs : list header_call) : Prop :=
  Forall (fun c => match c with
                   | Connect _ _ lock_held => lock_held = held
                   | _ => True
                   end) cs.

(** A run that only extends the call list by appends made with the lock in
    the state it had at the start, and leaves the lock alone. *)
Definition extends (l l' : HeaderLedger Headers) : Prop :=
  header_processing_lock l' = header_processing_lock l /\
  exists new, header_calls l' = header_calls l ++ new /\
              appends_with_lock (header_processing_lock l) new.

Lemma appends_with_lock_app held cs1 cs2 :
  appends_with_lock held cs1 -> appends_with_lock held cs2 ->
  appends_with_lock held (cs1 ++ cs2).
Proof. intros H1 H2. apply Forall_app. by split. Qed.

Lemma extends_refl l : extends l l.
Proof. split; [reflexivity|]. exists []. split; [by rewrite app_nil_r | constructor]. Qed.

Lemma extends_trans l1 l2 l3 : extends l1 l2 -> extends l2 l3 -> extends l1 l3.
Proof.
  intros [Hlock1 (new1 & Hc1 & Ha1)] [Hlock2 (new2 & Hc2 & Ha2)].
  split; [congruence|]. exists (new1 ++ new2). split.
  - rewrite Hc2, Hc1. by rewrite app_assoc.
  - rewrite Hlock1 in Ha2. by apply appends_with_lock_app.
Qed.

Lemma extends_request l c :
  match c with Connect _ _ _ => False | _ => True end -> extends l (add_header_call c l).
Proof.
  intros Hc. split; [reflexivity|]. exists [c]. split; [reflexivity|].
  constructor; [|constructor]. by destruct c.
Qed.

Lemma headers_connect_extends start raw l :
  extends l (snd (headers_connect start raw l)).
Proof.
  unfold headers_connect, bind, get, modify, lift. simpl.
  assert (Hlog : extends l (add_header_call (Connect start raw (header_processing_lock l)) l)).
  { split; [reflexivity|]. exists [Connect start raw (header_processing_lock l)].
    split; [reflexivity|]. by repeat constructor. }
  destruct (connect (headers l) start raw) as [hs|e]; simpl; [|exact Hlog].
  eapply extends_trans; [exact Hlog|]. split; [reflexivity|].
  exists []. split; [by rewrite app_nil_r | constructor].
Qed.

Lemma on_header_add_extends l : extends l (snd (on_header_add l)).
Proof. unfold on_header_add, bind, get, modify. simpl. by apply extends_request. Qed.

Lemma network_get_headers_extends start count l :
  extends l (snd (network_get_headers start count l)).
Proof.
  unfold network_get_headers, bind, modify, lift.
  destruct (get_headers start count); simpl; by apply extends_request.
Qed.

(** [update_headers] never touches the lock: whatever it appends, it appends
    with the lock as it found it. *)
Lemma update_headers_extends fuel : forall l, extends l (snd (update_headers fuel l)).
Proof.
  induction fuel as [|fuel IH]; intros l; simpl; [apply extends_refl|].
  unfold bind at 1. unfold gets at 1.
  pose proof (network_get_headers_extends (len (headers l)) 2000 l) as Hnet.
  unfold bind at 1.
  destruct (network_get_headers (len (headers l)) 2000 l) as [[[count hex]|e|r] l1];
    simpl in Hnet; simpl; try exact Hnet.
  destruct (count <=? 0); [exact Hnet|].
  unfold bind at 1. unfold lift at 1.
  destruct (unhexlify hex) as [raw|e]; simpl; [|exact Hnet].
  pose proof (headers_connect_extends (len (headers l)) raw l1) as Hconn.
  unfold bind at 1.
  destruct (headers_connect (len (headers l)) raw l1) as [[[]|e|r] l2]; simpl in Hconn; simpl;
    try (eapply extends_trans; [exact Hnet | exact Hconn]).
  pose proof (on_header_add_extends l2) as Hpub.
  unfold bind at 1.
  destruct (on_header_add l2) as [[[]|e|r] l3]; simpl in Hpub; simpl;
    try (eapply extends_trans; [exact Hnet |]; eapply extends_trans; [exact Hconn | exact Hpub]).
  eapply extends_trans; [exact Hnet|]. eapply extends_trans; [exact Hconn|].
  eapply extends_trans; [exact Hpub|]. apply IH.
Qed.

Lemma process_header_body_extends (response : list (Z * string)) (fuel : nat) l :
  extends l (snd (process_header_body response fuel l)).
Proof.
  unfold process_header_body.
  unfold bind at 1. unfold lift at 1.
  destruct (response !! 0%nat) as [[header_height header_hex]|]; simpl;
    [|apply extends_refl].
  unfold bind at 1. unfold gets at 1.
  destruct (header_height =? len (headers l)).
  - unfold bind at 1. unfold gets at 1. unfold bind at 1. unfold lift at 1.
    destruct (unhexlify header_hex) as [raw|e]; simpl; [|apply extends_refl].
    pose proof (headers_connect_extends (len (headers l)) raw l) as Hconn.
    unfold bind at 1.
    destruct (headers_connect (len (headers l)) raw l) as [[[]|e|r] l2];
      simpl in Hconn; simpl; try exact Hconn.
    eapply extends_trans; [exact Hconn | apply on_header_add_extends].
  - destruct (header_height >? len (headers l)).
    + apply update_headers_extends.
    + apply extends_refl.
Qed.

Lemma process_header_locked response fuel l :
  header_processing_lock l = true ->
  process_header response fuel l = (Stuck WaitingForLock, l).
Proof.
  intros Hlock. unfold process_header, bind, lock_acquire, bind, get, stuck.
  by rewrite Hlock.
Qed.

Lemma process_header_unlocked response fuel l :
  header_processing_lock l = false ->
  process_header response fuel l
  = match process_header_body response fuel (set_lock true l) with
    | (Return a, l') => (Return a, set_lock false l')
    | (Raise e, l') => (Raise e, set_lock false l')
    | (Stuck r, l') => (Stuck r, l')
    end.
Proof.
  intros Hlock. unfold process_header, bind, lock_acquire, bind, get, modify.
  rewrite Hlock. unfold try_finally, lock_release, modify.
  by destruct (process_header_body response fuel (set_lock true l)) as [[[]|e|r] l'].
Qed.

(** A call that runs alone.  Every header append made while
    [process_header] runs, directly or through the bulk [update_headers] it
    falls back to, is made with [_header_processing_lock] taken, and the lock
    is free again when [process_header] returns or raises.  [update_headers]
    itself never acquires or releases the lock: what it appends, it appends
    with the lock in the state in which its caller left it. *)
Lemma process_header_appends_under_lock (response : list (Z * string))
    (fuel : nat) (l : HeaderLedger Headers) :
  (exists new,
     header_calls (snd (process_header response fuel l)) = header_calls l ++ new /\
     appends_with_lock true new) /\
  (header_processing_lock l = false ->
   match fst (process_header response fuel l) with
   | Return _ | Raise _ =>
       header_processing_lock (snd (process_header response fuel l)) = false
   | Stuck _ => True
   end) /\
  (exists new,
     header_calls (snd (update_headers fuel l)) = header_calls l ++ new /\
     appends_with_lock (header_processing_lock l) new /\
     header_processing_lock (snd (update_headers fuel l)) = header_processing_lock l).
Proof.
  split_and!.
  - destruct (header_processing_lock l) eqn:Hlock.
    + rewrite process_header_locked by assumption.
      exists []. split; [by rewrite app_nil_r | constructor].
    + rewrite process_header_unlocked by assumption.
      destruct (process_header_body_extends response fuel (set_lock true l))
        as [_ (new & Hcalls & Happ)].
      exists new.
      destruct (process_header_body response fuel (set_lock true l)) as [[[]|e|r] l'];
        by split.
  - intros Hlock. rewrite process_header_unlocked by assumption.
    by destruct (process_header_body response fuel (set_lock true l)) as [[[]|e|r] l'].
  - destruct (update_headers_extends fuel l) as [Hlock (new & Hcalls & Happ)].
    exists new. by split_and!.
Qed.

(** ** The lock and the turns of the push handlers *)

Lemma appenders_snoc select calls k c :
  appenders select (calls ++ [(k, c)])
  = appenders select calls
    ++ match c with
       | Connect _ _ _ => if select k then [k] else []
       | _ => []
       end.
Proof.
  unfold appenders. rewrite omap_app. simpl.
  destruct c; try done. by destruct (select k).
Qed.

Lemma replicate_suffix (pre : list nat) n k before after :
  pre ++ replicate n k = before ++ k :: after -> k ∉ pre -> Forall (fun i => i = k) after.
Proof.
  revert before. induction pre as [|a pre IH]; intros before Heq Hk.
  - apply Forall_forall. intros i Hi. apply (elem_of_replicate_inv i n k).
    simpl in Heq. rewrite Heq. apply elem_of_app. right. by apply list_elem_of_further.
  - destruct before as [|b before]; simpl in Heq.
    + injection Heq as -> _. destruct Hk. apply list_elem_of_here.
    + injection Heq as -> Heq. apply (IH before Heq).
      intros Hin. apply Hk. by apply list_elem_of_further.
Qed.

Lemma in_turns_nil : in_turns [].
Proof. intros before i between j after Heq. by destruct before. Qed.

(** The coroutine whose appends are the last ones appends once more. *)
Lemma in_turns_snoc ids pre n k :
  in_turns ids -> ids = pre ++ replicate n k -> k ∉ pre -> in_turns (ids ++ [k]).
Proof.
  intros Hturns Hids Hk before i between j after Heq Hij Hin.
  induction after as [|z after _] using rev_ind; [by apply elem_of_nil in Hin|].
  assert (Hsplit : ids ++ [k] = (before ++ i :: between ++ j :: after) ++ [z]).
  { rewrite Heq, <- !app_assoc. simpl. by rewrite <- !app_assoc. }
  apply app_inj_tail in Hsplit as [Hids' <-].
  apply elem_of_app in Hin as [Hin | ->%list_elem_of_singleton].
  - by apply (Hturns _ _ _ _ _ Hids').
  - rewrite Hids in Hids'.
    pose proof (replicate_suffix pre n k before (between ++ j :: after) Hids' Hk) as Hall.
    rewrite Forall_forall in Hall. apply Hij. symmetry. apply Hall.
    apply elem_of_app. right. apply list_elem_of_here.
Qed.

Lemma initial_turns_inv w : initial w -> inv w w.
Proof.
  intros (Hfree & Hqueue & Htrace & Hstart).
  assert (Hnone : forall k c, coroutines w !! k = Some c ->
            holds c = false /\ queued c = false).
  { intros k c Hk. by destruct (Hstart _ _ Hk) as [[response ->] | ->]. }
  split.
  - intros i j ci cj Hi _ Hci. destruct (Hnone _ _ Hi). congruence.
  - intros i ci Hi Hci. destruct (Hnone _ _ Hi). congruence.
  - congruence.
  - intros j. rewrite Hqueue. split; [by intros ?%elem_of_nil|].
    intros (cj & Hj & Hq). destruct (Hnone _ _ Hj). congruence.
  - rewrite Hqueue. constructor.
  - done.
  - intros k c Hk. unfold pushed. by rewrite Hk.
  - intros k. rewrite Htrace. by intros ?%elem_of_nil.
  - intros k c Hk Hc. destruct (Hnone _ _ Hk). congruence.
  - rewrite Htrace. apply in_turns_nil.
  - rewrite Htrace. constructor.
Qed.

(** A call is made, and nothing else changes. *)
Lemma inv_log_call w0 w k c hc :
  inv w0 w -> coroutines w !! k = Some c ->
  match hc with
  | Connect _ _ lock_held =>
      lock_held = lock_taken w /\ (pushed w0 k = true -> holds c = true)
  | _ => True
  end ->
  inv w0 (log_call k hc w).
Proof.
  intros Hinv Hk Hhc.
  assert (Hsame : appenders (pushed w0) (trace w ++ [(k, hc)]) = appenders (pushed w0) (trace w)
                  \/ exists start raw,
                       hc = Connect start raw (lock_taken w) /\ pushed w0 k = true /\
                       holds c = true /\
                       appenders (pushed w0) (trace w ++ [(k, hc)])
                       = appenders (pushed w0) (trace w) ++ [k]).
  { rewrite appenders_snoc. destruct hc as [| start raw lock_held |];
      try (left; apply app_nil_r).
    destruct Hhc as [-> Hholds]. destruct (pushed w0 k) eqn:Hpushed.
    - right. exists start, raw. split_and!; auto.
    - left. apply app_nil_r. }
  split; simpl; try apply Hinv.
  - intros n. destruct Hsame as [-> | (start & raw & _ & _ & Hholds & ->)];
      [apply (i_appended w0 w Hinv)|].
    intros [Hin | ->%list_elem_of_singleton]%elem_of_app;
      [by apply (i_appended w0 w Hinv) | eauto].
  - intros n cn Hn Hcn. destruct (i_last w0 w Hinv _ _ Hn Hcn) as (pre & m & Hpre & Hfresh).
    destruct Hsame as [-> | (start & raw & _ & _ & Hholds & ->)]; [eauto|].
    assert (n = k) as -> by (by eapply (i_excl w0 w Hinv)).
    exists pre, (S m). split; [|done]. by rewrite Hpre, replicate_S_end, app_assoc.
  - destruct Hsame as [-> | (start & raw & _ & _ & Hholds & ->)]; [apply Hinv|].
    destruct (i_last w0 w Hinv _ _ Hk Hholds) as (pre & m & Hpre & Hfresh).
    eapply in_turns_snoc; [apply Hinv | exact Hpre | exact Hfresh].
  - apply Forall_app. split; [apply Hinv|]. constructor; [|constructor]. simpl.
    intros Hpushed. destruct hc as [| start raw lock_held |]; try done.
    destruct Hhc as [-> Hholds]. by eapply (i_lock w0 w Hinv), Hholds.
Qed.

Lemma inv_set_store w0 w hs : inv w0 w -> inv w0 (set_store hs w).
Proof. intros []. by split. Qed.

(** A step after which coroutine [k] holds, waits and has come in as
    before. *)
Lemma inv_same w0 w k c c' :
  inv w0 w -> coroutines w !! k = Some c ->
  holds c' = holds c -> queued c' = queued c -> entry_of c' = entry_of c ->
  (finished c = true -> finished c' = true) ->
  inv w0 (set_coroutine k c' w).
Proof.
  intros Hinv Hk Hholds Hqueued Hentry Hfinished.
  assert (Hnew : forall n cn, <[k := c']> (coroutines w) !! n = Some cn ->
            exists c0, coroutines w !! n = Some c0 /\ holds cn = holds c0 /\
                       queued cn = queued c0 /\ entry_of cn = entry_of c0).
  { intros n cn Hn. destruct (decide (k = n)) as [<- | Hne].
    - rewrite lookup_insert_eq in Hn. injection Hn as <-. eauto.
    - rewrite lookup_insert_ne in Hn by done. eauto. }
  assert (Hold : forall n c0, coroutines w !! n = Some c0 ->
            exists cn, <[k := c']> (coroutines w) !! n = Some cn /\ holds cn = holds c0 /\
                       queued cn = queued c0 /\ (finished c0 = true -> finished cn = true)).
  { intros n c0 Hn. destruct (decide (k = n)) as [<- | Hne].
    - rewrite lookup_insert_eq. rewrite Hk in Hn. injection Hn as <-. eauto.
    - rewrite lookup_insert_ne by done. eauto. }
  split; simpl.
  - intros i j ci cj Hi Hj Hci Hcj.
    destruct (Hnew _ _ Hi) as (ci0 & Hi0 & Hhi & _), (Hnew _ _ Hj) as (cj0 & Hj0 & Hhj & _).
    eapply (i_excl w0 w Hinv); eauto; congruence.
  - intros i ci Hi Hci. destruct (Hnew _ _ Hi) as (ci0 & Hi0 & Hhi & _).
    eapply (i_lock w0 w Hinv); eauto; congruence.
  - intros Hlocked. destruct (i_held w0 w Hinv Hlocked) as (i & ci & Hi & Hci).
    destruct (Hold _ _ Hi) as (cn & Hn & Hhn & _). exists i, cn. split; [done | congruence].
  - intros j. rewrite (i_queue w0 w Hinv j). split.
    + intros (cj & Hj & Hq). destruct (Hold _ _ Hj) as (cn & Hn & _ & Hqn & _).
      exists cn. split; [done | congruence].
    + intros (cj & Hj & Hq). destruct (Hnew _ _ Hj) as (c0 & Hj0 & _ & Hq0 & _).
      exists c0. split; [done | congruence].
  - apply Hinv.
  - apply Hinv.
  - intros n cn Hn. destruct (Hnew _ _ Hn) as (c0 & Hn0 & _ & _ & ->).
    by apply (i_entry w0 w Hinv).
  - intros n Hin. destruct (i_appended w0 w Hinv _ Hin) as (c0 & Hn0 & Hc0).
    destruct (Hold _ _ Hn0) as (cn & Hn & Hhn & _ & Hfn). exists cn. split; [done|].
    destruct Hc0 as [Hc0 | Hc0]; [left; congruence | right; auto].
  - intros n cn Hn Hcn. destruct (Hnew _ _ Hn) as (c0 & Hn0 & Hhn & _).
    eapply (i_last w0 w Hinv); eauto; congruence.
  - apply Hinv.
  - apply Hinv.
Qed.

(** A push handler that has not run yet has appended nothing. *)
Lemma inv_not_appended w0 w k c :
  inv w0 w -> coroutines w !! k = Some c -> holds c = false -> finished c = false ->
  k ∉ appenders (pushed w0) (trace w).
Proof.
  intros Hinv Hk Hholds Hfinished Hin.
  destruct (i_appended w0 w Hinv _ Hin) as (c0 & Hk0 & [Hc0 | Hc0]);
    rewrite Hk in Hk0; injection Hk0 as <-; congruence.
Qed.

(** The lock is free: the handler takes it. *)
Lemma inv_acquire w0 w k response :
  inv w0 w -> coroutines w !! k = Some (Arrived response) -> lock_taken w = false ->
  inv w0 {| store := store w; lock_taken := true; lock_queue := lock_queue w;
            trace := trace w; coroutines := <[k := Entered response]> (coroutines w) |}.
Proof.
  intros Hinv Hk Hfree.
  pose proof (i_free w0 w Hinv Hfree) as Hqueue.
  assert (Hnone : forall n cn, coroutines w !! n = Some cn -> holds cn = false).
  { intros n cn Hn. destruct (holds cn) eqn:Hcn; [|done].
    pose proof (i_lock w0 w Hinv _ _ Hn Hcn). congruence. }
  assert (Hone : forall n cn, <[k := Entered response]> (coroutines w) !! n = Some cn ->
            holds cn = true -> n = k).
  { intros n cn Hn Hcn. destruct (decide (k = n)) as [<- | Hne]; [done|].
    rewrite lookup_insert_ne in Hn by done. pose proof (Hnone _ _ Hn). congruence. }
  split; simpl.
  - intros i j ci cj Hi Hj Hci Hcj. by rewrite (Hone _ _ Hi Hci), (Hone _ _ Hj Hcj).
  - done.
  - intros _. exists k, (Entered response). by rewrite lookup_insert_eq.
  - intros j. rewrite (i_queue w0 w Hinv j).
    destruct (decide (k = j)) as [<- | Hne]; split; intros (cj & Hj & Hq).
    + rewrite Hk in Hj. by injection Hj as <-.
    + rewrite lookup_insert_eq in Hj. by injection Hj as <-.
    + exists cj. by rewrite lookup_insert_ne.
    + exists cj. by rewrite lookup_insert_ne in Hj.
  - apply Hinv.
  - done.
  - intros n cn Hn. destruct (decide (k = n)) as [<- | Hne].
    + rewrite lookup_insert_eq in Hn. injection Hn as <-.
      apply (i_entry w0 w Hinv _ _ Hk).
    + rewrite lookup_insert_ne in Hn by done. by apply (i_entry w0 w Hinv).
  - intros n Hin. destruct (i_appended w0 w Hinv _ Hin) as (c0 & Hn0 & Hc0).
    destruct (decide (k = n)) as [<- | Hne].
    + rewrite lookup_insert_eq. eauto.
    + rewrite lookup_insert_ne by done. eauto.
  - intros n cn Hn Hcn. rewrite (Hone _ _ Hn Hcn).
    exists (appenders (pushed w0) (trace w)), 0%nat. split; [by rewrite app_nil_r|].
    by eapply inv_not_appended.
  - apply Hinv.
  - apply Hinv.
Qed.

(** The lock is taken: the handler joins the queue. *)
Lemma inv_enqueue w0 w k response :
  inv w0 w -> coroutines w !! k = Some (Arrived response) -> lock_taken w = true ->
  inv w0 {| store := store w; lock_taken := true; lock_queue := lock_queue w ++ [k];
            trace := trace w; coroutines := <[k := Queued response]> (coroutines w) |}.
Proof.
  intros Hinv Hk Hlocked.
  assert (Hfresh : k ∉ lock_queue w).
  { intros Hin. apply (i_queue w0 w Hinv) in Hin as (cj & Hj & Hq).
    rewrite Hk in Hj. by injection Hj as <-. }
  assert (Hsame : forall n cn, <[k := Queued response]> (coroutines w) !! n = Some cn ->
            holds cn = true -> coroutines w !! n = Some cn).
  { intros n cn Hn Hcn. destruct (decide (k = n)) as [<- | Hne].
    - rewrite lookup_insert_eq in Hn. by injection Hn as <-.
    - by rewrite lookup_insert_ne in Hn. }
  split; simpl.
  - intros i j ci cj Hi Hj Hci Hcj. eapply (i_excl w0 w Hinv); eauto.
  - done.
  - intros _. destruct (i_held w0 w Hinv Hlocked) as (i & ci & Hi & Hci).
    exists i, ci. split; [|done]. rewrite lookup_insert_ne; [done|].
    intros <-. rewrite Hk in Hi. by injection Hi as <-.
  - intros j. rewrite elem_of_app, list_elem_of_singleton, (i_queue w0 w Hinv j).
    destruct (decide (k = j)) as [<- | Hne]; split.
    + intros _. exists (Queued response). by rewrite lookup_insert_eq.
    + intros _. by right.
    + intros [(cj & Hj & Hq) | ->]; [|done]. exists cj. by rewrite lookup_insert_ne.
    + intros (cj & Hj & Hq). left. exists cj. by rewrite lookup_insert_ne in Hj.
  - apply NoDup_app. split; [apply Hinv|]. split.
    + intros j Hj ->%list_elem_of_singleton. done.
    + apply NoDup_singleton.
  - done.
  - intros n cn Hn. destruct (decide (k = n)) as [<- | Hne].
    + rewrite lookup_insert_eq in Hn. injection Hn as <-.
      apply (i_entry w0 w Hinv _ _ Hk).
    + rewrite lookup_insert_ne in Hn by done. by apply (i_entry w0 w Hinv).
  - intros n Hin. destruct (i_appended w0 w Hinv _ Hin) as (c0 & Hn0 & Hc0).
    destruct (decide (k = n)) as [<- | Hne].
    + rewrite Hk in Hn0. injection Hn0 as <-. by destruct Hc0.
    + rewrite lookup_insert_ne by done. eauto.
  - intros n cn Hn Hcn. by eapply (i_last w0 w Hinv), Hcn; apply Hsame.
  - apply Hinv.
  - apply Hinv.
Qed.

(** The handler leaves through [finally]: the lock goes to the head of the
    queue, or becomes free. *)
Lemma inv_release w0 w k c c' :
  inv w0 w -> coroutines w !! k = Some c -> holds c = true ->
  finished c' = true -> entry_of c' = entry_of c ->
  inv w0 (release (set_coroutine k c' w)).
Proof.
  intros Hinv Hk Hc Hdone Hentry.
  pose proof (i_lock w0 w Hinv _ _ Hk Hc) as Hlocked.
  assert (Hc' : holds c' = false /\ queued c' = false) by (by destruct c').
  destruct Hc' as [Hnh Hnq].
  assert (Hothers : forall n cn, n <> k -> coroutines w !! n = Some cn -> holds cn = false).
  { intros n cn Hne Hn. destruct (holds cn) eqn:Hcn; [|done].
    destruct Hne. by eapply (i_excl w0 w Hinv). }
  assert (Hended : forall n, n ∈ appenders (pushed w0) (trace w) -> n <> k ->
            exists cn, coroutines w !! n = Some cn /\ finished cn = true).
  { intros n Hin Hne. destruct (i_appended w0 w Hinv _ Hin) as (cn & Hn & [Hcn | Hcn]);
      [|eauto]. pose proof (Hothers _ _ Hne Hn). congruence. }
  unfold release. simpl. destruct (lock_queue w) as [|j rest] eqn:Hqueue.
  - assert (Hnone : forall n cn, <[k := c']> (coroutines w) !! n = Some cn -> holds cn = false).
    { intros n cn Hn. destruct (decide (k = n)) as [<- | Hne].
      - rewrite lookup_insert_eq in Hn. by injection Hn as <-.
      - rewrite lookup_insert_ne in Hn by done. by eapply Hothers. }
    split; simpl.
    + intros i j ci cj Hi _ Hci. pose proof (Hnone _ _ Hi). congruence.
    + intros i ci Hi Hci. pose proof (Hnone _ _ Hi). congruence.
    + done.
    + intros n. split; [by intros ?%elem_of_nil|].
      intros (cn & Hn & Hq). destruct (decide (k = n)) as [<- | Hne].
      * rewrite lookup_insert_eq in Hn. injection Hn as <-. congruence.
      * rewrite lookup_insert_ne in Hn by done.
        assert (n ∈ lock_queue w) as Hin by (apply (i_queue w0 w Hinv); eauto).
        rewrite Hqueue in Hin. by apply elem_of_nil in Hin.
    + constructor.
    + done.
    + intros n cn Hn. destruct (decide (k = n)) as [<- | Hne].
      * rewrite lookup_insert_eq in Hn. injection Hn as <-. rewrite Hentry.
        apply (i_entry w0 w Hinv _ _ Hk).
      * rewrite lookup_insert_ne in Hn by done. by apply (i_entry w0 w Hinv).
    + intros n Hin. destruct (decide (k = n)) as [<- | Hne].
      * rewrite lookup_insert_eq. eauto.
      * rewrite lookup_insert_ne by done.
        destruct (Hended _ Hin ltac:(done)) as (cn & Hn & Hcn). eauto.
    + intros n cn Hn Hcn. pose proof (Hnone _ _ Hn). congruence.
    + apply Hinv.
    + apply Hinv.
  - set (wake := fun c0 => match c0 with Queued response => Entered response | _ => c0 end).
    assert (Hj : exists response, coroutines w !! j = Some (Queued response)).
    { assert (Hin : j ∈ lock_queue w) by (rewrite Hqueue; apply list_elem_of_here).
      apply (i_queue w0 w Hinv) in Hin as (cj & Hj & Hq). destruct cj; try done. eauto. }
    destruct Hj as (response & Hj).
    assert (Hkj : k <> j) by (intros <-; rewrite Hk in Hj; injection Hj as ->; done).
    pose proof (i_nodup w0 w Hinv) as Hnodup. rewrite Hqueue in Hnodup.
    apply NoDup_cons in Hnodup as [Hfresh Hnodup].
    assert (Hnew : forall n,
              alter wake j (<[k := c']> (coroutines w)) !! n =
              if decide (n = j) then Some (Entered response)
              else if decide (n = k) then Some c' else coroutines w !! n).
    { intros n. destruct (decide (n = j)) as [-> | Hnj].
      - by rewrite lookup_alter_eq, lookup_insert_ne, Hj.
      - rewrite lookup_alter_ne by done. destruct (decide (n = k)) as [-> | Hnk].
        + by rewrite lookup_insert_eq.
        + by rewrite lookup_insert_ne. }
    assert (Hone : forall n cn,
              alter wake j (<[k := c']> (coroutines w)) !! n = Some cn -> holds cn = true ->
              n = j).
    { intros n cn Hn Hcn. rewrite Hnew in Hn.
      repeat case_decide; simplify_eq; try done; try congruence.
      pose proof (Hothers _ _ ltac:(done) Hn). congruence. }
    split; simpl.
    + intros n m cn cm Hn Hm Hcn Hcm. by rewrite (Hone _ _ Hn Hcn), (Hone _ _ Hm Hcm).
    + done.
    + intros _. exists j, (Entered response). by rewrite Hnew, decide_True.
    + intros n. rewrite Hnew. split.
      * intros Hin.
        assert (n ∈ lock_queue w) as Hw by (rewrite Hqueue; by apply list_elem_of_further).
        apply (i_queue w0 w Hinv) in Hw as (cn & Hn & Hq). exists cn.
        destruct (decide (n = j)) as [-> | Hnj]; [done|].
        destruct (decide (n = k)) as [-> | Hnk]; [|done].
        rewrite Hk in Hn. injection Hn as <-. by destruct c.
      * intros (cn & Hn & Hq).
        destruct (decide (n = j)) as [-> | Hnj]; [by injection Hn as <-|].
        destruct (decide (n = k)) as [-> | Hnk]; [injection Hn as <-; congruence|].
        assert (n ∈ lock_queue w) as Hw by (apply (i_queue w0 w Hinv); eauto).
        rewrite Hqueue in Hw. apply elem_of_cons in Hw as [-> | Hw]; done.
    + done.
    + congruence.
    + intros n cn Hn. rewrite Hnew in Hn. repeat case_decide; simplify_eq.
      * apply (i_entry w0 w Hinv _ _ Hj).
      * rewrite Hentry. apply (i_entry w0 w Hinv _ _ Hk).
      * by apply (i_entry w0 w Hinv).
    + intros n Hin. rewrite Hnew. repeat case_decide; simplify_eq; eauto.
      destruct (Hended _ Hin ltac:(done)) as (cn & Hn & Hcn). eauto.
    + intros n cn Hn Hcn. rewrite (Hone _ _ Hn Hcn).
      exists (appenders (pushed w0) (trace w)), 0%nat. split; [by rewrite app_nil_r|].
      by eapply inv_not_appended.
    + apply Hinv.
    + apply Hinv.
Qed.

(** The call of coroutine [k] ends. *)
Lemma inv_leave w0 w k c c' :
  inv w0 w -> coroutines w !! k = Some c ->
  queued c = false -> finished c' = true -> entry_of c' = entry_of c ->
  holds c = match entry_of c with PushEntry => true | BulkEntry => false end ->
  inv w0 (leave k (entry_of c) c' w).
Proof.
  intros Hinv Hk Hq Hdone Hentry Hholds. unfold leave.
  destruct (entry_of c) eqn:Hc.
  - apply (inv_same w0 w k c); try done; try congruence.
    + rewrite Hholds. by destruct c'.
    + rewrite Hq. by destruct c'.
  - eapply inv_release; try done. congruence.
Qed.

Lemma step_turns_inv w0 k w : inv w0 w -> inv w0 (step k w).
Proof.
  intros Hinv. unfold step.
  destruct (coroutines w !! k) as [c|] eqn:Hk; [|done].
  destruct c as [response|response|response|via|s start raw|s|via|via x]; try done.
  - destruct (lock_taken w) eqn:Hlocked; [by apply inv_enqueue | by apply inv_acquire].
  - destruct (response !! 0%nat) as [[header_height header_hex]|].
    + destruct (header_height =? len (store w)).
      * destruct (unhexlify header_hex) as [raw|x].
        -- by apply (inv_same w0 w k (Entered response)).
        -- by apply (inv_leave w0 w k (Entered response)).
      * destruct (header_height >? len (store w)).
        -- by apply (inv_same w0 w k (Entered response)).
        -- by apply (inv_leave w0 w k (Entered response)).
    + by apply (inv_leave w0 w k (Entered response)).
  - cbv zeta.
    assert (Hlog : inv w0 (log_call k (GetHeaders (len (store w)) 2000) w))
      by (by eapply inv_log_call).
    destruct (get_headers (len (store w)) 2000) as [[count hex]|x].
    + destruct (count <=? 0).
      * apply (inv_leave w0 _ k (Seeking via)); try done; by destruct via.
      * destruct (unhexlify hex) as [raw|x].
        -- apply (inv_same w0 _ k (Seeking via)); try done; by destruct via.
        -- apply (inv_leave w0 _ k (Seeking via)); try done; by destruct via.
    + apply (inv_leave w0 _ k (Seeking via)); try done; by destruct via.
  - cbv zeta.
    assert (Hlog : inv w0 (log_call k (Connect start raw (lock_taken w)) w)).
    { eapply inv_log_call; [done | done |]. split; [done|].
      rewrite (i_entry w0 w Hinv _ _ Hk). simpl. by destruct (entry s). }
    destruct (connect (store w) start raw) as [hs|x].
    + apply (inv_same w0 _ k (Connecting s start raw)); try done.
      by apply inv_set_store.
    + by apply (inv_leave w0 _ k (Connecting s start raw)).
  - cbv zeta.
    assert (Hlog : inv w0 (log_call k (OnHeader (height (store w))) w))
      by (by eapply inv_log_call).
    destruct s as [|via].
    + by apply (inv_leave w0 _ k (Publishing Tip)).
    + apply (inv_same w0 _ k (Publishing (Loop via))); try done; by destruct via.
Qed.

Lemma run_schedule_turns_inv w0 schedule : forall w, inv w0 w -> inv w0 (run_schedule schedule w).
Proof.
  induction schedule as [|k schedule IH]; intros w Hinv; simpl; [done|].
  by apply IH, step_turns_inv.
Qed.

(** C3 (amended).  Push handlers exclude one another.  Under any
    interleaving of any number of calls of [process_header] and of direct
    calls of [update_headers]: at most one call of [process_header] is
    between its [acquire] and its [release], and the lock is taken exactly
    when there is one, so that it is free once every handler has returned or
    raised; every append that a handler makes, by itself or through the
    [update_headers] it falls back to, is made with the lock taken; and the
    handlers append in turns: once another handler has appended, a handler
    does not append again.  A direct call of [update_headers] takes no part
    in this: none of its steps touches the lock or its queue. *)
Theorem push_handlers_append_in_turns (schedule : list nat) (w : World) :
  initial w ->
  (forall i j ci cj,
     coroutines (run_schedule schedule w) !! i = Some ci ->
     coroutines (run_schedule schedule w) !! j = Some cj ->
     holds ci = true -> holds cj = true -> i = j) /\
  (lock_taken (run_schedule schedule w) = true <->
   exists i ci, coroutines (run_schedule schedule w) !! i = Some ci /\ holds ci = true) /\
  appended_under_lock (pushed w) (trace (run_schedule schedule w)) /\
  in_turns (appenders (pushed w) (trace (run_schedule schedule w))) /\
  (forall k w1 c,
     coroutines w1 !! k = Some c -> entry_of c = BulkEntry ->
     lock_taken (step k w1) = lock_taken w1 /\ lock_queue (step k w1) = lock_queue w1).
Proof.
  intros Hinit.
  pose proof (run_schedule_turns_inv w schedule w (initial_turns_inv w Hinit)) as Hinv.
  split_and!.
  - apply (i_excl _ _ Hinv).
  - split; [apply (i_held _ _ Hinv)|].
    intros (i & ci & Hi & Hci). by eapply (i_lock _ _ Hinv).
  - apply (i_flag _ _ Hinv).
  - apply (i_turns _ _ Hinv).
  - intros k w1 c Hk Hc. unfold step. rewrite Hk.
    destruct c as [response|response|response|via|s start raw|s|via|via x];
      simpl in Hc; try done; subst.
    + cbv zeta. destruct (get_headers _ _) as [[count hex]|x]; [|done].
      destruct (count <=? 0); [done|]. by destruct (unhexlify hex).
    + cbv zeta. destruct s as [|via]; simpl in Hc; [done|]. subst.
      by destruct (connect _ _ _).
    + destruct s as [|via]; simpl in Hc; [done|]. by subst.
Qed.

(** ** Rounds of the bulk download *)

Lemma update_headers_round fuel l count hex :
  get_headers (len (headers l)) 2000 = Ok (count, hex) ->
  update_headers (S fuel) l
  = if count <=? 0 then (Return tt, add_header_call (GetHeaders (len (headers l)) 2000) l)
    else
      (let* raw := lift (unhexlify hex) in
       headers_connect (len (headers l)) raw ;;; on_header_add ;;; update_headers fuel)
      (add_header_call (GetHeaders (len (headers l)) 2000) l).
Proof.
  intros Hanswer. simpl. unfold bind at 1. unfold gets at 1.
  unfold bind at 1. unfold network_get_headers, bind, modify, lift at 1.
  rewrite Hanswer. simpl. by destruct (count <=? 0).
Qed.

(** X18.  [update_headers] returns only on the server's word that nothing is
    missing.  Whenever a bulk download returns, its last call is the request
    for the headers from the local height on, and the server has answered that
    request with a count of zero or less. *)
Theorem update_headers_returns_on_empty_answer (fuel : nat) (l l' : HeaderLedger Headers) :
  update_headers fuel l = (Return tt, l') ->
  last (header_calls l') = Some (GetHeaders (len (headers l')) 2000) /\
  exists count hex, get_headers (len (headers l')) 2000 = Ok (count, hex) /\ count <= 0.
Proof.
  revert l. induction fuel as [|fuel IH]; intros l Hrun; [discriminate|].
  destruct (get_headers (len (headers l)) 2000) as [[count hex]|e] eqn:Hanswer.
  - rewrite (update_headers_round _ _ _ _ Hanswer) in Hrun.
    destruct (Z.leb_spec count 0) as [Hle | Hgt].
    + injection Hrun as <-. simpl. rewrite last_snoc. split; [done|]. eauto.
    + apply bind_Return_inv in Hrun as (raw & l1 & _ & Hrun).
      apply bind_Return_inv in Hrun as ([] & l2 & _ & Hrun).
      apply bind_Return_inv in Hrun as ([] & l3 & _ & Hrun).
      by apply IH in Hrun.
  - simpl in Hrun. unfold bind at 1 in Hrun. unfold gets at 1 in Hrun.
    unfold bind at 1 in Hrun. unfold network_get_headers, bind, modify, lift at 1 in Hrun.
    rewrite Hanswer in Hrun. discriminate.
Qed.

(** X19.  The bulk download reaches the server's height.  Against a server that
    has [server_height] headers and hands them out in non-empty chunks that
    the header store accepts, a download that starts at or below that height
    returns, given one round more than the number of missing headers, with the
    local height equal to the server's. *)
Theorem update_headers_reaches_server_height (server_height : Z) (fuel : nat)
    (l : HeaderLedger Headers) :
  (forall start, start < server_height ->
     exists count hex raw,
       get_headers start 2000 = Ok (count, hex) /\ 0 < count /\
       start + count <= server_height /\ unhexlify hex = Ok raw /\
       forall hs, len hs = start ->
         exists hs', connect hs start raw = Ok hs' /\ len hs' = start + count) ->
  (forall start, server_height <= start ->
     exists count hex, get_headers start 2000 = Ok (count, hex) /\ count <= 0) ->
  len (headers l) <= server_height ->
  (Z.to_nat (server_height - len (headers l)) < fuel)%nat ->
  exists l', update_headers fuel l = (Return tt, l') /\ len (headers l') = server_height.
Proof.
  intros Hchunk Hend. revert l.
  induction fuel as [|fuel IH]; intros l Hbelow Hfuel; [lia|].
  destruct (Z.eq_dec (len (headers l)) server_height) as [Hsame | Hless].
  - destruct (Hend (len (headers l)) ltac:(lia)) as (count & hex & Hanswer & Hle).
    rewrite (update_headers_round _ _ _ _ Hanswer).
    replace (count <=? 0) with true by (symmetry; apply Z.leb_le; lia).
    eexists. split; [reflexivity | exact Hsame].
  - destruct (Hchunk (len (headers l)) ltac:(lia))
      as (count & hex & raw & Hanswer & Hpos & Hfit & Hhex & Hconnect).
    destruct (Hconnect (headers l) eq_refl) as (hs' & Hhs' & Hlen).
    rewrite (update_headers_round _ _ _ _ Hanswer).
    replace (count <=? 0) with false by (symmetry; apply Z.leb_gt; lia).
    unfold bind at 1. unfold lift at 1. rewrite Hhex. simpl.
    unfold bind at 1. unfold headers_connect, bind, get, modify, lift at 1. simpl.
    rewrite Hhs'. simpl.
    apply IH; simpl; lia.
Qed.

(** X20.  A header that is not ahead is dropped.  When the lock is free and the
    pushed header's height is below the local height, [process_header] returns
    and leaves the ledger exactly as it was: nothing is appended, requested or
    published, the header's hex text is not even decoded, and the lock is free
    again. *)
Theorem process_header_drops_stale (header_height : Z) (header_hex : string)
    (rest : list (Z * string)) (fuel : nat) (l : HeaderLedger Headers) :
  header_processing_lock l = false ->
  header_height < len (headers l) ->
  process_header ((header_height, header_hex) :: rest) fuel l = (Return tt, l).
Proof.
  intros Hlock Hstale. rewrite process_header_unlocked by assumption.
  unfold process_header_body, bind, lift, gets. simpl.
  replace (header_height =? len (headers l)) with false by (symmetry; apply Z.eqb_neq; lia).
  replace (header_height >? len (headers l)) with false
    by (symmetry; rewrite Z.gtb_ltb; apply Z.ltb_ge; lia).
  simpl. destruct l. simpl in Hlock. subst. reflexivity.
Qed.

End WithHeaders.

Arguments store {Headers} _.
Arguments lock_taken {Headers} _.
Arguments lock_queue {Headers} _.
Arguments trace {Headers} _.
Arguments coroutines {Headers} _.

(** ** A bulk catch-up called directly *)

(** A header store that keeps the raw chunks it was given, and a server with
    two more headers, sent one per request. *)
Definition sample_connect (hs : list bytes) (start : Z) (raw : bytes) : result (list bytes) :=
  Ok (hs ++ [raw]).

Definition sample_get_headers (start count : Z) : result (Z * string) :=
  if start <? 2 then Ok (1, "00") else Ok (0, "").

Definition sample_len (hs : list bytes) : Z := Z.of_nat (length hs).

Definition sample_height (hs : list bytes) : Z := Z.of_nat (length hs) - 1.

Definition idle : HeaderLedger (list bytes) :=
  {| headers := []; header_processing_lock := false; header_calls := [] |}.

(** C3 as stated fails here.  [start()] calls [update_headers()] (line 227)
    without taking the lock: both appends of this catch-up are made with the
    lock free. *)
Lemma update_headers_appends_without_lock :
  update_headers (list bytes) sample_len sample_height sample_connect sample_get_headers 5 idle
  = (Return tt,
     {| headers := [[x00]; [x00]];
        header_processing_lock := false;
        header_calls := [GetHeaders 0 2000; Connect 0 [x00] false; OnHeader 0;
                         GetHeaders 1 2000; Connect 1 [x00] false; OnHeader 1;
                         GetHeaders 2 2000] |}).
Proof. vm_compute. reflexivity. Qed.

(** The same two headers fetched because a pushed header is ahead of the
    local chain: both appends are made under the lock. *)
Example process_header_skips_ahead :
  process_header (list bytes) sample_len sample_height sample_connect sample_get_headers
    [(7, "00")] 5 idle
  = (Return tt,
     {| headers := [[x00]; [x00]];
        header_processing_lock := false;
        header_calls := [GetHeaders 0 2000; Connect 0 [x00] true; OnHeader 0;
                         GetHeaders 1 2000; Connect 1 [x00] true; OnHeader 1;
                         GetHeaders 2 2000] |}).
Proof. vm_compute. reflexivity. Qed.

(** ** Calls that overlap *)

Abbreviation run_sample schedule w :=
  (run_schedule (list bytes) sample_len sample_height sample_connect sample_get_headers
     schedule w).

(** A push handler that runs alone under the scheduler makes the calls of
    the sequential [process_header], and leaves the same headers and a free
    lock. *)
Example single_push_replays_process_header :
  let w := run_sample (repeat 0%nat 12)
             {| store := []; lock_taken := false; lock_queue := []; trace := [];
                coroutines := {[0%nat := Arrived [(7, "00")]]} |} in
  let l := snd (process_header (list bytes) sample_len sample_height sample_connect
                  sample_get_headers [(7, "00")] 5 idle) in
  map snd (trace w) = header_calls l /\ store w = headers l /\
  lock_taken w = header_processing_lock l /\
  coroutines w = {[0%nat := Returned PushEntry]}.
Proof. vm_compute. auto. Qed.

(** A direct call of [update_headers] beside a push handler that has fallen
    back to the bulk download: both ask for the headers from height 0 on, and
    both append at height 0, one after the other.  The second append is made
    while the lock is taken, but by a call that never took it. *)
Example update_headers_appends_beside_push_handler :
  let w := run_sample [0; 0; 0; 1; 0; 1]%nat
             {| store := []; lock_taken := false; lock_queue := []; trace := [];
                coroutines := <[0%nat := Arrived [(7, "00")]]> {[1%nat := Seeking BulkEntry]} |} in
  trace w = [(0%nat, GetHeaders 0 2000); (1%nat, GetHeaders 0 2000);
             (0%nat, Connect 0 [x00] true); (1%nat, Connect 0 [x00] true)] /\
  store w = [[x00]; [x00]] /\
  holds <$> coroutines w !! 0%nat = Some true /\
  holds <$> coroutines w !! 1%nat = Some false.
Proof. vm_compute. auto. Qed.

(** Two headers are pushed at once: the first one is ahead of the local
    chain, the second one is the header that follows the two headers of the
    server of [sample_get_headers]. *)
Definition two_pushes : World (list bytes) :=
  {| store := []; lock_taken := false; lock_queue := []; trace := [];
     coroutines := <[0%nat := Arrived [(7, "00")]]> {[1%nat := Arrived [(2, "01")]]} |}.

Lemma two_pushes_initial : initial (list bytes) two_pushes.
Proof.
  split_and!; try reflexivity. intros k c Hk. left. unfold two_pushes in Hk. simpl in Hk.
  destruct (decide (k = 0%nat)) as [-> | H0].
  - rewrite lookup_insert_eq in Hk. injection Hk as <-. eauto.
  - rewrite lookup_insert_ne in Hk by done.
    apply lookup_singleton_Some in Hk as [_ <-]. eauto.
Qed.

(** The second handler is queued while the first one downloads the two
    headers; it then appends the pushed header.  The appends are made by the
    handlers 0, 0 and 1, each with the lock taken, and the lock ends free. *)
Lemma push_handlers_append_in_turns_witness :
  appenders (pushed (list bytes) two_pushes)
    (trace (run_sample [0; 1; 0; 0; 1; 0; 0; 0; 1; 0; 0; 0; 1; 1; 1]%nat two_pushes))
  = [0; 0; 1]%nat /\
  in_turns [0; 0; 1]%nat /\
  lock_taken (run_sample [0; 1; 0; 0; 1; 0; 0; 0; 1; 0; 0; 0; 1; 1; 1]%nat two_pushes) = false /\
  store (run_sample [0; 1; 0; 0; 1; 0; 0; 0; 1; 0; 0; 0; 1; 1; 1]%nat two_pushes)
  = [[x00]; [x00]; [x01]].
Proof.
  assert (Happenders :
            appenders (pushed (list bytes) two_pushes)
              (trace (run_sample [0; 1; 0; 0; 1; 0; 0; 0; 1; 0; 0; 0; 1; 1; 1]%nat two_pushes))
            = [0; 0; 1]%nat) by (vm_compute; reflexivity).
  destruct (push_handlers_append_in_turns (list bytes) sample_len sample_height sample_connect
              sample_get_headers [0; 1; 0; 0; 1; 0; 0; 0; 1; 0; 0; 0; 1; 1; 1]%nat two_pushes
              two_pushes_initial) as (_ & _ & _ & Hturns & _).
  rewrite Happenders in Hturns.
  split_and!; [exact Happenders | exact Hturns | vm_compute; reflexivity
              | vm_compute; reflexivity].
Defined.

(** The server of [sample_get_headers] has two headers. *)
Lemma update_headers_returns_on_empty_answer_witness :
  last (header_calls
          (snd (update_headers (list bytes) sample_len sample_height sample_connect
                  sample_get_headers 5 idle)))
  = Some (GetHeaders 2 2000) /\
  exists count hex, sample_get_headers 2 2000 = Ok (count, hex) /\ count <= 0.
Proof.
  apply (update_headers_returns_on_empty_answer (list bytes) sample_len sample_height
           sample_connect sample_get_headers 5 idle).
  vm_compute. reflexivity.
Defined.

Lemma update_headers_reaches_server_height_witness :
  exists l',
    update_headers (list bytes) sample_len sample_height sample_connect sample_get_headers
      3 idle = (Return tt, l') /\
    sample_len (headers l') = 2.
Proof.
  apply (update_headers_reaches_server_height (list bytes) sample_len sample_height
           sample_connect sample_get_headers 2 3 idle).
  - intros start Hstart. exists 1, "00", [x00]. unfold sample_get_headers.
    replace (start <? 2) with true by (symmetry; apply Z.ltb_lt; lia).
    split_and!; try done; try lia.
    intros hs Hlen. exists (hs ++ [[x00]]). split; [reflexivity|].
    unfold sample_len in *. rewrite length_app. simpl. lia.
  - intros start Hstart. exists 0, "". unfold sample_get_headers.
    replace (start <? 2) with false by (symmetry; apply Z.ltb_ge; lia).
    split; [reflexivity | lia].
  - vm_compute. discriminate.
  - vm_compute. lia.
Defined.

(** A header of height 1 pushed to a ledger that has two headers. *)
Definition two_headers : HeaderLedger (list bytes) :=
  {| headers := [[x00]; [x00]]; header_processing_lock := false; header_calls := [] |}.

Lemma process_header_drops_stale_witness :
  process_header (list bytes) sample_len sample_height sample_connect sample_get_headers
    [(1, "not hexadecimal")] 5 two_headers
  = (Return tt, two_headers).
Proof.
  apply (process_header_drops_stale (list bytes) sample_len sample_height sample_connect
           sample_get_headers 1 "not hexadecimal" [] 5 two_headers).
  - reflexivity.
  - vm_compute. reflexivity.
Defined.

End HeaderSync.

(* ===================================================================== *)
(** * UTXO reservation gate (baseledger.py, lines 148-182)                 *)
(* ===================================================================== *)

Module Reservation.

(** The calls of [get_spendable_utxos] to its collaborators. *)
Inductive reservation_call (Account Txo : Type) : Type :=
| GetUnspentOutputs (account : Account)
| ReserveOutputs (txos : list Txo).
Arguments GetUnspentOutputs {Account Txo} account.
Arguments ReserveOutputs {Account Txo} txos.

Record ReservationLedger (DB Account Txo : Type) : Type := {
  db : DB;
  utxo_reservation_lock : bool;
  reservation_calls : list (reservation_call Account Txo)
}.
Arguments db {DB Account Txo} _.
Arguments utxo_reservation_lock {DB Account Txo} _.
Arguments reservation_calls {DB Account Txo} _.

Section WithWallet.

(** The database, accounts, outputs and effective-amount estimators, with
    the operations that the gate calls on them:
    [account.get_unspent_outputs()] (a read of the database),
    [utxo.get_estimator(ledger)], [CoinSelector(txos, amount, cost).select()],
    [s.txo], [db.reserve_outputs(txos)], and the size of the output
    [pay_pubkey_hash(COIN, NULL_HASH32)]. *)
Variables DB Account Txo Estimator : Type.
Variable get_unspent_outputs : Account -> DB -> result (list Txo).
Variable get_estimator : Txo -> Estimator.
Variable select : list Estimator -> Z -> Z -> result (list Estimator).
Variable txo : Estimator -> Txo.
Variable reserve_outputs : DB -> list Txo -> result DB.
Variable fee_per_byte : Z.
Variable pay_pubkey_hash_size : Z.

Abbreviation Ledger := (ReservationLedger DB Account Txo).

Definition add_call (c : reservation_call Account Txo) (l : Ledger) : Ledger :=
  {| db := db l; utxo_reservation_lock := utxo_reservation_lock l;
     reservation_calls := reservation_calls l ++ [c] |}.

Definition set_lock (locked : bool) (l : Ledger) : Ledger :=
  {| db := db l; utxo_reservation_lock := locked;
     reservation_calls := reservation_calls l |}.

Definition set_db (d : DB) (l : Ledger) : Ledger :=
  {| db := d; utxo_reservation_lock := utxo_reservation_lock l;
     reservation_calls := reservation_calls l |}.

(** [BaseLedger.get_input_output_fee] *)
Definition get_input_output_fee (io_size : Z) : Z := fee_per_byte * io_size.

(** [yield account.get_unspent_outputs()] *)
Definition account_get_unspent_outputs (account : Account) : M Ledger (list Txo) :=
  modify (add_call (GetUnspentOutputs account)) ;;;
  let* l := get in
  lift (get_unspent_outputs account (db l)).

(** [BaseLedger.reserve_outputs]: a failing database call leaves the
    database as it was. *)
Definition db_reserve_outputs (txos : list Txo) : M Ledger unit :=
  modify (add_call (ReserveOutputs txos)) ;;;
  let* l := get in
  let* d := lift (reserve_outputs (db l) txos) in
  modify (set_db d).

(** [BaseLedger.get_effective_amount_estimators], with the list built so
    far. *)
Fixpoint get_effective_amount_estimators (funding_accounts : list Account)
    (estimators : list Estimator) : M Ledger (list Estimator) :=
  match funding_accounts with
  | [] => ret estimators
  | account :: rest =>
      let* utxos := account_get_unspent_outputs account in
      get_effective_amount_estimators rest (estimators ++ map get_estimator utxos)
  end.

Definition lock_acquire : M Ledger unit :=
  let* l := get in
  if utxo_reservation_lock l then stuck WaitingForLock else modify (set_lock true).

Definition lock_release : M Ledger unit := modify (set_lock false).

(** The [try] block of [get_spendable_utxos] (lines 161-170). *)
Definition get_spendable_utxos_body (amount : Z) (funding_accounts : list Account)
    : M Ledger (list Estimator) :=
  let* txos := get_effective_amount_estimators funding_accounts [] in
  let* spendables := lift (select txos amount (get_input_output_fee pay_pubkey_hash_size)) in
  (match spendables with
   | _ :: _ => db_reserve_outputs (map txo spendables)
   | [] => ret tt
   end) ;;;
  ret spendables.

(** [BaseLedger.get_spendable_utxos] *)
Definition get_spendable_utxos (amount : Z) (funding_accounts : list Account)
    : M Ledger (list Estimator) :=
  lock_acquire ;;;
  let* spendables :=
    try_finally (get_spendable_utxos_body amount funding_accounts) lock_release in
  ret spendables.

(** ** Concurrent calls under the cooperative scheduler

    Several calls of [get_spendable_utxos] run as coroutines on one thread.
    A call gives up control only at a [yield]; between two of them it runs
    alone.  A coroutine is a call stopped at one of its yields. *)
Inductive coroutine : Type :=
| Start (amount : Z) (funding_accounts : list Account)
    (* about to [yield self._utxo_reservation_lock.acquire()] (line 159) *)
| Waiting (amount : Z) (funding_accounts : list Account)
    (* queued on the lock *)
| Collecting (amount : Z) (remaining : list Account) (estimators : list Estimator)
    (* holds the lock, about to [yield account.get_unspent_outputs()]
       (line 152) or, with no account left, to select *)
| Reserving (spendables : list Estimator)
    (* holds the lock, about to [yield self.reserve_outputs(...)] (line 170) *)
| Returned (spendables : list Estimator)
| Failed (e : exn).

(** The database, the [DeferredLock] (its flag and its queue of waiting
    coroutines) and the coroutines by number. *)
Record Wallet : Type := {
  wallet_db : DB;
  locked : bool;
  waiting : list nat;
  coroutines : gmap nat coroutine
}.

Definition set_coroutine (i : nat) (t : coroutine) (w : Wallet) : Wallet :=
  {| wallet_db := wallet_db w; locked := locked w; waiting := waiting w;
     coroutines := <[i := t]> (coroutines w) |}.

Definition set_wallet_db (d : DB) (w : Wallet) : Wallet :=
  {| wallet_db := d; locked := locked w; waiting := waiting w; coroutines := coroutines w |}.

(** [DeferredLock.release]: the first waiting coroutine, if any, gets the lock
    and goes on; otherwise the lock becomes free. *)
Definition release (w : Wallet) : Wallet :=
  match waiting w with
  | [] =>
      {| wallet_db := wallet_db w; locked := false; waiting := [];
         coroutines := coroutines w |}
  | j :: rest =>
      {| wallet_db := wallet_db w; locked := locked w; waiting := rest;
         coroutines := alter (fun t => match t with
                                       | Waiting amount funding_accounts =>
                                           Collecting amount funding_accounts []
                                       | _ => t
                                       end) j (coroutines w) |}
  end.

(** Coroutine [i] runs up to its next yield.  Coin selection gets a step of
    its own although the code runs it together with the last read: every run
    of the code is then a run of this scheduler. *)
Definition step (i : nat) (w : Wallet) : Wallet :=
  match coroutines w !! i with
  | Some (Start amount funding_accounts) =>
      if locked w then
        {| wallet_db := wallet_db w; locked := true; waiting := waiting w ++ [i];
           coroutines := <[i := Waiting amount funding_accounts]> (coroutines w) |}
      else
        {| wallet_db := wallet_db w; locked := true; waiting := waiting w;
           coroutines := <[i := Collecting amount funding_accounts []]> (coroutines w) |}
  | Some (Collecting amount (account :: rest) estimators) =>
      match get_unspent_outputs account (wallet_db w) with
      | Ok utxos =>
          set_coroutine i (Collecting amount rest (estimators ++ map get_estimator utxos)) w
      | Err e => release (set_coroutine i (Failed e) w)
      end
  | Some (Collecting amount [] estimators) =>
      match select estimators amount (get_input_output_fee pay_pubkey_hash_size) with
      | Ok [] => release (set_coroutine i (Returned []) w)
      | Ok spendables => set_coroutine i (Reserving spendables) w
      | Err e => release (set_coroutine i (Failed e) w)
      end
  | Some (Reserving spendables) =>
      match reserve_outputs (wallet_db w) (map txo spendables) with
      | Ok d => release (set_coroutine i (Returned spendables) (set_wallet_db d w))
      | Err e => release (set_coroutine i (Failed e) w)
      end
  | Some (Waiting _ _) | Some (Returned _) | Some (Failed _) | None => w
  end.

(** A schedule names the coroutine that runs next, step after step. *)
Definition run_schedule (schedule : list nat) (w : Wallet) : Wallet :=
  fold_left (fun w i => step i w) schedule w.

(** Before any call has started. *)
Definition initial (w : Wallet) : Prop :=
  locked w = false /\
  forall i t, coroutines w !! i = Some t ->
    exists amount funding_accounts, t = Start amount funding_accounts.

(** A coroutine that holds the lock. *)
Definition critical (t : coroutine) : Prop :=
  match t with
  | Collecting _ _ _ | Reserving _ => True
  | _ => False
  end.

(** The outputs a coroutine is choosing among, and those it has returned. *)
Definition candidates (t : coroutine) : list Estimator :=
  match t with
  | Collecting _ _ estimators => estimators
  | Reserving spendables => spendables
  | _ => []
  end.

Definition returned (t : coroutine) : list Estimator :=
  match t with
  | Returned spendables => spendables
  | _ => []
  end.

(** [is_reserved d u]: output [u] is reserved in database [d]. *)
Variable is_reserved : DB -> Txo -> Prop.

(** The invariant of the scheduler: one holder at most, and only under a
    taken lock; the holder's candidates are not reserved; what a call has
    returned is reserved, and no two calls have returned the same output. *)
Record inv (w : Wallet) : Prop := {
  inv_excl : forall i j ti tj,
    coroutines w !! i = Some ti -> coroutines w !! j = Some tj ->
    critical ti -> critical tj -> i = j;
  inv_lock : forall i ti, coroutines w !! i = Some ti -> critical ti -> locked w = true;
  inv_cand : forall i ti s,
    coroutines w !! i = Some ti -> s ∈ candidates ti -> ~ is_reserved (wallet_db w) (txo s);
  inv_res : forall i ti s,
    coroutines w !! i = Some ti -> s ∈ returned ti -> is_reserved (wallet_db w) (txo s);
  inv_disj : forall i j ti tj s s',
    i <> j -> coroutines w !! i = Some ti -> coroutines w !! j = Some tj ->
    s ∈ returned ti -> s' ∈ returned tj -> txo s <> txo s'
}.

(** ** Exit paths *)


Lemma get_spendable_utxos_unlocked amount funding_accounts (l : Ledger) :
  utxo_reservation_lock l = false ->
  get_spendable_utxos amount funding_accounts l
  = match get_spendable_utxos_body amount funding_accounts (set_lock true l) with
    | (Return spendables, l') => (Return spendables, set_lock false l')
    | (Raise e, l') => (Raise e, set_lock false l')
    | (Stuck r, l') => (Stuck r, l')
    end.
Proof.
  intros Hlock. unfold get_spendable_utxos, bind, lock_acquire, bind, get, modify.
  rewrite Hlock. unfold try_finally, lock_release, modify.
  by destruct (get_spendable_utxos_body amount funding_accounts (set_lock true l))
    as [[spendables|e|r] l'].
Qed.




(** ** The estimators and the reservation *)

Lemma get_effective_amount_estimators_run funding_accounts :
  forall estimators (l : Ledger) unspent,
  map_result (fun account => get_unspent_outputs account (db l)) funding_accounts
    = Ok unspent ->
  get_effective_amount_estimators funding_accounts estimators l
  = (Return (estimators ++ map get_estimator (concat unspent)),
     {| db := db l; utxo_reservation_lock := utxo_reservation_lock l;
        reservation_calls := reservation_calls l ++ map GetUnspentOutputs funding_accounts |}).
Proof.
  induction funding_accounts as [|account rest IH]; intros estimators l unspent Hall;
    simpl in Hall.
  - injection Hall as <-. simpl. rewrite !app_nil_r. by destruct l.
  - destruct (get_unspent_outputs account (db l)) as [utxos|e] eqn:Hutxos; [|discriminate].
    simpl in Hall.
    destruct (map_result _ rest) as [others|e] eqn:Hrest; [|discriminate].
    injection Hall as <-. simpl.
    unfold bind at 1. unfold account_get_unspent_outputs, bind, modify, get, lift. simpl.
    rewrite Hutxos. simpl.
    rewrite (IH _ (add_call (GetUnspentOutputs account) l) others) by exact Hrest.
    simpl. by rewrite map_app, <- !app_assoc.
Qed.

(** X21.  The candidates come account by account.  When every funding account
    can list its unspent outputs, [get_effective_amount_estimators] asks each
    account once, in the order given, and returns one estimator per output in
    that same order (the outputs of the first account first); it only
    reads. *)
Theorem get_effective_amount_estimators_in_order (funding_accounts : list Account)
    (l : Ledger) (unspent : list (list Txo)) :
  map_result (fun account => get_unspent_outputs account (db l)) funding_accounts
    = Ok unspent ->
  get_effective_amount_estimators funding_accounts [] l
  = (Return (map get_estimator (concat unspent)),
     {| db := db l; utxo_reservation_lock := utxo_reservation_lock l;
        reservation_calls := reservation_calls l ++ map GetUnspentOutputs funding_accounts |}).
Proof. intros Hall. by rewrite (get_effective_amount_estimators_run _ [] l unspent). Qed.

(** X22.  What is returned is what was reserved.  When coin selection picks at
    least one output and the database accepts the reservation,
    [get_spendable_utxos] returns exactly the selection, and has called
    [reserve_outputs] once, after all reads, with the outputs of exactly the
    returned estimators, in the same order; the database is the one that this
    reservation produced and the lock is free. *)
Theorem get_spendable_utxos_reserves_selection (amount : Z) (funding_accounts : list Account)
    (l : Ledger) (unspent : list (list Txo)) (spendables : list Estimator) (d : DB) :
  utxo_reservation_lock l = false ->
  map_result (fun account => get_unspent_outputs account (db l)) funding_accounts
    = Ok unspent ->
  select (map get_estimator (concat unspent)) amount
    (get_input_output_fee pay_pubkey_hash_size) = Ok spendables ->
  spendables <> [] ->
  reserve_outputs (db l) (map txo spendables) = Ok d ->
  get_spendable_utxos amount funding_accounts l
  = (Return spendables,
     {| db := d; utxo_reservation_lock := false;
        reservation_calls :=
          reservation_calls l ++ map GetUnspentOutputs funding_accounts
            ++ [ReserveOutputs (map txo spendables)] |}).
Proof.
  intros Hlock Hall Hselect Hne Hreserve.
  rewrite get_spendable_utxos_unlocked by assumption.
  unfold get_spendable_utxos_body, bind at 1.
  rewrite (get_effective_amount_estimators_run _ [] (set_lock true l) unspent) by exact Hall.
  simpl. unfold bind at 1. unfold lift at 1. rewrite Hselect. simpl.
  destruct spendables as [|s spendables]; [done|].
  unfold bind, db_reserve_outputs, bind, modify, get, lift. simpl in Hreserve |- *.
  rewrite Hreserve. simpl. unfold set_lock, set_db, add_call. simpl.
  by rewrite <- app_assoc.
Qed.

(** ** The lock and its queue *)

(** A call that has ended. *)
Definition finished (t : coroutine) : Prop :=
  match t with
  | Returned _ | Failed _ => True
  | _ => False
  end.

(** The lock and its queue agree with the coroutines: one holder at most;
    the lock is taken exactly when some coroutine holds it; the queue lists,
    once each, exactly the coroutines that wait; and nobody waits for a free
    lock. *)
Record queue_inv (w : Wallet) : Prop := {
  q_excl : forall i j ti tj,
    coroutines w !! i = Some ti -> coroutines w !! j = Some tj ->
    critical ti -> critical tj -> i = j;
  q_lock : forall i ti, coroutines w !! i = Some ti -> critical ti -> locked w = true;
  q_held : locked w = true -> exists i ti, coroutines w !! i = Some ti /\ critical ti;
  q_waiting : forall j,
    j ∈ waiting w <->
    exists amount funding_accounts,
      coroutines w !! j = Some (Waiting amount funding_accounts);
  q_nodup : NoDup (waiting w);
  q_free : locked w = false -> waiting w = []
}.

Lemma initial_queue_inv w : initial w -> waiting w = [] -> queue_inv w.
Proof.
  intros [Hfree Hstart] Hqueue. split.
  - intros i j ti tj Hi _ Hci. destruct (Hstart _ _ Hi) as (? & ? & ->). done.
  - intros i ti Hi Hci. destruct (Hstart _ _ Hi) as (? & ? & ->). done.
  - congruence.
  - intros j. rewrite Hqueue. split.
    + by intros ?%elem_of_nil.
    + intros (? & ? & Hj). destruct (Hstart _ _ Hj) as (? & ? & ?). done.
  - rewrite Hqueue. constructor.
  - done.
Qed.

(** The holder goes on holding. *)
Lemma holder_queue_inv w i ti t' :
  queue_inv w -> coroutines w !! i = Some ti -> critical ti -> critical t' ->
  queue_inv (set_coroutine i t' w).
Proof.
  intros Hinv Hi Hci Hc'. split; simpl.
  - intros j k tj tk Hj Hk Hcj Hck.
    assert (Hone : forall n tn, <[i := t']> (coroutines w) !! n = Some tn -> critical tn ->
              n = i).
    { intros n tn Hn Hcn. destruct (decide (i = n)) as [<- | Hne]; [done|].
      rewrite lookup_insert_ne in Hn by done. by eapply (q_excl w Hinv). }
    by rewrite (Hone _ _ Hj Hcj), (Hone _ _ Hk Hck).
  - intros _ _ _ _. by eapply (q_lock w Hinv).
  - intros _. exists i, t'. by rewrite lookup_insert_eq.
  - intros j. rewrite (q_waiting w Hinv j).
    destruct (decide (i = j)) as [<- | Hne]; split; intros (a & f & H).
    + rewrite Hi in H. injection H as ->. done.
    + rewrite lookup_insert_eq in H. injection H as ->. done.
    + exists a, f. by rewrite lookup_insert_ne.
    + exists a, f. by rewrite lookup_insert_ne in H.
  - apply (q_nodup w Hinv).
  - apply (q_free w Hinv).
Qed.

(** The holder ends, and the lock goes to the head of the queue or becomes
    free. *)
Lemma finish_queue_inv w i ti t' d :
  queue_inv w -> coroutines w !! i = Some ti -> critical ti -> finished t' ->
  queue_inv (release (set_coroutine i t' (set_wallet_db d w))) /\
  coroutines (release (set_coroutine i t' (set_wallet_db d w))) !! i = Some t'.
Proof.
  intros Hinv Hi Hci Hdone.
  pose proof (q_lock w Hinv _ _ Hi Hci) as Hlocked.
  assert (Hnc : ~ critical t') by (destruct t'; simpl in *; try done; by intros []).
  assert (Hold : forall n tn, n <> i -> coroutines w !! n = Some tn -> ~ critical tn).
  { intros n tn Hne Hn Hcn. apply Hne. by eapply (q_excl w Hinv). }
  unfold release. simpl. destruct (waiting w) as [|j rest] eqn:Hqueue.
  - split; [|simpl; by rewrite lookup_insert_eq].
    assert (Hnone : forall n tn, <[i := t']> (coroutines w) !! n = Some tn -> ~ critical tn).
    { intros n tn Hn. destruct (decide (i = n)) as [<- | Hne].
      - rewrite lookup_insert_eq in Hn. by injection Hn as <-.
      - rewrite lookup_insert_ne in Hn by done. by eapply Hold. }
    split; simpl.
    + intros n k tn tk Hn _ Hcn. by destruct (Hnone _ _ Hn).
    + intros n tn Hn Hcn. by destruct (Hnone _ _ Hn).
    + done.
    + intros n. split; [by intros ?%elem_of_nil|].
      intros (amount & accounts & Hn). destruct (decide (i = n)) as [<- | Hne].
      * rewrite lookup_insert_eq in Hn. injection Hn as ->. done.
      * rewrite lookup_insert_ne in Hn by done.
        assert (n ∈ waiting w) as Hin by (apply (q_waiting w Hinv); eauto).
        rewrite Hqueue in Hin. by apply elem_of_nil in Hin.
    + constructor.
    + done.
  - set (wake := fun t => match t with
                          | Waiting amount funding_accounts =>
                              Collecting amount funding_accounts []
                          | _ => t
                          end).
    assert (Hj : exists amount accounts, coroutines w !! j = Some (Waiting amount accounts)).
    { apply (q_waiting w Hinv). rewrite Hqueue. apply list_elem_of_here. }
    destruct Hj as (amount & accounts & Hj).
    assert (Hij : i <> j) by (intros <-; rewrite Hi in Hj; injection Hj as ->; done).
    pose proof (q_nodup w Hinv) as Hnodup. rewrite Hqueue in Hnodup.
    apply NoDup_cons in Hnodup as [Hfresh Hnodup].
    assert (Hnew : forall n,
              alter wake j (<[i := t']> (coroutines w)) !! n =
              if decide (n = j) then Some (Collecting amount accounts [])
              else if decide (n = i) then Some t' else coroutines w !! n).
    { intros n. destruct (decide (n = j)) as [-> | Hnj].
      - by rewrite lookup_alter_eq, lookup_insert_ne, Hj.
      - rewrite lookup_alter_ne by done. destruct (decide (n = i)) as [-> | Hni].
        + by rewrite lookup_insert_eq.
        + by rewrite lookup_insert_ne. }
    split; [|simpl; rewrite Hnew; by repeat case_decide].
    assert (Hone : forall n tn,
              alter wake j (<[i := t']> (coroutines w)) !! n = Some tn -> critical tn -> n = j).
    { intros n tn Hn Hcn. rewrite Hnew in Hn. repeat case_decide; simplify_eq; try done.
      by destruct (Hold _ _ ltac:(done) Hn). }
    split; simpl.
    + intros n k tn tk Hn Hk Hcn Hck. by rewrite (Hone _ _ Hn Hcn), (Hone _ _ Hk Hck).
    + done.
    + intros _. exists j, (Collecting amount accounts []). rewrite Hnew.
      by rewrite decide_True.
    + intros n. rewrite Hnew. split.
      * intros Hin.
        assert (n ∈ waiting w) as Hw by (rewrite Hqueue; by apply list_elem_of_further).
        apply (q_waiting w Hinv) in Hw as (a & f & Hn).
        exists a, f. repeat case_decide; simplify_eq; done.
      * intros (a & f & Hn). repeat case_decide; simplify_eq.
        assert (n ∈ waiting w) as Hw by (apply (q_waiting w Hinv); eauto).
        rewrite Hqueue in Hw. apply elem_of_cons in Hw as [-> | Hw]; done.
    + done.
    + congruence.
Qed.

Lemma step_queue_inv i w : queue_inv w -> queue_inv (step i w).
Proof.
  intros Hinv. unfold step.
  destruct (coroutines w !! i)
    as [[amount accounts|amount accounts|amount [|account rest] estimators
        |spendables|spendables|e]|] eqn:Hi; try done.
  - destruct (locked w) eqn:Hlocked.
    + (* queued behind the holder *)
      assert (Hnew : i ∉ waiting w).
      { intros Hin. apply (q_waiting w Hinv) in Hin as (? & ? & Hw). congruence. }
      split; simpl.
      * intros j k tj tk Hj Hk Hcj Hck.
        assert (Hone : forall n tn,
                  <[i := Waiting amount accounts]> (coroutines w) !! n = Some tn ->
                  critical tn -> coroutines w !! n = Some tn).
        { intros n tn Hn Hcn. destruct (decide (i = n)) as [<- | Hne].
          - rewrite lookup_insert_eq in Hn. by injection Hn as <-.
          - by rewrite lookup_insert_ne in Hn. }
        eapply (q_excl w Hinv); eauto.
      * done.
      * intros _. destruct (q_held w Hinv Hlocked) as (k & tk & Hk & Hck).
        exists k, tk. split; [|done]. rewrite lookup_insert_ne; [done|].
        intros <-. rewrite Hi in Hk. by injection Hk as <-.
      * intros j. rewrite elem_of_app, list_elem_of_singleton, (q_waiting w Hinv j).
        destruct (decide (i = j)) as [<- | Hne]; split.
        -- intros _. exists amount, accounts. by rewrite lookup_insert_eq.
        -- intros _. by right.
        -- intros [(a & f & H) | ->]; [|done]. exists a, f. by rewrite lookup_insert_ne.
        -- intros (a & f & H). left. exists a, f. by rewrite lookup_insert_ne in H.
      * apply NoDup_app. split; [apply (q_nodup w Hinv)|]. split.
        -- intros j Hj ->%list_elem_of_singleton. done.
        -- apply NoDup_singleton.
      * done.
    + (* the lock was free *)
      pose proof (q_free w Hinv Hlocked) as Hqueue.
      assert (Hnone : forall n tn, coroutines w !! n = Some tn -> ~ critical tn).
      { intros n tn Hn Hcn. pose proof (q_lock w Hinv _ _ Hn Hcn). congruence. }
      split; simpl.
      * intros j k tj tk Hj Hk Hcj Hck.
        assert (Hone : forall n tn,
                  <[i := Collecting amount accounts []]> (coroutines w) !! n = Some tn ->
                  critical tn -> n = i).
        { intros n tn Hn Hcn. destruct (decide (i = n)) as [<- | Hne]; [done|].
          rewrite lookup_insert_ne in Hn by done. by destruct (Hnone _ _ Hn). }
        by rewrite (Hone _ _ Hj Hcj), (Hone _ _ Hk Hck).
      * done.
      * intros _. exists i, (Collecting amount accounts []). by rewrite lookup_insert_eq.
      * intros j. rewrite (q_waiting w Hinv j).
        destruct (decide (i = j)) as [<- | Hne]; split; intros (a & f & H).
        -- rewrite Hi in H. discriminate.
        -- rewrite lookup_insert_eq in H. discriminate.
        -- exists a, f. by rewrite lookup_insert_ne.
        -- exists a, f. by rewrite lookup_insert_ne in H.
      * apply (q_nodup w Hinv).
      * done.
  - destruct (select estimators amount (get_input_output_fee pay_pubkey_hash_size))
      as [[|s spendables]|e].
    + replace w with (set_wallet_db (wallet_db w) w) at 1 by (by destruct w).
      by eapply finish_queue_inv.
    + by eapply holder_queue_inv.
    + replace w with (set_wallet_db (wallet_db w) w) at 1 by (by destruct w).
      by eapply finish_queue_inv.
  - destruct (get_unspent_outputs account (wallet_db w)) as [utxos|e].
    + by eapply holder_queue_inv.
    + replace w with (set_wallet_db (wallet_db w) w) at 1 by (by destruct w).
      by eapply finish_queue_inv.
  - destruct (reserve_outputs (wallet_db w) (map txo spendables)) as [d|e].
    + by eapply finish_queue_inv.
    + replace w with (set_wallet_db (wallet_db w) w) at 1 by (by destruct w).
      by eapply finish_queue_inv.
Qed.

Lemma run_schedule_queue_inv schedule :
  forall w, queue_inv w -> queue_inv (run_schedule schedule w).
Proof.
  induction schedule as [|i schedule IH]; intros w Hinv; simpl; [done|].
  by apply IH, step_queue_inv.
Qed.

(** X23.  The gate is left open.  In every state that calls of
    [get_spendable_utxos] can reach, under any interleaving: once all calls
    have returned or failed the lock is free and nobody is queued on it; and
    a call waits for the lock only while another call holds it. *)
Theorem gate_free_when_calls_done (schedule : list nat) (w : Wallet) :
  initial w -> waiting w = [] ->
  ((forall i t, coroutines (run_schedule schedule w) !! i = Some t -> finished t) ->
   locked (run_schedule schedule w) = false /\ waiting (run_schedule schedule w) = []) /\
  (forall j amount funding_accounts,
     coroutines (run_schedule schedule w) !! j = Some (Waiting amount funding_accounts) ->
     j ∈ waiting (run_schedule schedule w) /\
     exists i t, coroutines (run_schedule schedule w) !! i = Some t /\ critical t).
Proof.
  intros Hinit Hqueue.
  pose proof (run_schedule_queue_inv schedule w (initial_queue_inv w Hinit Hqueue)) as Hinv.
  split.
  - intros Hdone.
    assert (Hfree : locked (run_schedule schedule w) = false).
    { destruct (locked (run_schedule schedule w)) eqn:Hlocked; [|done].
      destruct (q_held _ Hinv Hlocked) as (i & t & Hi & Hc).
      pose proof (Hdone _ _ Hi). by destruct t. }
    split; [done | by apply (q_free _ Hinv)].
  - intros j amount accounts Hj.
    assert (Hin : j ∈ waiting (run_schedule schedule w))
      by (apply (q_waiting _ Hinv); eauto).
    split; [done|]. apply (q_held _ Hinv).
    destruct (locked (run_schedule schedule w)) eqn:Hlocked; [done|].
    rewrite (q_free _ Hinv Hlocked) in Hin. by apply elem_of_nil in Hin.
Qed.

(** X24.  The gate never deadlocks.  In every state that calls of
    [get_spendable_utxos] can reach, as long as some call has neither returned
    nor failed there is a coroutine whose next step changes the state: the
    holder of the lock if there is one, otherwise a call that has not yet asked
    for the lock. *)
Theorem gate_never_deadlocks (schedule : list nat) (w : Wallet) (i : nat) (t : coroutine) :
  initial w -> waiting w = [] ->
  coroutines (run_schedule schedule w) !! i = Some t -> ~ finished t ->
  exists j, step j (run_schedule schedule w) <> run_schedule schedule w.
Proof.
  intros Hinit Hqueue Hi Hnot.
  pose proof (run_schedule_queue_inv schedule w (initial_queue_inv w Hinit Hqueue)) as Hinv.
  set (w1 := run_schedule schedule w) in *.
  assert (Hmoves : forall j tj tj', coroutines w1 !! j = Some tj ->
            coroutines (step j w1) !! j = Some tj' -> tj' <> tj -> step j w1 <> w1).
  { intros j tj tj' Hj Hj' Hne Heq. rewrite Heq in Hj'. congruence. }
  destruct (locked w1) eqn:Hlocked.
  - destruct (q_held _ Hinv Hlocked) as (j & tj & Hj & Hcj). exists j.
    assert (Hend : forall t' d, finished t' ->
              coroutines (release (set_coroutine j t' (set_wallet_db d w1))) !! j = Some t')
      by (intros t' d Hdone; by eapply finish_queue_inv).
    assert (Hend' : forall t', finished t' ->
              coroutines (release (set_coroutine j t' w1)) !! j = Some t').
    { intros t' Hdone. specialize (Hend t' (wallet_db w1) Hdone).
      by replace (set_wallet_db (wallet_db w1) w1) with w1 in Hend by (by destruct w1). }
    destruct tj as [| |amount [|account rest] estimators|spendables| |]; try done.
    + destruct (select estimators amount (get_input_output_fee pay_pubkey_hash_size))
        as [[|s spendables]|e] eqn:Hselect.
      * eapply Hmoves; [exact Hj | | ].
        -- unfold step. rewrite Hj, Hselect. by apply Hend'.
        -- discriminate.
      * eapply Hmoves; [exact Hj | | ].
        -- unfold step. rewrite Hj, Hselect. simpl. apply lookup_insert_eq.
        -- discriminate.
      * eapply Hmoves; [exact Hj | | ].
        -- unfold step. rewrite Hj, Hselect. by apply Hend'.
        -- discriminate.
    + destruct (get_unspent_outputs account (wallet_db w1)) as [utxos|e] eqn:Hread.
      * eapply Hmoves; [exact Hj | | ].
        -- unfold step. rewrite Hj, Hread. simpl. apply lookup_insert_eq.
        -- intros [= Hrest]. apply (f_equal length) in Hrest. simpl in Hrest. lia.
      * eapply Hmoves; [exact Hj | | ].
        -- unfold step. rewrite Hj, Hread. by apply Hend'.
        -- discriminate.
    + destruct (reserve_outputs (wallet_db w1) (map txo spendables)) as [d|e] eqn:Hreserve.
      * eapply Hmoves; [exact Hj | | ].
        -- unfold step. rewrite Hj, Hreserve. by apply Hend.
        -- discriminate.
      * eapply Hmoves; [exact Hj | | ].
        -- unfold step. rewrite Hj, Hreserve. by apply Hend'.
        -- discriminate.
  - exists i.
    assert (Hstart : exists amount accounts, t = Start amount accounts).
    { destruct t as [amount accounts|amount accounts| | | |]; try done.
      - eauto.
      - assert (i ∈ waiting w1) as Hin by (apply (q_waiting _ Hinv); eauto).
        rewrite (q_free _ Hinv Hlocked) in Hin. by apply elem_of_nil in Hin.
      - pose proof (q_lock _ Hinv _ _ Hi I). congruence.
      - pose proof (q_lock _ Hinv _ _ Hi I). congruence. }
    destruct Hstart as (amount & accounts & ->).
    eapply Hmoves; [exact Hi | | ].
    + unfold step. rewrite Hi, Hlocked. simpl. apply lookup_insert_eq.
    + discriminate.
Qed.

(** ** Mutual exclusion *)

(** What is assumed of the collaborators: an account reports no reserved
    output, the selector picks among its candidates, an estimator remembers
    its output, and [reserve_outputs] marks exactly the outputs it is given. *)
Hypothesis unspent_not_reserved : forall account d utxos,
  get_unspent_outputs account d = Ok utxos -> forall u, u ∈ utxos -> ~ is_reserved d u.
Hypothesis select_among_candidates : forall estimators amount cost spendables,
  select estimators amount cost = Ok spendables -> forall s, s ∈ spendables -> s ∈ estimators.
Hypothesis txo_get_estimator : forall u, txo (get_estimator u) = u.
Hypothesis reserve_outputs_marks : forall d txos d',
  reserve_outputs d txos = Ok d' -> forall u, is_reserved d' u <-> is_reserved d u \/ u ∈ txos.

Lemma candidates_critical t s : s ∈ candidates t -> critical t.
Proof. destruct t; simpl; try by intros ?%elem_of_nil. all: done. Qed.

Lemma initial_inv w : initial w -> inv w.
Proof.
  intros [Hfree Hstart]. split.
  - intros i j ti tj Hi _ Hc. destruct (Hstart _ _ Hi) as (? & ? & ->). done.
  - intros i ti Hi Hc. destruct (Hstart _ _ Hi) as (? & ? & ->). done.
  - intros i ti s Hi Hs. destruct (Hstart _ _ Hi) as (? & ? & ->). by apply elem_of_nil in Hs.
  - intros i ti s Hi Hs. destruct (Hstart _ _ Hi) as (? & ? & ->). by apply elem_of_nil in Hs.
  - intros i j ti tj s s' _ Hi _ Hs. destruct (Hstart _ _ Hi) as (? & ? & ->).
    by apply elem_of_nil in Hs.
Qed.

(** Coroutine [i] moves from [ti] to [t'], possibly changing the database and
    taking the lock. *)
Lemma update_inv w i ti t' d' lk' wt' :
  inv w -> coroutines w !! i = Some ti ->
  (locked w = true -> lk' = true) ->
  (critical t' -> lk' = true /\ (critical ti \/ locked w = false)) ->
  (forall u, is_reserved (wallet_db w) u -> is_reserved d' u) ->
  (critical ti \/ forall u, is_reserved d' u -> is_reserved (wallet_db w) u) ->
  (forall s, s ∈ candidates t' -> ~ is_reserved d' (txo s)) ->
  (forall s, s ∈ returned t' ->
     is_reserved d' (txo s) /\ (s ∈ returned ti \/ ~ is_reserved (wallet_db w) (txo s))) ->
  inv {| wallet_db := d'; locked := lk'; waiting := wt';
         coroutines := <[i := t']> (coroutines w) |}.
Proof.
  intros Hinv Hi Hlk Hcrit Hmono Hsame Hcand Hret.
  assert (Hother : forall j tj, j <> i -> coroutines w !! j = Some tj -> critical tj ->
            ~ critical t' /\ forall u, is_reserved d' u -> is_reserved (wallet_db w) u).
  { intros j tj Hne Hj Hcj. split.
    - intros Hc'. destruct (Hcrit Hc') as [_ [Hci | Hfree]].
      + apply Hne. by eapply (inv_excl w Hinv).
      + pose proof (inv_lock w Hinv _ _ Hj Hcj). congruence.
    - destruct Hsame as [Hci | Hsame]; [|done].
      destruct Hne. by eapply (inv_excl w Hinv). }
  split; simpl.
  - intros j k tj tk Hj Hk Hcj Hck.
    destruct (decide (i = j)) as [<- | Hne1], (decide (i = k)) as [<- | Hne2]; [done | | |].
    + rewrite lookup_insert_eq in Hj. rewrite lookup_insert_ne in Hk by done.
      injection Hj as <-. by destruct (Hother k tk (not_eq_sym Hne2) Hk Hck) as [? _].
    + rewrite lookup_insert_eq in Hk. rewrite lookup_insert_ne in Hj by done.
      injection Hk as <-. by destruct (Hother j tj (not_eq_sym Hne1) Hj Hcj) as [? _].
    + rewrite lookup_insert_ne in Hj, Hk by done. by eapply (inv_excl w Hinv).
  - intros j tj Hj Hcj. destruct (decide (i = j)) as [<- | Hne].
    + rewrite lookup_insert_eq in Hj. injection Hj as <-. by destruct (Hcrit Hcj).
    + rewrite lookup_insert_ne in Hj by done. apply Hlk. by eapply (inv_lock w Hinv).
  - intros j tj s Hj Hs. destruct (decide (i = j)) as [<- | Hne].
    + rewrite lookup_insert_eq in Hj. injection Hj as <-. by apply Hcand.
    + rewrite lookup_insert_ne in Hj by done.
      destruct (Hother j tj (not_eq_sym Hne) Hj (candidates_critical _ _ Hs)) as [_ Hback].
      intros Hres. by eapply (inv_cand w Hinv), Hback.
  - intros j tj s Hj Hs. destruct (decide (i = j)) as [<- | Hne].
    + rewrite lookup_insert_eq in Hj. injection Hj as <-. by apply Hret.
    + rewrite lookup_insert_ne in Hj by done. by eapply Hmono, (inv_res w Hinv).
  - intros j k tj tk s s' Hjk Hj Hk Hs Hs'.
    destruct (decide (i = j)) as [<- | Hne1], (decide (i = k)) as [<- | Hne2]; [done | | |].
    + rewrite lookup_insert_eq in Hj. rewrite lookup_insert_ne in Hk by done.
      injection Hj as <-. destruct (Hret s Hs) as [_ [Hold | Hfresh]].
      * by eapply (inv_disj w Hinv i k).
      * intros Heq. apply Hfresh. rewrite Heq. by eapply (inv_res w Hinv).
    + rewrite lookup_insert_eq in Hk. rewrite lookup_insert_ne in Hj by done.
      injection Hk as <-. destruct (Hret s' Hs') as [_ [Hold | Hfresh]].
      * by eapply (inv_disj w Hinv j i).
      * intros Heq. apply Hfresh. rewrite <- Heq. by eapply (inv_res w Hinv).
    + rewrite lookup_insert_ne in Hj, Hk by done. by eapply (inv_disj w Hinv j k).
Qed.

(** Releasing the lock when no coroutine holds it any more. *)
Lemma release_inv w :
  inv w -> (forall i t, coroutines w !! i = Some t -> ~ critical t) -> locked w = true ->
  inv (release w).
Proof.
  intros Hinv Hnone Hlocked. unfold release.
  destruct (waiting w) as [|j rest].
  - split; simpl.
    + intros i k ti tk Hi _ Hc. by destruct (Hnone _ _ Hi).
    + intros i ti Hi Hc. by destruct (Hnone _ _ Hi).
    + apply (inv_cand w Hinv).
    + apply (inv_res w Hinv).
    + apply (inv_disj w Hinv).
  - set (wake := fun t => match t with
                          | Waiting amount funding_accounts =>
                              Collecting amount funding_accounts []
                          | _ => t
                          end).
    assert (Hwake : forall i t', alter wake j (coroutines w) !! i = Some t' ->
              exists t, coroutines w !! i = Some t /\ returned t' = returned t /\
                        candidates t' = [] /\ (critical t' -> i = j)).
    { intros i t' Hi. destruct (decide (j = i)) as [<- | Hne].
      - rewrite lookup_alter_eq in Hi.
        destruct (coroutines w !! j) as [t|] eqn:Hj; [|discriminate].
        injection Hi as <-. exists t. split; [done|].
        pose proof (Hnone _ _ Hj) as Hnc. destruct t; simpl in *; done.
      - rewrite lookup_alter_ne in Hi by done. exists t'. split; [done|].
        pose proof (Hnone _ _ Hi) as Hnc. destruct t'; simpl in *; done. }
    split; simpl.
    + intros i k ti tk Hi Hk Hci Hck.
      destruct (Hwake _ _ Hi) as (_ & _ & _ & _ & Hij).
      destruct (Hwake _ _ Hk) as (_ & _ & _ & _ & Hkj).
      rewrite (Hij Hci), (Hkj Hck). reflexivity.
    + done.
    + intros i ti s Hi Hs. destruct (Hwake _ _ Hi) as (_ & _ & _ & Hc & _).
      rewrite Hc in Hs. by apply elem_of_nil in Hs.
    + intros i ti s Hi Hs. destruct (Hwake _ _ Hi) as (t & Ht & Hr & _).
      rewrite Hr in Hs. by eapply (inv_res w Hinv).
    + intros i k ti tk s s' Hik Hi Hk Hs Hs'.
      destruct (Hwake _ _ Hi) as (t1 & Ht1 & Hr1 & _).
      destruct (Hwake _ _ Hk) as (t2 & Ht2 & Hr2 & _).
      rewrite Hr1 in Hs. rewrite Hr2 in Hs'. by eapply (inv_disj w Hinv i k).
Qed.

(** The holder [i] finishes with [t'] (returned or failed) and releases. *)
Lemma finish_inv w i ti t' d' :
  inv w -> coroutines w !! i = Some ti -> critical ti -> ~ critical t' -> candidates t' = [] ->
  (forall u, is_reserved (wallet_db w) u -> is_reserved d' u) ->
  (forall s, s ∈ returned t' ->
     is_reserved d' (txo s) /\ ~ is_reserved (wallet_db w) (txo s)) ->
  inv (release (set_coroutine i t' (set_wallet_db d' w))).
Proof.
  intros Hinv Hi Hci Hnc Hcand Hmono Hret.
  pose proof (inv_lock w Hinv _ _ Hi Hci) as Hlocked.
  apply release_inv; [| |done].
  - apply (update_inv w i ti t' d' (locked w) (waiting w)); try done.
    + by left.
    + intros s Hs. rewrite Hcand in Hs. by apply elem_of_nil in Hs.
    + intros s Hs. destruct (Hret s Hs). auto.
  - simpl. intros j tj Hj Hcj. destruct (decide (i = j)) as [<- | Hne].
    + rewrite lookup_insert_eq in Hj. by injection Hj as <-.
    + rewrite lookup_insert_ne in Hj by done.
      apply Hne. by eapply (inv_excl w Hinv).
Qed.

Lemma fail_inv w i ti e :
  inv w -> coroutines w !! i = Some ti -> critical ti ->
  inv (release (set_coroutine i (Failed e) w)).
Proof.
  intros Hinv Hi Hci.
  replace w with (set_wallet_db (wallet_db w) w) at 1 by (by destruct w).
  eapply finish_inv; try done.
  - by intros [].
  - intros s Hs. by apply elem_of_nil in Hs.
Qed.

Lemma step_inv i w : inv w -> inv (step i w).
Proof.
  intros Hinv. unfold step.
  destruct (coroutines w !! i)
    as [[amount accounts|amount accounts|amount [|account rest] estimators
        |spendables|spendables|e]|] eqn:Hi; try done.
  - (* the call asks for the lock *)
    destruct (locked w) eqn:Hlocked.
    + eapply (update_inv w i); try done.
      * right. done.
      * intros s Hs. by apply elem_of_nil in Hs.
      * intros s Hs. by apply elem_of_nil in Hs.
    + eapply (update_inv w i); try done.
      * intros _. split; [done | by right].
      * right. done.
      * intros s Hs. by apply elem_of_nil in Hs.
      * intros s Hs. by apply elem_of_nil in Hs.
  - (* all accounts read: coin selection *)
    destruct (select estimators amount (get_input_output_fee pay_pubkey_hash_size))
      as [[|s spendables]|e] eqn:Hselect.
    + replace w with (set_wallet_db (wallet_db w) w) at 1 by (by destruct w).
      eapply finish_inv; try done.
      * by intros [].
      * intros s Hs. by apply elem_of_nil in Hs.
    + replace (set_coroutine i (Reserving (s :: spendables)) w)
        with {| wallet_db := wallet_db w; locked := locked w; waiting := waiting w;
                coroutines := <[i := Reserving (s :: spendables)]> (coroutines w) |} by done.
      eapply (update_inv w i); try done.
      * intros _. split; [by eapply (inv_lock w Hinv) | by left].
      * by left.
      * intros s' Hs'. eapply (inv_cand w Hinv); [exact Hi|].
        simpl. by eapply select_among_candidates.
      * intros s' Hs'. by apply elem_of_nil in Hs'.
    + by eapply fail_inv.
  - (* one more account is read *)
    destruct (get_unspent_outputs account (wallet_db w)) as [utxos|e] eqn:Hread.
    + replace (set_coroutine i _ w)
        with {| wallet_db := wallet_db w; locked := locked w; waiting := waiting w;
                coroutines :=
                  <[i := Collecting amount rest (estimators ++ map get_estimator utxos)]>
                    (coroutines w) |} by done.
      eapply (update_inv w i); try done.
      * intros _. split; [by eapply (inv_lock w Hinv) | by left].
      * by left.
      * intros s Hs. simpl in Hs. apply elem_of_app in Hs as [Hs | Hs].
        -- by eapply (inv_cand w Hinv).
        -- apply list_elem_of_fmap in Hs as (u & -> & Hu).
           rewrite txo_get_estimator. by eapply unspent_not_reserved.
      * intros s Hs. by apply elem_of_nil in Hs.
    + by eapply fail_inv.
  - (* the selected outputs are reserved *)
    destruct (reserve_outputs (wallet_db w) (map txo spendables)) as [d|e] eqn:Hreserve.
    + eapply finish_inv; try done.
      * by intros [].
      * intros u Hu. apply (reserve_outputs_marks _ _ _ Hreserve). by left.
      * intros s Hs. split.
        -- apply (reserve_outputs_marks _ _ _ Hreserve). right.
           apply list_elem_of_fmap. by exists s.
        -- by eapply (inv_cand w Hinv).
    + by eapply fail_inv.
Qed.

Lemma run_schedule_inv schedule : forall w, inv w -> inv (run_schedule schedule w).
Proof.
  induction schedule as [|i schedule IH]; intros w Hinv; simpl; [done|].
  by apply IH, step_inv.
Qed.

(** C5.  Whatever the interleaving of any number of calls of
    [get_spendable_utxos], no output is returned by two of them. *)
Theorem reserved_utxo_returned_once (schedule : list nat) (w : Wallet) :
  initial w ->
  forall i j spendables_i spendables_j u,
    i <> j ->
    coroutines (run_schedule schedule w) !! i = Some (Returned spendables_i) ->
    coroutines (run_schedule schedule w) !! j = Some (Returned spendables_j) ->
    u ∈ map txo spendables_i -> u ∉ map txo spendables_j.
Proof.
  intros Hinit i j si sj u Hij Hi Hj Hu Hu'.
  pose proof (run_schedule_inv schedule w (initial_inv w Hinit)) as Hinv.
  apply list_elem_of_fmap in Hu as (s & -> & Hs).
  apply list_elem_of_fmap in Hu' as (s' & Heq & Hs').
  by eapply (inv_disj _ Hinv i j _ _ s s').
Qed.

End WithWallet.

(** ** A wallet with numbered outputs *)

(** The database is the list of reserved outputs, an account is the list of
    its outputs, an estimator is its output; an account reports its outputs
    that are not reserved, and the selector picks the first candidate. *)
Definition sample_get_unspent_outputs (account : list nat) (reserved : list nat)
    : result (list nat) :=
  Ok (List.filter (fun u => negb (existsb (Nat.eqb u) reserved)) account).

Definition sample_select (txos : list nat) (amount cost : Z) : result (list nat) :=
  Ok (firstn 1 txos).

Definition sample_reserve_outputs (reserved : list nat) (txos : list nat) : result (list nat) :=
  Ok (txos ++ reserved).


Definition sample_wallet (reserved : list nat)
    : ReservationLedger (list nat) (list nat) nat :=
  {| db := reserved; utxo_reservation_lock := false; reservation_calls := [] |}.

Example get_spendable_utxos_reserves :
  get_spendable_utxos (list nat) (list nat) nat nat sample_get_unspent_outputs id
    sample_select id sample_reserve_outputs 10 34 100 [[7; 8]%nat] (sample_wallet [])
  = (Return [7%nat],
     {| db := [7%nat]; utxo_reservation_lock := false;
        reservation_calls := [GetUnspentOutputs [7; 8]%nat; ReserveOutputs [7%nat]] |}).
Proof. reflexivity. Qed.


(** Two accounts, the second output of the first one reserved already. *)
Lemma get_effective_amount_estimators_in_order_witness :
  get_effective_amount_estimators (list nat) (list nat) nat nat sample_get_unspent_outputs id
    [[7; 8]; [9]]%nat [] (sample_wallet [8%nat])
  = (Return [7; 9]%nat,
     {| db := [8%nat]; utxo_reservation_lock := false;
        reservation_calls := [GetUnspentOutputs [7; 8]%nat; GetUnspentOutputs [9%nat]] |}).
Proof.
  apply (get_effective_amount_estimators_in_order (list nat) (list nat) nat nat
           sample_get_unspent_outputs id [[7; 8]; [9]]%nat (sample_wallet [8%nat])
           [[7]; [9]]%nat).
  reflexivity.
Defined.

Lemma get_spendable_utxos_reserves_selection_witness :
  get_spendable_utxos (list nat) (list nat) nat nat sample_get_unspent_outputs id
    sample_select id sample_reserve_outputs 10 34 100 [[7; 8]; [9]]%nat (sample_wallet [])
  = (Return [7%nat],
     {| db := [7%nat]; utxo_reservation_lock := false;
        reservation_calls := [GetUnspentOutputs [7; 8]%nat; GetUnspentOutputs [9%nat];
                              ReserveOutputs [7%nat]] |}).
Proof.
  apply (get_spendable_utxos_reserves_selection (list nat) (list nat) nat nat
           sample_get_unspent_outputs id sample_select id sample_reserve_outputs 10 34
           100 [[7; 8]; [9]]%nat (sample_wallet []) [[7; 8]; [9]]%nat [7%nat] [7%nat]).
  - reflexivity.
  - reflexivity.
  - reflexivity.
  - discriminate.
  - reflexivity.
Defined.

(** Two calls compete for the outputs 7 and 8 of one account: the second
    call asks for the lock while the first one holds it, and is woken when the
    first one has reserved output 7. *)
Definition in_db (reserved : list nat) (u : nat) : Prop := u ∈ reserved.

Definition two_calls : Wallet (list nat) (list nat) nat :=
  {| wallet_db := []; locked := false; waiting := [];
     coroutines := <[0%nat := Start (list nat) nat 100 [[7; 8]%nat]]>
                {[1%nat := Start (list nat) nat 100 [[7; 8]%nat]]} |}.

Definition interleaved : list nat := [0; 1; 0; 0; 0; 1; 1; 1]%nat.

Lemma sample_unspent_not_reserved (account reserved utxos : list nat) :
  sample_get_unspent_outputs account reserved = Ok utxos ->
  forall u, u ∈ utxos -> ~ in_db reserved u.
Proof.
  intros [= <-] u Hu Hin. apply list_elem_of_In, filter_In in Hu as [_ Hu].
  apply negb_true_iff in Hu. apply not_true_iff_false in Hu. apply Hu.
  apply existsb_exists. exists u. split; [by apply list_elem_of_In | apply Nat.eqb_refl].
Qed.

Lemma sample_select_among_candidates (estimators : list nat) (amount cost : Z)
    (spendables : list nat) :
  sample_select estimators amount cost = Ok spendables ->
  forall s, s ∈ spendables -> s ∈ estimators.
Proof.
  intros [= <-] s Hs. destruct estimators as [|e es]; simpl in Hs.
  - by apply elem_of_nil in Hs.
  - apply list_elem_of_singleton in Hs as ->. apply list_elem_of_here.
Qed.

Lemma sample_reserve_outputs_marks (reserved txos reserved' : list nat) :
  sample_reserve_outputs reserved txos = Ok reserved' ->
  forall u, in_db reserved' u <-> in_db reserved u \/ u ∈ txos.
Proof.
  intros [= <-] u. unfold in_db. rewrite elem_of_app. tauto.
Qed.

(** C5 at [two_calls] under [interleaved]: the calls return the outputs 7
    and 8. *)
Lemma reserved_utxo_returned_once_witness :
  coroutines _ _ _ (run_schedule (list nat) (list nat) nat nat sample_get_unspent_outputs id
                 sample_select id sample_reserve_outputs 10 34 interleaved two_calls)
    !! 0%nat = Some (Returned (list nat) nat [7%nat]) /\
  coroutines _ _ _ (run_schedule (list nat) (list nat) nat nat sample_get_unspent_outputs id
                 sample_select id sample_reserve_outputs 10 34 interleaved two_calls)
    !! 1%nat = Some (Returned (list nat) nat [8%nat]) /\
  7%nat ∉ map id [8%nat].
Proof.
  assert (Hinit : initial (list nat) (list nat) nat two_calls).
  { split; [reflexivity|]. intros i t Hi. unfold two_calls in Hi. simpl in Hi.
    destruct (decide (i = 0%nat)) as [-> | H0].
    - rewrite lookup_insert_eq in Hi. injection Hi as <-. eauto.
    - rewrite lookup_insert_ne in Hi by done.
      apply lookup_singleton_Some in Hi as [_ <-]. eauto. }
  pose proof (reserved_utxo_returned_once (list nat) (list nat) nat nat
                sample_get_unspent_outputs id sample_select id sample_reserve_outputs 10 34
                in_db sample_unspent_not_reserved sample_select_among_candidates
                (fun u => eq_refl) sample_reserve_outputs_marks
                interleaved two_calls Hinit 0%nat 1%nat [7%nat] [8%nat] 7%nat) as Honce.
  split; [vm_compute; reflexivity|]. split; [vm_compute; reflexivity|].
  apply Honce; [done | vm_compute; reflexivity | vm_compute; reflexivity |].
  apply list_elem_of_here.
Defined.

Lemma two_calls_initial : initial (list nat) (list nat) nat two_calls.
Proof.
  split; [reflexivity|]. intros i t Hi. unfold two_calls in Hi. simpl in Hi.
  destruct (decide (i = 0%nat)) as [-> | H0].
  - rewrite lookup_insert_eq in Hi. injection Hi as <-. eauto.
  - rewrite lookup_insert_ne in Hi by done.
    apply lookup_singleton_Some in Hi as [_ <-]. eauto.
Qed.

(** After [interleaved] both calls have returned: the lock is free and the
    queue is empty. *)
Lemma gate_free_when_calls_done_witness :
  locked _ _ _ (run_schedule (list nat) (list nat) nat nat sample_get_unspent_outputs id
                  sample_select id sample_reserve_outputs 10 34 interleaved two_calls)
  = false /\
  waiting _ _ _ (run_schedule (list nat) (list nat) nat nat sample_get_unspent_outputs id
                   sample_select id sample_reserve_outputs 10 34 interleaved two_calls)
  = [].
Proof.
  destruct (gate_free_when_calls_done (list nat) (list nat) nat nat
              sample_get_unspent_outputs id sample_select id sample_reserve_outputs 10 34
              interleaved two_calls two_calls_initial eq_refl) as [Hdone _].
  apply Hdone. intros i t Hi.
  assert (Hrun : coroutines _ _ _
                   (run_schedule (list nat) (list nat) nat nat sample_get_unspent_outputs id
                      sample_select id sample_reserve_outputs 10 34 interleaved two_calls)
                 = <[0%nat := Returned (list nat) nat [7%nat]]>
                     {[1%nat := Returned (list nat) nat [8%nat]]})
    by (vm_compute; reflexivity).
  rewrite Hrun in Hi.
  destruct (decide (i = 0%nat)) as [-> | H0].
  - rewrite lookup_insert_eq in Hi. by injection Hi as <-.
  - rewrite lookup_insert_ne in Hi by done.
    apply lookup_singleton_Some in Hi as [_ <-]. done.
Defined.

(** After the steps [0; 1] the first call holds the lock and the second one
    waits: a step changes the state. *)
Lemma gate_never_deadlocks_witness :
  exists j,
    step (list nat) (list nat) nat nat sample_get_unspent_outputs id sample_select id
      sample_reserve_outputs 10 34 j
      (run_schedule (list nat) (list nat) nat nat sample_get_unspent_outputs id
         sample_select id sample_reserve_outputs 10 34 [0; 1]%nat two_calls)
    <> run_schedule (list nat) (list nat) nat nat sample_get_unspent_outputs id
         sample_select id sample_reserve_outputs 10 34 [0; 1]%nat two_calls.
Proof.
  apply (gate_never_deadlocks (list nat) (list nat) nat nat
           sample_get_unspent_outputs id sample_select id sample_reserve_outputs 10 34
           [0; 1]%nat two_calls 1%nat (Waiting (list nat) nat 100 [[7; 8]%nat])
           two_calls_initial eq_refl).
  - vm_compute. reflexivity.
  - by intros [].
Defined.

End Reservation.

(* ===================================================================== *)
(** * Private keys by address (baseledger.py, lines 140-146)               *)
(* ===================================================================== *)

Module Keys.

(** What the ledger reads of the row that [db.get_address(address)]
    returns: [match['account']], [match['chain']], [match['position']]. *)
Record AddressRow : Type := {
  row_account : string;
  row_chain : Z;
  row_position : Z
}.

(** The address table of the database and the list [self.accounts]. *)
Record KeyLedger (Account : Type) : Type := {
  addresses : gmap string AddressRow;
  accounts : list Account
}.
Arguments addresses {Account} _.
Arguments accounts {Account} _.

Section WithAccounts.

(** Accounts, with [account.public_key.address] and
    [account.get_private_key(chain, position)]. *)
Variables Account PrivateKey : Type.
Variable public_key_address : Account -> string.
Variable get_private_key : Account -> Z -> Z -> result PrivateKey.

(** Modelled from the spec: [db.get_address(address)] returns the address
    row, or [None] for an unknown address. *)
Definition db_get_address (address : string) : M (KeyLedger Account) (option AddressRow) :=
  gets (fun l => addresses l !! address).

(** The loop [for account in self.accounts] (lines 144-146): the first
    account whose address is the row's account derives the key. *)
Fixpoint first_matching_account (row : AddressRow) (remaining : list Account)
    : M (KeyLedger Account) (option PrivateKey) :=
  match remaining with
  | [] => ret None
  | account :: rest =>
      if String.eqb (row_account row) (public_key_address account) then
        let* key := lift (get_private_key account (row_chain row) (row_position row)) in
        ret (Some key)
      else first_matching_account row rest
  end.

(** [BaseLedger.get_private_key_for_address] *)
Definition get_private_key_for_address (address : string)
    : M (KeyLedger Account) (option PrivateKey) :=
  let* match_ := db_get_address address in
  match match_ with
  | Some row =>
      let* accounts := gets accounts in
      first_matching_account row accounts
  | None => ret None
  end.

Lemma first_matching_account_run row remaining l :
  snd (first_matching_account row remaining l) = l /\
  match fst (first_matching_account row remaining l) with
  | Return (Some key) =>
      exists before account after,
        remaining = before ++ account :: after /\
        Forall (fun a => public_key_address a <> row_account row) before /\
        public_key_address account = row_account row /\
        get_private_key account (row_chain row) (row_position row) = Ok key
  | Return None => Forall (fun a => public_key_address a <> row_account row) remaining
  | Raise e =>
      exists before account after,
        remaining = before ++ account :: after /\
        Forall (fun a => public_key_address a <> row_account row) before /\
        public_key_address account = row_account row /\
        get_private_key account (row_chain row) (row_position row) = Err e
  | Stuck _ => False
  end.
Proof.
  induction remaining as [|account rest [IHstate IH]]; simpl; [by split|].
  destruct (String.eqb_spec (row_account row) (public_key_address account)) as [Heq | Hne].
  - unfold bind, lift.
    destruct (get_private_key account (row_chain row) (row_position row)) as [key|e] eqn:Hkey;
      simpl; (split; [done|]); exists [], account, rest; by split_and!.
  - split; [done|].
    destruct (fst (first_matching_account row rest l)) as [[key|]|e|r]; try done.
    + destruct IH as (before & a & after & -> & Hbefore & Ha & Hkey).
      exists (account :: before), a, after. split_and!; try done. by constructor.
    + by constructor.
    + destruct IH as (before & a & after & -> & Hbefore & Ha & Hkey).
      exists (account :: before), a, after. split_and!; try done. by constructor.
Qed.

(** X25.  Keys come from the first account that owns the address.  A call of
    [get_private_key_for_address] only reads.  When it returns a key, the
    address has a row, and the key is the one that the first account of
    [self.accounts] whose public-key address is the row's [account] derives at
    the row's chain and position; accounts in front of it do not own the
    address.  It returns [None] exactly when the address has no row or no
    account of the ledger owns it. *)
Theorem get_private_key_for_address_first_owner (address : string) (l : KeyLedger Account) :
  snd (get_private_key_for_address address l) = l /\
  (forall key, fst (get_private_key_for_address address l) = Return (Some key) ->
     exists row before account after,
       addresses l !! address = Some row /\
       accounts l = before ++ account :: after /\
       Forall (fun a => public_key_address a <> row_account row) before /\
       public_key_address account = row_account row /\
       get_private_key account (row_chain row) (row_position row) = Ok key) /\
  (fst (get_private_key_for_address address l) = Return None <->
   match addresses l !! address with
   | Some row => Forall (fun a => public_key_address a <> row_account row) (accounts l)
   | None => True
   end).
Proof.
  unfold get_private_key_for_address, bind, db_get_address, gets. simpl.
  destruct (addresses l !! address) as [row|]; simpl; [|by split_and!].
  destruct (first_matching_account_run row (accounts l) l) as [Hstate Hrun].
  split_and!; [done | |].
  - intros key Hkey. rewrite Hkey in Hrun.
    destruct Hrun as (before & account & after & ?). by exists row, before, account, after.
  - destruct (fst (first_matching_account row (accounts l) l)) as [[key|]|e|r]; try done.
    + split; [done|]. intros Hnone.
      destruct Hrun as (before & account & after & Haccounts & _ & Howner & _).
      rewrite Haccounts in Hnone. apply Forall_app in Hnone as [_ Hnone].
      apply Forall_cons in Hnone as [Hnone _]. done.
    + split; [done|]. intros Hnone.
      destruct Hrun as (before & account & after & Haccounts & _ & Howner & _).
      rewrite Haccounts in Hnone. apply Forall_app in Hnone as [_ Hnone].
      apply Forall_cons in Hnone as [Hnone _]. done.
Qed.

End WithAccounts.

End Keys.

(* ===================================================================== *)
(** * Concurrent history syncs (baseledger.py, lines 287-341)              *)
(* ===================================================================== *)

Module Concurrent.

Import Sync.

(** The loop variables of [update_history] while an entry is processed:
    [synced_history] already ends with the entry, [rest] is what follows it
    in the remote history. *)
Record entry : Type := {
  e_address : string;
  e_local : list (string * Z);
  e_index : nat;
  e_synced : list (string * Z);
  e_hex_id : string;
  e_height : Z;
  e_rest : list (string * Z)
}.

(** A call of [update_history] stopped at one of its yields. *)
Inductive coroutine : Type :=
| Start (address : string)
    (* about to [yield self.network.get_history(address)] (line 289) *)
| Reading (address : string) (remote_history : list (string * Z))
    (* about to [yield self.get_local_history(address)] (line 290) *)
| Looping (address : string) (local_history : list (string * Z)) (i : nat)
    (synced_history : list (string * Z)) (rest : list (string * Z))
    (* at the head of the [for] loop (line 293) *)
| Waiting (e : entry)
    (* queued on the lock of [hex_id] (line 302) *)
| Holding (e : entry)
    (* holds the lock, about to [yield self.db.get_transaction(hex_id)] (line 307) *)
| Fetching (e : entry)
    (* no local copy: about to [yield self.network.get_transaction(hex_id)] (line 310) *)
| Verifying (e : entry) (tx : Transaction) (save_tx : option save_mode) (is_verified : Z)
    (* at the test of line 316, about to [yield self.is_valid_transaction(...)] *)
| Saving (e : entry) (tx : Transaction) (save_tx : option save_mode) (is_verified : Z)
    (* about to [yield self.db.save_transaction_io(...)] (line 322) *)
| Publishing (e : entry) (tx : Transaction) (is_verified : Z)
    (* saved: about to publish the event and to release the lock (lines 332-341) *)
| Done
| Failed (x : exn).

(** The ledger, the table [_transaction_processing_locks] (an entry is a
    taken [DeferredLock] with the queue of the coroutines that wait for it; a
    lock that becomes free is removed), and the coroutines by number. *)
Record World : Type := {
  ledger : Ledger;
  queues : gmap string (list nat);
  coroutines : gmap nat coroutine
}.

(** The lock a coroutine holds, and the lock it waits for. *)
Definition holds (c : coroutine) : option string :=
  match c with
  | Holding e | Fetching e | Verifying e _ _ _ | Saving e _ _ _ | Publishing e _ _ =>
      Some (e_hex_id e)
  | _ => None
  end.

Definition waits (c : coroutine) : option string :=
  match c with
  | Waiting e => Some (e_hex_id e)
  | _ => None
  end.

Definition set_coroutine (k : nat) (c : coroutine) (l : Ledger) (w : World) : World :=
  {| ledger := l; queues := queues w; coroutines := <[k := c]> (coroutines w) |}.

(** [lock.release()] and lines 340-341: the first waiting coroutine, if any,
    gets the lock and goes on; otherwise the lock is removed from the table. *)
Definition release (hex_id : string) (w : World) : World :=
  match queues w !! hex_id with
  | Some (j :: q) =>
      {| ledger := ledger w;
         queues := <[hex_id := q]> (queues w);
         coroutines := alter (fun c => match c with
                                       | Waiting e => Holding e
                                       | _ => c
                                       end) j (coroutines w) |}
  | Some [] =>
      {| ledger := ledger w; queues := delete hex_id (queues w);
         coroutines := coroutines w |}
  | None => w
  end.

(** What the lock table sees of coroutine [n]: the lock it holds and the
    lock it waits for. *)
Definition shape (c : coroutine) : option string * option string := (holds c, waits c).

Definition shape_of (w : World) (n : nat) : option (option string * option string) :=
  shape <$> coroutines w !! n.

(** The lock table agrees with the coroutines: the lock that a coroutine
    holds is in the table; no lock has two holders; the queue of a lock lists,
    once each, coroutines that wait for this lock. *)
Record lock_inv (w : World) : Prop := {
  l_held : forall k hex_id x,
    shape_of w k = Some (Some hex_id, x) -> is_Some (queues w !! hex_id);
  l_excl : forall k k' hex_id x x',
    shape_of w k = Some (Some hex_id, x) -> shape_of w k' = Some (Some hex_id, x') -> k = k';
  l_queue : forall hex_id q j,
    queues w !! hex_id = Some q -> j ∈ q -> shape_of w j = Some (None, Some hex_id);
  l_nodup : forall hex_id q, queues w !! hex_id = Some q -> NoDup q
}.

(** The transaction that a coroutine is going to insert: it has found no
    local copy. *)
Definition inserting (c : coroutine) : option string :=
  match c with
  | Fetching e | Verifying e _ (Some Insert) _ | Saving e _ (Some Insert) _ =>
      Some (e_hex_id e)
  | _ => None
  end.

(** The transaction to insert has the id that was asked for. *)
Definition identified (c : coroutine) : Prop :=
  match c with
  | Verifying e tx (Some Insert) _ | Saving e tx (Some Insert) _ => tx_id tx = e_hex_id e
  | _ => True
  end.

(** A save that inserts the transaction [hex_id]. *)
Definition is_insert (hex_id : string) (c : call) : bool :=
  match c with
  | SaveTransactionIO (Some Insert) tx _ _ _ _ _ => bool_decide (tx_id tx = hex_id)
  | _ => false
  end.

(** The inserts of [hex_id] among the calls [cs]. *)
Definition inserts (hex_id : string) (cs : list call) : list call :=
  List.filter (is_insert hex_id) cs.

Section WithCollaborators.

Variable get_history : string -> result (list (string * Z)).
Variable get_transaction : string -> result string.
Variable get_merkle : string -> Z -> result (list string * Z).
Variable transaction_class : bytes -> result Transaction.
Variable double_sha256 : bytes -> bytes.
Variable Base58_decode : string -> result bytes.
Variable save_failure : list call -> option exn.

(** Inserts and the transaction table, with [db0] the table before any call
    has started and the log of calls empty then: a coroutine that is going to
    insert a transaction finds no row for it; at most one insert of a
    transaction has been accepted, the transaction then has a row, and no
    insert of it has been attempted since; a transaction that had a row at the
    start still has one, and no insert of it has been attempted. *)
Record insert_inv (db0 : gmap string TransactionRecord) (w : World) : Prop := {
  n_fresh : forall k c hex_id,
    coroutines w !! k = Some c -> inserting c = Some hex_id ->
    db_tx (ledger w) !! hex_id = None;
  n_id : forall k c, coroutines w !! k = Some c -> identified c;
  n_once : forall hex_id,
    (length (inserts hex_id (accepted save_failure [] (calls (ledger w)))) <= 1)%nat;
  n_row : forall hex_id,
    inserts hex_id (accepted save_failure [] (calls (ledger w))) <> [] ->
    is_Some (db_tx (ledger w) !! hex_id);
  n_last : forall hex_id done c rest,
    calls (ledger w) = done ++ c :: rest ->
    is_insert hex_id c = true -> save_failure (done ++ [c]) = None ->
    inserts hex_id rest = [];
  n_old : forall hex_id,
    is_Some (db0 !! hex_id) ->
    is_Some (db_tx (ledger w) !! hex_id) /\ inserts hex_id (calls (ledger w)) = []
}.

(** The exception leaves through [finally]: the lock is released. *)
Definition fail (k : nat) (hex_id : string) (x : exn) (l : Ledger) (w : World) : World :=
  release hex_id (set_coroutine k (Failed x) l w).

(** Coroutine [k] runs up to its next yield.  The skip test and the tests
    of lines 309 and 316 get steps of their own although the code runs them
    together with what precedes them, and a coroutine that is handed the lock
    runs when it is scheduled next: every run of the code is then a run of
    this scheduler. *)
Definition step (k : nat) (w : World) : World :=
  match coroutines w !! k with
  | Some (Start address) =>
      match network_get_history get_history address (ledger w) with
      | (Return remote_history, l) => set_coroutine k (Reading address remote_history) l w
      | (Raise x, l) => set_coroutine k (Failed x) l w
      | (Stuck _, _) => w
      end
  | Some (Reading address remote_history) =>
      match get_local_history address (ledger w) with
      | (Return local_history, l) =>
          set_coroutine k (Looping address local_history 0 [] remote_history) l w
      | (Raise x, l) => set_coroutine k (Failed x) l w
      | (Stuck _, _) => w
      end
  | Some (Looping address local_history i synced_history []) =>
      set_coroutine k Done (ledger w) w
  | Some (Looping address local_history i synced_history ((hex_id, remote_height) :: rest)) =>
      let synced_history := synced_history ++ [(hex_id, remote_height)] in
      if already_synced local_history i (hex_id, remote_height) then
        set_coroutine k (Looping address local_history (S i) synced_history rest) (ledger w) w
      else
        let e := {| e_address := address; e_local := local_history; e_index := i;
                    e_synced := synced_history; e_hex_id := hex_id;
                    e_height := remote_height; e_rest := rest |} in
        match queues w !! hex_id with
        | None =>
            {| ledger := ledger w; queues := <[hex_id := []]> (queues w);
               coroutines := <[k := Holding e]> (coroutines w) |}
        | Some q =>
            {| ledger := ledger w; queues := <[hex_id := q ++ [k]]> (queues w);
               coroutines := <[k := Waiting e]> (coroutines w) |}
        end
  | Some (Holding e) =>
      match db_tx (ledger w) !! e_hex_id e with
      | Some r =>
          match transaction_class (rec_raw r) with
          | Ok tx => set_coroutine k (Verifying e tx None (rec_is_verified r)) (ledger w) w
          | Err x => fail k (e_hex_id e) x (ledger w) w
          end
      | None => set_coroutine k (Fetching e) (ledger w) w
      end
  | Some (Fetching e) =>
      match (let* _raw := network_get_transaction get_transaction (e_hex_id e) in
             let* decoded := lift (unhexlify _raw) in
             lift (transaction_class decoded)) (ledger w) with
      | (Return tx, l) => set_coroutine k (Verifying e tx (Some Insert) 0) l w
      | (Raise x, l) => fail k (e_hex_id e) x l w
      | (Stuck _, _) => w
      end
  | Some (Verifying e tx save_tx is_verified) =>
      if (0 <? e_height e) && negb (truthy is_verified) then
        match is_valid_transaction get_merkle double_sha256 tx (e_height e) (ledger w) with
        | (Return valid, l) =>
            set_coroutine k
              (Saving e tx (Some (default Update save_tx)) (if valid then 1 else 0)) l w
        | (Raise x, l) => fail k (e_hex_id e) x l w
        | (Stuck _, _) => w
        end
      else set_coroutine k (Saving e tx save_tx is_verified) (ledger w) w
  | Some (Saving e tx save_tx is_verified) =>
      match Codec.address_to_hash160 Base58_decode (e_address e) with
      | Ok hash160 =>
          match db_save_transaction_io save_failure save_tx tx (e_height e) is_verified
                  (e_address e) hash160 (history_string (e_synced e)) (ledger w) with
          | (Return _, l) => set_coroutine k (Publishing e tx is_verified) l w
          | (Raise x, l) => fail k (e_hex_id e) x l w
          | (Stuck _, _) => w
          end
      | Err x => fail k (e_hex_id e) x (ledger w) w
      end
  | Some (Publishing e tx is_verified) =>
      release (e_hex_id e)
        (set_coroutine k
           (Looping (e_address e) (e_local e) (S (e_index e)) (e_synced e) (e_rest e))
           (add_call (OnTransaction {| ev_address := e_address e; ev_tx := tx;
                                       ev_height := e_height e;
                                       ev_is_verified := is_verified |}) (ledger w)) w)
  | Some (Waiting _) | Some Done | Some (Failed _) | None => w
  end.

(** A schedule names the coroutine that runs next, step after step. *)
Definition run_schedule (schedule : list nat) (w : World) : World :=
  fold_left (fun w k => step k w) schedule w.

(** Before any call has started: no lock is taken. *)
Definition initial (w : World) : Prop :=
  queues w = ∅ /\
  forall k c, coroutines w !! k = Some c -> exists address, c = Start address.

(** The server sends for [hex_id] a transaction that has this id. *)
Definition honest : Prop :=
  forall hex_id _raw decoded tx,
    get_transaction hex_id = Ok _raw -> unhexlify _raw = Ok decoded ->
    transaction_class decoded = Ok tx -> tx_id tx = hex_id.

(** ** The lock table *)

Lemma shape_of_set k c l w n :
  shape_of (set_coroutine k c l w) n = if decide (n = k) then Some (shape c) else shape_of w n.
Proof.
  unfold shape_of, set_coroutine. simpl. case_decide as Hn.
  - subst. by rewrite lookup_insert_eq.
  - by rewrite lookup_insert_ne.
Qed.

Lemma initial_lock_inv w : initial w -> lock_inv w.
Proof.
  intros [Hfree Hstart].
  assert (Hshape : forall k hex_id x, shape_of w k <> Some (Some hex_id, x)).
  { intros k hex_id x. unfold shape_of.
    destruct (coroutines w !! k) as [c|] eqn:Hk; [|done].
    destruct (Hstart _ _ Hk) as [address ->]. done. }
  split.
  - intros k hex_id x Hk. by destruct (Hshape _ _ _ Hk).
  - intros k k' hex_id x x' Hk. by destruct (Hshape _ _ _ Hk).
  - intros hex_id q j Hq. by rewrite Hfree in Hq.
  - intros hex_id q Hq. by rewrite Hfree in Hq.
Qed.

(** A step that changes neither what the coroutine holds nor what it waits
    for. *)
Lemma lock_inv_same w k c c' l :
  lock_inv w -> coroutines w !! k = Some c -> shape c' = shape c ->
  lock_inv (set_coroutine k c' l w).
Proof.
  intros Hinv Hk Hshape.
  assert (Hsame : forall n, shape_of (set_coroutine k c' l w) n = shape_of w n).
  { intros n. rewrite shape_of_set. case_decide as Hn; [|done].
    subst. unfold shape_of. by rewrite Hk, Hshape. }
  split; simpl.
  - intros n hex_id x. rewrite Hsame. apply (l_held w Hinv).
  - intros n n' hex_id x x'. rewrite !Hsame. apply (l_excl w Hinv).
  - intros hex_id q j Hq Hj. rewrite Hsame. by eapply (l_queue w Hinv).
  - apply (l_nodup w Hinv).
Qed.

(** The lock was not in the table: the coroutine takes it. *)
Lemma lock_inv_acquire w k c e :
  lock_inv w -> coroutines w !! k = Some c -> shape c = (None, None) ->
  queues w !! e_hex_id e = None ->
  lock_inv {| ledger := ledger w; queues := <[e_hex_id e := []]> (queues w);
              coroutines := <[k := Holding e]> (coroutines w) |}.
Proof.
  intros Hinv Hk Hshape Hfree.
  set (w' := {| ledger := ledger w; queues := <[e_hex_id e := []]> (queues w);
                coroutines := <[k := Holding e]> (coroutines w) |}).
  assert (Hnew : forall n, shape_of w' n
                 = if decide (n = k) then Some (Some (e_hex_id e), None) else shape_of w n).
  { intros n. apply (shape_of_set k (Holding e) (ledger w) w n). }
  assert (Hnone : forall n x, shape_of w n <> Some (Some (e_hex_id e), x)).
  { intros n x Hn. apply (l_held w Hinv) in Hn as [q Hq]. congruence. }
  split; simpl.
  - intros n hex_id x. rewrite Hnew. case_decide.
    + intros [= <- _]. rewrite lookup_insert_eq. eauto.
    + intros Hn. destruct (decide (e_hex_id e = hex_id)) as [<- | Hne].
      * by destruct (Hnone _ _ Hn).
      * rewrite lookup_insert_ne by done. by eapply (l_held w Hinv).
  - intros n n' hex_id x x'. rewrite !Hnew. repeat case_decide; try congruence.
    + intros [= <- _] Hn'. by destruct (Hnone _ _ Hn').
    + intros Hn [= <- _]. by destruct (Hnone _ _ Hn).
    + apply (l_excl w Hinv).
  - intros hex_id q j Hq Hj. destruct (decide (e_hex_id e = hex_id)) as [<- | Hne].
    + rewrite lookup_insert_eq in Hq. injection Hq as <-. by apply elem_of_nil in Hj.
    + rewrite lookup_insert_ne in Hq by done.
      pose proof (l_queue w Hinv _ _ _ Hq Hj) as Hshape_j.
      rewrite Hnew. case_decide as Hjk; [|done].
      subst. unfold shape_of in Hshape_j. rewrite Hk in Hshape_j. simpl in Hshape_j.
      congruence.
  - intros hex_id q Hq. destruct (decide (e_hex_id e = hex_id)) as [<- | Hne].
    + rewrite lookup_insert_eq in Hq. injection Hq as <-. constructor.
    + rewrite lookup_insert_ne in Hq by done. by eapply (l_nodup w Hinv).
Qed.

(** The lock is taken: the coroutine joins its queue. *)
Lemma lock_inv_enqueue w k c e q :
  lock_inv w -> coroutines w !! k = Some c -> shape c = (None, None) ->
  queues w !! e_hex_id e = Some q ->
  lock_inv {| ledger := ledger w; queues := <[e_hex_id e := q ++ [k]]> (queues w);
              coroutines := <[k := Waiting e]> (coroutines w) |}.
Proof.
  intros Hinv Hk Hshape Hq.
  set (w' := {| ledger := ledger w; queues := <[e_hex_id e := q ++ [k]]> (queues w);
                coroutines := <[k := Waiting e]> (coroutines w) |}).
  assert (Hnew : forall n, shape_of w' n
                 = if decide (n = k) then Some (None, Some (e_hex_id e)) else shape_of w n).
  { intros n. apply (shape_of_set k (Waiting e) (ledger w) w n). }
  assert (Hk' : shape_of w k = Some (None, None)).
  { unfold shape_of. by rewrite Hk, <- Hshape. }
  assert (Hnotin : forall hex_id q', queues w !! hex_id = Some q' -> k ∉ q').
  { intros hex_id q' Hq' Hin. pose proof (l_queue w Hinv _ _ _ Hq' Hin). congruence. }
  split; simpl.
  - intros n hex_id x. rewrite Hnew. case_decide; [done|].
    intros Hn. destruct (decide (e_hex_id e = hex_id)) as [<- | Hne].
    + rewrite lookup_insert_eq. eauto.
    + rewrite lookup_insert_ne by done. by eapply (l_held w Hinv).
  - intros n n' hex_id x x'. rewrite !Hnew. repeat case_decide; try done.
    apply (l_excl w Hinv).
  - intros hex_id q' j Hq' Hj. rewrite Hnew.
    destruct (decide (e_hex_id e = hex_id)) as [<- | Hne].
    + rewrite lookup_insert_eq in Hq'. injection Hq' as <-.
      apply elem_of_app in Hj as [Hj | ->%list_elem_of_singleton].
      * case_decide as Hjk; [done|]. by eapply (l_queue w Hinv).
      * by rewrite decide_True.
    + rewrite lookup_insert_ne in Hq' by done.
      case_decide as Hjk; [subst; by destruct (Hnotin _ _ Hq')|].
      by eapply (l_queue w Hinv).
  - intros hex_id q' Hq'. destruct (decide (e_hex_id e = hex_id)) as [<- | Hne].
    + rewrite lookup_insert_eq in Hq'. injection Hq' as <-.
      apply NoDup_app. split; [by eapply (l_nodup w Hinv)|]. split.
      * intros j Hj ->%list_elem_of_singleton. by destruct (Hnotin _ _ Hq).
      * apply NoDup_singleton.
    + rewrite lookup_insert_ne in Hq' by done. by eapply (l_nodup w Hinv).
Qed.

(** The holder leaves its critical section: the lock goes to the head of
    the queue, or leaves the table. *)
Lemma lock_inv_release w k c c' l hex_id :
  lock_inv w -> coroutines w !! k = Some c -> holds c = Some hex_id ->
  shape c' = (None, None) ->
  lock_inv (release hex_id (set_coroutine k c' l w)).
Proof.
  intros Hinv Hk Hholds Hshape.
  assert (Hk' : exists x, shape_of w k = Some (Some hex_id, x)).
  { exists (waits c). unfold shape_of, shape. by rewrite Hk, <- Hholds. }
  destruct Hk' as [xk Hk'].
  set (w1 := set_coroutine k c' l w).
  assert (Hw1 : forall n, shape_of w1 n
                = if decide (n = k) then Some (None, None) else shape_of w n).
  { intros n. unfold w1. rewrite shape_of_set, Hshape. done. }
  assert (Hnone : forall n x, shape_of w1 n <> Some (Some hex_id, x)).
  { intros n x. rewrite Hw1. case_decide as Hn; [done|].
    intros Hn'. apply Hn. by eapply (l_excl w Hinv). }
  unfold release. change (queues w1) with (queues w).
  destruct (queues w !! hex_id) as [[|j q]|] eqn:Hq.
  - (* nobody waits *)
    split; simpl.
    + intros n hex_id' x Hn. change (shape_of w1 n = Some (Some hex_id', x)) in Hn.
      destruct (decide (hex_id = hex_id')) as [<- | Hne]; [by destruct (Hnone _ _ Hn)|].
      rewrite lookup_delete_ne by done.
      rewrite Hw1 in Hn. case_decide; [done|]. by eapply (l_held w Hinv).
    + intros n n' hex_id' x x' Hn Hn'.
      change (shape_of w1 n = Some (Some hex_id', x)) in Hn.
      change (shape_of w1 n' = Some (Some hex_id', x')) in Hn'.
      rewrite Hw1 in Hn, Hn'. repeat case_decide; try done. by eapply (l_excl w Hinv).
    + intros hex_id' q' j Hq' Hj. change (shape_of w1 j = Some (None, Some hex_id')).
      destruct (decide (hex_id = hex_id')) as [<- | Hne];
        [by rewrite lookup_delete_eq in Hq'|].
      rewrite lookup_delete_ne in Hq' by done.
      pose proof (l_queue w Hinv _ _ _ Hq' Hj) as Hshape_j.
      rewrite Hw1. case_decide; [congruence | done].
    + intros hex_id' q' Hq'. destruct (decide (hex_id = hex_id')) as [<- | Hne];
        [by rewrite lookup_delete_eq in Hq'|].
      rewrite lookup_delete_ne in Hq' by done. by eapply (l_nodup w Hinv).
  - (* the head of the queue is woken *)
    pose proof (l_queue w Hinv _ _ _ Hq ltac:(apply list_elem_of_here)) as Hj.
    pose proof (l_nodup w Hinv _ _ Hq) as Hnodup.
    apply NoDup_cons in Hnodup as [Hfresh Hnodup].
    assert (Hjk : j <> k) by congruence.
    set (wake := fun c0 => match c0 with Waiting e => Holding e | _ => c0 end).
    set (w2 := {| ledger := ledger w1; queues := <[hex_id := q]> (queues w);
                  coroutines := alter wake j (coroutines w1) |}).
    assert (Hw2 : forall n, shape_of w2 n
                  = if decide (n = j) then Some (Some hex_id, None) else shape_of w1 n).
    { intros n. unfold shape_of, w2. simpl. case_decide as Hn.
      - subst n. rewrite lookup_alter_eq.
        assert (Hj1 : shape_of w1 j = Some (None, Some hex_id))
          by (rewrite Hw1; by rewrite decide_False).
        unfold shape_of, w1, set_coroutine in Hj1. simpl in Hj1.
        destruct (<[k:=c']> (coroutines w) !! j) as [cj|]; [|done]. simpl in *.
        destruct cj; simpl in *; try done. injection Hj1 as Hj1.
        unfold wake, shape. simpl. by rewrite Hj1.
      - by rewrite lookup_alter_ne. }
    split; simpl.
    + intros n hex_id' x Hn. change (shape_of w2 n = Some (Some hex_id', x)) in Hn.
      rewrite Hw2 in Hn. case_decide.
      * injection Hn as <- _. rewrite lookup_insert_eq. eauto.
      * destruct (decide (hex_id = hex_id')) as [<- | Hne]; [by destruct (Hnone _ _ Hn)|].
        rewrite lookup_insert_ne by done.
        rewrite Hw1 in Hn. case_decide; [done|]. by eapply (l_held w Hinv).
    + intros n n' hex_id' x x' Hn Hn'.
      change (shape_of w2 n = Some (Some hex_id', x)) in Hn.
      change (shape_of w2 n' = Some (Some hex_id', x')) in Hn'.
      rewrite Hw2 in Hn, Hn'. repeat case_decide; simplify_eq; try done.
      all: try (by destruct (Hnone _ _ Hn)); try (by destruct (Hnone _ _ Hn')).
      rewrite Hw1 in Hn, Hn'. repeat case_decide; try done. by eapply (l_excl w Hinv).
    + intros hex_id' q' n Hq' Hn. change (shape_of w2 n = Some (None, Some hex_id')).
      assert (Hold : exists q0, queues w !! hex_id' = Some q0 /\ n ∈ q0 /\
                       (hex_id' = hex_id -> n <> j)).
      { destruct (decide (hex_id = hex_id')) as [<- | Hne].
        - rewrite lookup_insert_eq in Hq'. injection Hq' as <-.
          exists (j :: q). split; [done|]. split; [by apply list_elem_of_further|].
          intros _ ->. done.
        - rewrite lookup_insert_ne in Hq' by done. exists q'. split; [done|].
          split; [done|]. congruence. }
      destruct Hold as (q0 & Hq0 & Hn0 & Hnj).
      pose proof (l_queue w Hinv _ _ _ Hq0 Hn0) as Hshape_n.
      rewrite Hw2. case_decide as Hnj'.
      * subst n. rewrite Hj in Hshape_n. injection Hshape_n as ->. by destruct Hnj.
      * rewrite Hw1. case_decide; [congruence | done].
    + intros hex_id' q' Hq'. destruct (decide (hex_id = hex_id')) as [<- | Hne].
      * rewrite lookup_insert_eq in Hq'. by injection Hq' as <-.
      * rewrite lookup_insert_ne in Hq' by done. by eapply (l_nodup w Hinv).
  - (* the lock of a holder is in the table *)
    destruct (l_held w Hinv _ _ _ Hk') as [q' Hq']. congruence.
Qed.

Lemma step_lock_inv k w : lock_inv w -> lock_inv (step k w).
Proof.
  intros Hinv. unfold step.
  destruct (coroutines w !! k) as [c|] eqn:Hk; [|done].
  destruct c as [address|address remote|address local_history i synced_history rest|e|e|e
                |e tx save_tx v|e tx save_tx v|e tx v| |x]; try done.
  - destruct (network_get_history get_history address (ledger w)) as [[remote|x|r] l];
      [by eapply lock_inv_same | by eapply lock_inv_same | done].
  - destruct (get_local_history address (ledger w)) as [[local_history|x|r] l];
      [by eapply lock_inv_same | by eapply lock_inv_same | done].
  - destruct rest as [|[hex_id remote_height] rest]; [by eapply lock_inv_same|].
    destruct (already_synced local_history i (hex_id, remote_height));
      [by eapply lock_inv_same|].
    set (e := {| e_address := address; e_local := local_history; e_index := i;
                 e_synced := synced_history ++ [(hex_id, remote_height)];
                 e_hex_id := hex_id; e_height := remote_height; e_rest := rest |}).
    destruct (queues w !! hex_id) as [q|] eqn:Hq.
    + by apply (lock_inv_enqueue w k _ e q Hinv Hk).
    + by apply (lock_inv_acquire w k _ e Hinv Hk).
  - destruct (db_tx (ledger w) !! e_hex_id e) as [r|]; [|by eapply lock_inv_same].
    destruct (transaction_class (rec_raw r)) as [tx|x]; [by eapply lock_inv_same|].
    by eapply lock_inv_release.
  - match goal with
    | |- context [match ?run with _ => _ end] => destruct run as [[tx|x|r] l]
    end; [by eapply lock_inv_same | by eapply lock_inv_release | done].
  - destruct ((0 <? e_height e) && negb (truthy v)); [|by eapply lock_inv_same].
    destruct (is_valid_transaction get_merkle double_sha256 tx (e_height e) (ledger w))
      as [[valid|x|r] l]; [by eapply lock_inv_same | by eapply lock_inv_release | done].
  - destruct (Codec.address_to_hash160 Base58_decode (e_address e)) as [hash160|x];
      [|by eapply lock_inv_release].
    destruct (db_save_transaction_io _ _ _ _ _ _ _ _ _) as [[[]|x|r] l];
      [by eapply lock_inv_same | by eapply lock_inv_release | done].
  - by eapply lock_inv_release.
Qed.

Lemma run_schedule_lock_inv schedule : forall w, lock_inv w -> lock_inv (run_schedule schedule w).
Proof.
  induction schedule as [|k schedule IH]; intros w Hinv; simpl; [done|].
  by apply IH, step_lock_inv.
Qed.

(** X26.  One holder per transaction lock.  Whatever the interleaving of any
    number of concurrent calls of [update_history] (for the same address or
    for different ones), no two of them are at the same time inside the
    [try] block of lines 304-341 for the same transaction id. *)
Theorem one_holder_per_transaction (schedule : list nat) (w : World)
    (k k' : nat) (c c' : coroutine) (hex_id : string) :
  initial w ->
  coroutines (run_schedule schedule w) !! k = Some c ->
  coroutines (run_schedule schedule w) !! k' = Some c' ->
  holds c = Some hex_id -> holds c' = Some hex_id ->
  k = k'.
Proof.
  intros Hinit Hk Hk' Hc Hc'.
  pose proof (run_schedule_lock_inv schedule w (initial_lock_inv w Hinit)) as Hinv.
  apply (l_excl _ Hinv k k' hex_id (waits c) (waits c')).
  - unfold shape_of, shape. by rewrite Hk, <- Hc.
  - unfold shape_of, shape. by rewrite Hk', <- Hc'.
Qed.

(** ** Inserts *)

Lemma inserting_holds c hex_id : inserting c = Some hex_id -> holds c = Some hex_id.
Proof. destruct c as [| | | | | |e tx [[]|] v|e tx [[]|] v| | |]; simpl; done. Qed.

Lemma inserts_app hex_id cs1 cs2 :
  inserts hex_id (cs1 ++ cs2) = inserts hex_id cs1 ++ inserts hex_id cs2.
Proof. apply List.filter_app. Qed.

Lemma is_insert_save hex_id c : is_insert hex_id c = true -> is_save c = true.
Proof. by destruct c. Qed.

Lemma inserts_no_save hex_id cs :
  Forall (fun c => is_save c = false) cs -> inserts hex_id cs = [].
Proof.
  induction 1 as [|c cs Hc _ IH]; [done|]. simpl.
  destruct (is_insert hex_id c) eqn:Hi; [|done].
  apply is_insert_save in Hi. congruence.
Qed.

Lemma accepted_no_save cs : forall before,
  Forall (fun c => is_save c = false) cs -> accepted save_failure before cs = [].
Proof.
  induction cs as [|c cs IH]; intros before Hcs; [done|].
  apply Forall_cons in Hcs as [Hc Hcs]. simpl. by rewrite Hc, (IH _ Hcs).
Qed.

Lemma accepted_snoc cs c :
  accepted save_failure [] (cs ++ [c])
  = accepted save_failure [] cs
    ++ (if is_save c && bool_decide (save_failure (cs ++ [c]) = None) then [c] else []).
Proof. rewrite accepted_app. simpl. by rewrite app_nil_r. Qed.

(** An accepted insert of [hex_id] among the calls is among the accepted
    saves. *)
Lemma accepted_insert_elem hex_id done c rest :
  is_insert hex_id c = true -> save_failure (done ++ [c]) = None ->
  inserts hex_id (accepted save_failure [] (done ++ c :: rest)) <> [].
Proof.
  intros Hc Hverdict. rewrite accepted_app. simpl.
  rewrite (is_insert_save _ _ Hc), Hverdict. simpl.
  rewrite inserts_app. simpl. rewrite Hc.
  intros Hnil. apply app_eq_nil in Hnil as [_ Hnil]. discriminate.
Qed.

Lemma snoc_eq_middle {A} (l1 l2 l3 : list A) (x y : A) :
  l1 ++ [x] = l2 ++ y :: l3 ->
  (l3 = [] /\ l1 = l2 /\ x = y) \/ (exists l3', l3 = l3' ++ [x] /\ l1 = l2 ++ y :: l3').
Proof.
  induction l3 as [|z l3 _] using rev_ind; intros Heq.
  - left. apply app_inj_tail in Heq as [-> ->]. auto.
  - right. exists l3.
    change (l2 ++ y :: l3 ++ [z]) with (l2 ++ (y :: l3) ++ [z]) in Heq.
    rewrite app_assoc in Heq. apply app_inj_tail in Heq as [-> ->]. auto.
Qed.

(** No insert of [hex_id] has been attempted after an accepted one. *)
Definition settled (hex_id : string) (cs : list call) : Prop :=
  forall done c rest,
    cs = done ++ c :: rest ->
    is_insert hex_id c = true -> save_failure (done ++ [c]) = None ->
    inserts hex_id rest = [].

Lemma settled_app hex_id cs others :
  settled hex_id cs -> inserts hex_id others = [] -> settled hex_id (cs ++ others).
Proof.
  intros Hcs Hothers done c rest Heq Hc Hverdict.
  apply app_eq_app in Heq as [mid [[-> Hmid] | [-> Hmid]]].
  - destruct mid as [|c0 mid]; simpl in Hmid.
    + exfalso. assert (Hin : c ∈ inserts hex_id others).
      { rewrite <- Hmid. unfold inserts. apply list_elem_of_In, filter_In.
        split; [by left | done]. }
      rewrite Hothers in Hin. by apply elem_of_nil in Hin.
    + injection Hmid as <- ->. rewrite inserts_app, Hothers, app_nil_r.
      by eapply Hcs.
  - exfalso. assert (Hin : c ∈ inserts hex_id others).
    { rewrite Hmid. unfold inserts. apply list_elem_of_In, filter_In.
      split; [apply in_or_app; right; by left | done]. }
    rewrite Hothers in Hin. by apply elem_of_nil in Hin.
Qed.

Lemma settled_snoc hex_id cs c :
  settled hex_id cs ->
  (is_insert hex_id c = true -> inserts hex_id (accepted save_failure [] cs) = []) ->
  settled hex_id (cs ++ [c]).
Proof.
  intros Hcs Hfirst done c0 rest Heq Hc0 Hverdict.
  apply snoc_eq_middle in Heq as [(-> & _ & _) | (rest' & -> & ->)]; [done|].
  rewrite inserts_app, (Hcs _ _ _ eq_refl Hc0 Hverdict). simpl.
  destruct (is_insert hex_id c) eqn:Hc; [|done].
  by destruct (accepted_insert_elem hex_id done c0 rest' Hc0 Hverdict (Hfirst eq_refl)).
Qed.

(** The ledger [l'] has the table of [l], and no save more. *)
Definition same_rows (l l' : Ledger) : Prop :=
  db_tx l' = db_tx l /\
  exists others, calls l' = calls l ++ others /\ Forall (fun c => is_save c = false) others.

Lemma same_rows_refl l : same_rows l l.
Proof. split; [done|]. exists []. by rewrite app_nil_r. Qed.

Lemma same_rows_add_call c l : is_save c = false -> same_rows l (add_call c l).
Proof. intros Hc. split; [done|]. exists [c]. split; [done | by constructor]. Qed.

Lemma same_rows_quiet {A} (m : M Ledger A) l : quiet m -> same_rows l (snd (m l)).
Proof.
  intros Hm. destruct (Hm l) as (fetched & -> & Hreq & _).
  split; [done|]. exists fetched. split; [done|].
  apply Forall_forall. intros c Hc. rewrite forallb_forall in Hreq.
  apply list_elem_of_In, Hreq in Hc. by destruct c.
Qed.

(** A step of coroutine [k] that saves nothing. *)
Lemma insert_inv_quiet db0 w k c c' l :
  insert_inv db0 w -> coroutines w !! k = Some c -> same_rows (ledger w) l ->
  (forall hex_id, inserting c' = Some hex_id ->
     inserting c = Some hex_id \/ db_tx (ledger w) !! hex_id = None) ->
  identified c' ->
  insert_inv db0 (set_coroutine k c' l w).
Proof.
  intros Hinv Hk (Hdb & others & Hcalls & Hothers) Hfresh Hid.
  assert (Haccepted : accepted save_failure [] (calls l)
                      = accepted save_failure [] (calls (ledger w))).
  { rewrite Hcalls, accepted_app, (accepted_no_save others) by done. apply app_nil_r. }
  assert (Hins : forall hex_id, inserts hex_id (calls l) = inserts hex_id (calls (ledger w))).
  { intros hex_id. rewrite Hcalls, inserts_app, (inserts_no_save _ others) by done.
    apply app_nil_r. }
  split; simpl.
  - intros n cn hex_id Hn Hcn. rewrite Hdb. destruct (decide (k = n)) as [<- | Hne].
    + rewrite lookup_insert_eq in Hn. injection Hn as <-.
      destruct (Hfresh _ Hcn) as [Hc | Hnone]; [by eapply (n_fresh db0 w Hinv) | done].
    + rewrite lookup_insert_ne in Hn by done. by eapply (n_fresh db0 w Hinv).
  - intros n cn Hn. destruct (decide (k = n)) as [<- | Hne].
    + rewrite lookup_insert_eq in Hn. by injection Hn as <-.
    + rewrite lookup_insert_ne in Hn by done. by eapply (n_id db0 w Hinv).
  - intros hex_id. rewrite Haccepted. apply (n_once db0 w Hinv).
  - intros hex_id. rewrite Haccepted, Hdb. apply (n_row db0 w Hinv).
  - intros hex_id. rewrite Hcalls. apply settled_app.
    + intros done c0 rest. apply (n_last db0 w Hinv).
    + by apply inserts_no_save.
  - intros hex_id. rewrite Hins, Hdb. apply (n_old db0 w Hinv).
Qed.

Lemma insert_inv_release db0 w hex_id : insert_inv db0 w -> insert_inv db0 (release hex_id w).
Proof.
  intros Hinv. unfold release.
  destruct (queues w !! hex_id) as [[|j q]|]; [by destruct Hinv | | done].
  assert (Hwoken : forall n cn,
            alter (fun c => match c with Waiting e => Holding e | _ => c end) j
              (coroutines w) !! n = Some cn ->
            exists c0, coroutines w !! n = Some c0 /\ (inserting cn = None \/ cn = c0)).
  { intros n cn Hn. destruct (decide (j = n)) as [<- | Hne].
    - rewrite lookup_alter_eq in Hn.
      destruct (coroutines w !! j) as [c0|]; [|done]. injection Hn as <-.
      exists c0. split; [done|]. destruct c0; auto.
    - rewrite lookup_alter_ne in Hn by done. eauto. }
  split; simpl.
  - intros n cn hex_id' Hn Hcn. destruct (Hwoken _ _ Hn) as (c0 & Hc0 & [Hnone | ->]).
    + congruence.
    + by eapply (n_fresh db0 w Hinv).
  - intros n cn Hn. destruct (Hwoken _ _ Hn) as (c0 & Hc0 & [Hnone | ->]).
    + destruct cn as [| | | | | |e tx [[]|] v|e tx [[]|] v| | |]; done.
    + by eapply (n_id db0 w Hinv).
  - apply (n_once db0 w Hinv).
  - apply (n_row db0 w Hinv).
  - apply (n_last db0 w Hinv).
  - apply (n_old db0 w Hinv).
Qed.

(** The save of the holder [k], whether the database accepts it or not. *)
Lemma insert_inv_save db0 w k e tx save_tx v hash160 out l' c' :
  lock_inv w -> insert_inv db0 w ->
  coroutines w !! k = Some (Saving e tx save_tx v) ->
  db_save_transaction_io save_failure save_tx tx (e_height e) v (e_address e) hash160
    (history_string (e_synced e)) (ledger w) = (out, l') ->
  inserting c' = None -> identified c' ->
  insert_inv db0 (set_coroutine k c' l' w).
Proof.
  intros Hlock Hinv Hk Hrun Hc' Hid'.
  set (c := SaveTransactionIO save_tx tx (e_height e) v (e_address e) hash160
              (history_string (e_synced e))) in *.
  assert (Hothers : forall n cn hex_id, n <> k -> coroutines w !! n = Some cn ->
            inserting cn = Some hex_id -> hex_id <> e_hex_id e).
  { intros n cn hex_id Hne Hn Hcn ->. apply Hne.
    apply (l_excl w Hlock n k (e_hex_id e) (waits cn) None).
    - unfold shape_of, shape. rewrite Hn. simpl. by rewrite (inserting_holds _ _ Hcn).
    - unfold shape_of. by rewrite Hk. }
  pose proof (n_id db0 w Hinv _ _ Hk) as Hid.
  (* an insert made here is the first one accepted for its transaction *)
  assert (Hfirst : forall hex_id, is_insert hex_id c = true ->
            save_tx = Some Insert /\ tx_id tx = hex_id /\ e_hex_id e = hex_id /\
            db_tx (ledger w) !! hex_id = None /\
            inserts hex_id (accepted save_failure [] (calls (ledger w))) = [] /\
            ~ is_Some (db0 !! hex_id)).
  { intros hex_id Hc. unfold c in Hc. simpl in Hc. destruct save_tx as [[]|]; try done.
    apply bool_decide_eq_true in Hc. simpl in Hid.
    pose proof (n_fresh db0 w Hinv _ _ _ Hk eq_refl) as Hnone.
    assert (Hhex : e_hex_id e = hex_id) by congruence. rewrite Hhex in Hnone.
    split_and!; try done.
    - destruct (inserts hex_id (accepted save_failure [] (calls (ledger w)))) eqn:Hi; [done|].
      destruct (n_row db0 w Hinv hex_id) as [r Hr]; [by rewrite Hi | congruence].
    - intros Hold. destruct (n_old db0 w Hinv _ Hold) as [[r Hr] _]. congruence. }
  assert (Hone : forall hex_id,
            inserts hex_id [c] = if is_insert hex_id c then [c] else []) by done.
  rewrite db_save_transaction_io_run in Hrun. cbv zeta in Hrun. simpl calls in Hrun.
  fold c in Hrun.
  (* what the log and the accepted saves become *)
  assert (Hlog : calls l' = calls (ledger w) ++ [c] /\
            (db_tx l' = db_tx (ledger w) /\
             accepted save_failure [] (calls l') = accepted save_failure [] (calls (ledger w)) \/
             save_failure (calls (ledger w) ++ [c]) = None /\
             accepted save_failure [] (calls l')
             = accepted save_failure [] (calls (ledger w)) ++ [c] /\
             db_tx l' = db_tx (write_transaction_io save_tx tx (e_height e) v (e_address e)
                                 (history_string (e_synced e)) (ledger w)))).
  { destruct (save_failure (calls (ledger w) ++ [c])) as [x|] eqn:Hverdict;
      injection Hrun as <- <-; simpl; (split; [done|]).
    - left. split; [done|]. rewrite accepted_snoc, Hverdict. simpl. apply app_nil_r.
    - right. split; [done|]. split; [|done]. by rewrite accepted_snoc, Hverdict. }
  destruct Hlog as [Hcalls Hdb].
  assert (Hsettled : forall hex_id, settled hex_id (calls l')).
  { intros hex_id. rewrite Hcalls. apply settled_snoc.
    - intros done c0 rest. apply (n_last db0 w Hinv).
    - intros Hc. by destruct (Hfirst _ Hc) as (_ & _ & _ & _ & Hnone & _). }
  assert (Hold : forall hex_id, is_Some (db0 !! hex_id) -> inserts hex_id (calls l') = []).
  { intros hex_id Hrow. destruct (n_old db0 w Hinv _ Hrow) as [_ Hins].
    rewrite Hcalls, inserts_app, Hins, Hone.
    destruct (is_insert hex_id c) eqn:Hc; [|done].
    by destruct (Hfirst _ Hc) as (_ & _ & _ & _ & _ & Hno). }
  destruct Hdb as [[Hdb Haccepted] | (Hverdict & Haccepted & Hdb)].
  - (* the save is refused: nothing is written *)
    split; simpl.
    + intros n cn hex_id Hn Hcn. rewrite Hdb. destruct (decide (k = n)) as [<- | Hne].
      * rewrite lookup_insert_eq in Hn. injection Hn as <-. congruence.
      * rewrite lookup_insert_ne in Hn by done. by eapply (n_fresh db0 w Hinv).
    + intros n cn Hn. destruct (decide (k = n)) as [<- | Hne].
      * rewrite lookup_insert_eq in Hn. by injection Hn as <-.
      * rewrite lookup_insert_ne in Hn by done. by eapply (n_id db0 w Hinv).
    + intros hex_id. rewrite Haccepted. apply (n_once db0 w Hinv).
    + intros hex_id. rewrite Haccepted, Hdb. apply (n_row db0 w Hinv).
    + apply Hsettled.
    + intros hex_id Hrow. rewrite Hdb. destruct (n_old db0 w Hinv _ Hrow) as [Hr _].
      split; [done | by apply Hold].
  - (* the save is accepted *)
    assert (Hkept : forall hex_id,
              is_Some (db_tx (ledger w) !! hex_id) -> is_Some (db_tx l' !! hex_id)).
    { intros hex_id [r Hr]. rewrite Hdb. unfold write_transaction_io. simpl.
      destruct save_tx as [[]|]; simpl; [| |eauto].
      - destruct (decide (tx_id tx = hex_id)) as [<- | Hne].
        + rewrite lookup_insert_eq. eauto.
        + rewrite lookup_insert_ne by done. eauto.
      - destruct (decide (tx_id tx = hex_id)) as [<- | Hne].
        + rewrite lookup_alter_eq, Hr. eauto.
        + rewrite lookup_alter_ne by done. eauto. }
    split; simpl.
    + intros n cn hex_id Hn Hcn. destruct (decide (k = n)) as [<- | Hne].
      * rewrite lookup_insert_eq in Hn. injection Hn as <-. congruence.
      * rewrite lookup_insert_ne in Hn by done.
        pose proof (n_fresh db0 w Hinv _ _ _ Hn Hcn) as Hnone.
        rewrite Hdb. unfold write_transaction_io. simpl.
        destruct save_tx as [[]|]; simpl; [| |done].
        -- rewrite lookup_insert_ne; [done|]. simpl in Hid. rewrite Hid.
           intros Heq. by eapply Hothers.
        -- destruct (decide (tx_id tx = hex_id)) as [<- | Hne'].
           ++ by rewrite lookup_alter_eq, Hnone.
           ++ by rewrite lookup_alter_ne.
    + intros n cn Hn. destruct (decide (k = n)) as [<- | Hne].
      * rewrite lookup_insert_eq in Hn. by injection Hn as <-.
      * rewrite lookup_insert_ne in Hn by done. by eapply (n_id db0 w Hinv).
    + intros hex_id. rewrite Haccepted, inserts_app, length_app, Hone.
      destruct (is_insert hex_id c) eqn:Hc.
      * destruct (Hfirst _ Hc) as (_ & _ & _ & _ & -> & _). simpl. lia.
      * simpl. pose proof (n_once db0 w Hinv hex_id). lia.
    + intros hex_id. rewrite Haccepted, inserts_app, Hone.
      destruct (is_insert hex_id c) eqn:Hc.
      * intros _. destruct (Hfirst _ Hc) as (-> & <- & _).
        rewrite Hdb. unfold write_transaction_io. simpl. rewrite lookup_insert_eq. eauto.
      * rewrite app_nil_r. intros Hins.
        by apply Hkept, (n_row db0 w Hinv).
    + apply Hsettled.
    + intros hex_id Hrow. destruct (n_old db0 w Hinv _ Hrow) as [Hr _].
      split; [by apply Hkept | by apply Hold].
Qed.

Lemma insert_inv_queues db0 w qs :
  insert_inv db0 w ->
  insert_inv db0 {| ledger := ledger w; queues := qs; coroutines := coroutines w |}.
Proof. intros []. by split. Qed.

Lemma step_insert_inv db0 k w :
  honest ->
  lock_inv w -> insert_inv db0 w -> insert_inv db0 (step k w).
Proof.
  intros Hhonest Hlock Hinv. unfold step.
  destruct (coroutines w !! k) as [c|] eqn:Hk; [|done].
  destruct c as [address|address remote|address local_history i synced_history rest|e|e|e
                |e tx save_tx v|e tx save_tx v|e tx v| |x]; try done.
  - pose proof (same_rows_quiet (network_get_history get_history address) (ledger w)
                  (quiet_request (GetHistory address) (get_history address) eq_refl)) as Hrows.
    destruct (network_get_history get_history address (ledger w)) as [[remote|x|r] l];
      simpl in Hrows; [| |done]; by eapply insert_inv_quiet.
  - destruct (get_local_history_frame address (ledger w) (GetHistory address)) as [_ Hsame].
    destruct (get_local_history address (ledger w)) as [[local_history|x|r] l];
      simpl in Hsame; subst; [| |done];
      (eapply insert_inv_quiet; [done | done | apply same_rows_refl | done | done]).
  - destruct rest as [|[hex_id remote_height] rest].
    { eapply insert_inv_quiet; [done | done | apply same_rows_refl | done | done]. }
    destruct (already_synced local_history i (hex_id, remote_height)).
    { eapply insert_inv_quiet; [done | done | apply same_rows_refl | done | done]. }
    destruct (queues w !! hex_id) as [q|].
    + apply (insert_inv_queues db0 (set_coroutine k (Waiting _) (ledger w) w)).
      eapply insert_inv_quiet; [done | done | apply same_rows_refl | done | done].
    + apply (insert_inv_queues db0 (set_coroutine k (Holding _) (ledger w) w)).
      eapply insert_inv_quiet; [done | done | apply same_rows_refl | done | done].
  - destruct (db_tx (ledger w) !! e_hex_id e) as [r|] eqn:Hrow.
    + destruct (transaction_class (rec_raw r)) as [tx|x].
      * eapply insert_inv_quiet; [done | done | apply same_rows_refl | done | done].
      * apply insert_inv_release.
        eapply insert_inv_quiet; [done | done | apply same_rows_refl | done | done].
    + eapply insert_inv_quiet; [done | done | apply same_rows_refl | | done].
      intros hex_id [= <-]. by right.
  - set (m := (let* _raw := network_get_transaction get_transaction (e_hex_id e) in
               let* decoded := lift (unhexlify _raw) in
               lift (transaction_class decoded)) : M Ledger Transaction).
    assert (Hquiet : quiet m).
    { apply quiet_bind; [by apply quiet_request|]. intros _raw.
      apply quiet_bind; [apply quiet_lift|]. intros decoded. apply quiet_lift. }
    pose proof (same_rows_quiet m (ledger w) Hquiet) as Hrows.
    destruct (m (ledger w)) as [[tx|x|r] l] eqn:Hrun; simpl in Hrows; [| |done].
    + eapply insert_inv_quiet; [done | done | done | by left |].
      unfold m in Hrun. apply bind_Return_inv in Hrun as (_raw & l1 & Hnet & Hrun).
      unfold network_get_transaction in Hnet. run_inv Hnet.
      apply bind_Return_inv in Hrun as (decoded & l2 & Hhex & Hrun).
      run_inv Hhex. run_inv Hrun. simpl. by eapply Hhonest.
    + apply insert_inv_release. by eapply insert_inv_quiet.
  - pose proof (n_id db0 w Hinv _ _ Hk) as Hid.
    destruct ((0 <? e_height e) && negb (truthy v)).
    + pose proof (same_rows_quiet _ (ledger w)
                    (quiet_is_valid_transaction get_merkle double_sha256 tx (e_height e)))
        as Hrows.
      destruct (is_valid_transaction get_merkle double_sha256 tx (e_height e) (ledger w))
        as [[valid|x|r] l]; simpl in Hrows; [| |done].
      * eapply insert_inv_quiet; [done | done | done | |].
        -- intros hex_id. destruct save_tx as [[]|]; simpl; auto; discriminate.
        -- by destruct save_tx as [[]|].
      * apply insert_inv_release. by eapply insert_inv_quiet.
    + eapply insert_inv_quiet; [done | done | apply same_rows_refl | | ].
      * intros hex_id. destruct save_tx as [[]|]; simpl; auto.
      * by destruct save_tx as [[]|].
  - destruct (Codec.address_to_hash160 Base58_decode (e_address e)) as [hash160|x].
    + destruct (db_save_transaction_io _ _ _ _ _ _ _ _ _) as [[[]|x|r] l] eqn:Hrun;
        [| |done].
      * by eapply insert_inv_save.
      * apply insert_inv_release. by eapply insert_inv_save.
    + apply insert_inv_release.
      eapply insert_inv_quiet; [done | done | apply same_rows_refl | done | done].
  - apply insert_inv_release.
    eapply insert_inv_quiet; [done | done | by apply same_rows_add_call | done | done].
Qed.

Lemma run_schedule_insert_inv db0 schedule :
  honest ->
  forall w, lock_inv w -> insert_inv db0 w ->
  lock_inv (run_schedule schedule w) /\ insert_inv db0 (run_schedule schedule w).
Proof.
  intros Hhonest. induction schedule as [|k schedule IH]; intros w Hlock Hinv; simpl; [done|].
  apply IH; [by apply step_lock_inv | by apply step_insert_inv].
Qed.

(** X27.  At most one insert of a transaction goes through.  Whatever the
    interleaving of any number of concurrent calls of [update_history], against
    a server that sends for each id a transaction of that id, and whichever
    saves the database refuses: for every transaction id the database has
    accepted at most one [save_transaction_io] call with mode ['insert']; once
    it has accepted one, no further insert of this transaction is attempted
    (a second insert call is only made after the first one was refused); and
    no insert at all is attempted for a transaction that was in the database
    before the calls started. *)
Theorem transaction_inserted_once (schedule : list nat) (w : World) (hex_id : string) :
  honest ->
  initial w -> calls (ledger w) = [] ->
  (length (inserts hex_id
             (accepted save_failure [] (calls (ledger (run_schedule schedule w))))) <= 1)%nat /\
  (forall done c rest,
     calls (ledger (run_schedule schedule w)) = done ++ c :: rest ->
     is_insert hex_id c = true -> save_failure (done ++ [c]) = None ->
     inserts hex_id rest = []) /\
  (is_Some (db_tx (ledger w) !! hex_id) ->
   inserts hex_id (calls (ledger (run_schedule schedule w))) = []).
Proof.
  intros Hhonest Hinit Hcalls.
  assert (Hinv : insert_inv (db_tx (ledger w)) w).
  { destruct Hinit as [_ Hstart]. split.
    - intros k c h Hk Hc. destruct (Hstart _ _ Hk) as [address ->]. done.
    - intros k c Hk. destruct (Hstart _ _ Hk) as [address ->]. done.
    - intros h. rewrite Hcalls. simpl. lia.
    - intros h. by rewrite Hcalls.
    - intros h done c rest Heq. rewrite Hcalls in Heq. by destruct done.
    - intros h Hold. by rewrite Hcalls. }
  destruct (run_schedule_insert_inv (db_tx (ledger w)) schedule Hhonest w
              (initial_lock_inv w Hinit) Hinv) as [_ Hend].
  split_and!; [apply (n_once _ _ Hend) | apply (n_last _ _ Hend) | apply (n_old _ _ Hend)].
Qed.

End WithCollaborators.

(** ** Two calls for one address *)

(** A call that runs alone under the scheduler does what the sequential
    [update_history] does. *)
Example single_call_replays_update_history :
  ledger (run_schedule (fun _ => Ok confirmed_remote) sample_get_transaction
            sample_get_merkle sample_transaction_class (fun b => b) Base58.decode no_failure
            (repeat 0%nat 8)
            {| ledger := before_confirmation; queues := ∅;
               coroutines := {[0%nat := Start "115R"]} |})
  = after_first_run.
Proof. vm_compute. reflexivity. Qed.

(** The same on a run that verifies a Merkle proof, and on a run that ends
    in an exception. *)
Example single_call_replays_verification :
  ledger (run_schedule (fun _ => Ok [("aa", 1)]) sample_get_transaction
            sample_get_merkle sample_transaction_class (fun b => b) Base58.decode no_failure
            (repeat 0%nat 8)
            {| ledger := with_headers; queues := ∅;
               coroutines := {[0%nat := Start "115R"]} |})
  = snd (sample_update_history [("aa", 1)] with_headers) /\
  saved_events (calls (snd (sample_update_history [("aa", 1)] with_headers)))
  = [{| ev_address := "115R"; ev_tx := sample_tx [xaa]; ev_height := 1;
        ev_is_verified := 1 |}].
Proof. vm_compute. auto. Qed.

Example single_call_replays_failure :
  run_schedule (fun _ => Ok [("zz", 0)]) sample_get_transaction
    sample_get_merkle sample_transaction_class (fun b => b) Base58.decode no_failure
    (repeat 0%nat 8)
    {| ledger := before_confirmation; queues := ∅;
       coroutines := {[0%nat := Start "115R"]} |}
  = {| ledger := snd (sample_update_history [("zz", 0)] before_confirmation);
       queues := ∅;
       coroutines := {[0%nat := Failed BinasciiError]} |} /\
  fst (sample_update_history [("zz", 0)] before_confirmation) = Raise BinasciiError.
Proof. vm_compute. auto. Qed.

(** A server that keeps, for every id, a transaction whose bytes are the
    characters of the id, and the decoder that reads the id back. *)
Definition id_get_transaction (txid : string) : result string := Ok (hexlify (encode txid)).

Definition id_transaction_class (raw : bytes) : result Transaction :=
  Ok {| tx_id := string_of_list_byte raw; tx_hash := rev raw; tx_raw := raw |}.

Lemma id_honest : honest id_get_transaction id_transaction_class.
Proof.
  intros hex_id _raw decoded tx [= <-] Hhex [= <-]. simpl.
  rewrite unhexlify_hexlify in Hhex. injection Hhex as <-.
  apply string_of_list_byte_of_string.
Qed.

(** Two notifications for the same address arrive one after the other; the
    server's history has one transaction, which the ledger does not hold. *)
Definition two_syncs : World :=
  {| ledger := sample_ledger ∅ "";
     queues := ∅;
     coroutines := <[0%nat := Start "115R"]> {[1%nat := Start "115R"]} |}.

Abbreviation run_two_syncs save_failure schedule :=
  (run_schedule (fun _ => Ok [("cc", 0)]) id_get_transaction sample_get_merkle
     id_transaction_class (fun b => b) Base58.decode save_failure schedule two_syncs).

Lemma two_syncs_initial : initial two_syncs.
Proof.
  split; [reflexivity|]. intros k c Hk. unfold two_syncs in Hk. simpl in Hk.
  destruct (decide (k = 0%nat)) as [-> | H0].
  - rewrite lookup_insert_eq in Hk. injection Hk as <-. eauto.
  - rewrite lookup_insert_ne in Hk by done.
    apply lookup_singleton_Some in Hk as [_ <-]. eauto.
Qed.

(** After four steps each, the first call holds the lock of [cc] and the
    second one is queued on it. *)
Lemma one_holder_per_transaction_witness :
  exists c c',
    coroutines (run_two_syncs no_failure [0; 1; 0; 1; 0; 1; 0; 1]%nat) !! 0%nat = Some c /\
    coroutines (run_two_syncs no_failure [0; 1; 0; 1; 0; 1; 0; 1]%nat) !! 1%nat = Some c' /\
    holds c = Some "cc" /\ holds c' <> Some "cc".
Proof.
  set (e := {| e_address := "115R"; e_local := []; e_index := 0;
               e_synced := [("cc", 0)]; e_hex_id := "cc"; e_height := 0; e_rest := [] |}).
  assert (H0 : coroutines (run_two_syncs no_failure [0; 1; 0; 1; 0; 1; 0; 1]%nat) !! 0%nat
               = Some (Fetching e)) by (vm_compute; reflexivity).
  assert (H1 : coroutines (run_two_syncs no_failure [0; 1; 0; 1; 0; 1; 0; 1]%nat) !! 1%nat
               = Some (Waiting e)) by (vm_compute; reflexivity).
  exists (Fetching e), (Waiting e). split_and!; [exact H0 | exact H1 | reflexivity |].
  intros Hheld.
  pose proof (one_holder_per_transaction (fun _ => Ok [("cc", 0)]) id_get_transaction
                sample_get_merkle id_transaction_class (fun b => b) Base58.decode no_failure
                [0; 1; 0; 1; 0; 1; 0; 1]%nat two_syncs 0%nat 1%nat (Fetching e) (Waiting e)
                "cc" two_syncs_initial H0 H1 eq_refl Hheld) as Hsame.
  discriminate Hsame.
Defined.

(** A database that refuses the first insert it is asked for. *)
Definition refuse_first_insert (cs : list call) : option exn :=
  if (length (inserts "cc" cs) =? 1)%nat then Some DatabaseError else None.

(** The first call has its insert of [cc] refused and fails; the second
    call, which was queued on the lock, then finds no row and inserts [cc]
    itself.  Two inserts have been attempted and one has gone through. *)
Lemma transaction_inserted_once_witness :
  (length (inserts "cc"
             (accepted refuse_first_insert []
                (calls (ledger (run_two_syncs refuse_first_insert
                                  [0; 1; 0; 1; 0; 1; 0; 1; 0; 0; 0; 1; 1; 1; 1; 1; 1]%nat)))))
   <= 1)%nat /\
  length (inserts "cc"
            (calls (ledger (run_two_syncs refuse_first_insert
                              [0; 1; 0; 1; 0; 1; 0; 1; 0; 0; 0; 1; 1; 1; 1; 1; 1]%nat))))
  = 2%nat /\
  coroutines (run_two_syncs refuse_first_insert
                [0; 1; 0; 1; 0; 1; 0; 1; 0; 0; 0; 1; 1; 1; 1; 1; 1]%nat)
  = <[0%nat := Failed DatabaseError]> {[1%nat := Done]}.
Proof.
  destruct (transaction_inserted_once (fun _ => Ok [("cc", 0)]) id_get_transaction
              sample_get_merkle id_transaction_class (fun b => b) Base58.decode
              refuse_first_insert
              [0; 1; 0; 1; 0; 1; 0; 1; 0; 0; 0; 1; 1; 1; 1; 1; 1]%nat two_syncs "cc"
              id_honest two_syncs_initial eq_refl) as [Honce _].
  split; [exact Honce | vm_compute; split; reflexivity].
Defined.

End Concurrent.
